(** * Smart Task Analyzer: the scoring engine of [backend/tasks_app/scoring.py]
    and the views of [backend/tasks_app/views.py]

    A shallow embedding of [parse_due_date], [detect_cycles],
    [compute_scores] and the two views; the properties of the specification
    proved (or refuted) on it; and further properties of the code.

    Conventions of the embedding.
    - A Python [dict] whose iteration order is observed ([id_map], [graph]) is
      an association list in insertion order; a [dict] that is only read by
      key (a task record, [visited], [in_cycle], [dependents_count], the weight
      table) is a [gmap].
    - A computation that may raise returns [option]: [None] is an exception
      that leaves [compute_scores]. A [try ... except Exception] block is the
      [default] of such a computation.
    - A [datetime.date] is its day number (a [Z]); subtracting two dates and
      taking [.days] is subtraction.
    - Python's [float] is an instance of the interface [PyFloat]. Two
      instances are given: [Q_float], exact rational arithmetic, on which the
      general properties are proved, and [b64_float], IEEE 754 binary64 as the
      interpreter computes it, on which the scenarios are re-evaluated and
      on which the order of the output is settled.
    - The [explanation] text of a result is not part of the embedding. *)

From Stdlib Require Import ZArith QArith Qround Qminmax Lqa Lia Floats.
From stdpp Require Import gmap strings list fin_maps pretty sorting relations.

Set Default Proof Using "Type".
Set Warnings "-register-all,-clear-no-such-hyp".
Local Open Scope Z_scope.

(** ** Python floats *)

(** The operations [scoring.py] applies to floats. [lit n d] is the decimal
    literal [n/d] of the source text, [of_int] the implicit conversion of an
    [int] operand, [fzero] the test [x == 0.0] behind the truth value of a
    float, [ffinite] and [ftrunc] what [int(x)] needs, and [round4] is
    [round(x, 4)]. Every divisor in [scoring.py] is a non-zero literal or the
    positive [max_dependents], so [fdiv] needs no [ZeroDivisionError]. An
    [int / int] quotient is [of_int a / of_int b], which is Python's correctly
    rounded quotient for operands below 2^53. *)
Class PyFloat (F : Type) := {
  lit : Z → positive → F;
  of_int : Z → F;
  fadd : F → F → F;
  fsub : F → F → F;
  fmul : F → F → F;
  fdiv : F → F → F;
  flt : F → F → bool;
  fle : F → F → bool;
  fzero : F → bool;
  ffinite : F → bool;
  ftrunc : F → Z;
  round4 : F → F
}.

(** Nearest integer to a rational, ties to the even one. *)
Definition Qround_half_even (y : Q) : Z :=
  let f := Qfloor y in
  match Qcompare (y - inject_Z f) (1 # 2) with
  | Lt => f
  | Gt => f + 1
  | Eq => if Z.even f then f else f + 1
  end.

Definition Qround4 (x : Q) : Q := Qred (Qround_half_even (x * 10000) # 10000).

Definition Qtrunc (x : Q) : Z :=
  if Qle_bool 0 x then Qfloor x else Qceiling x.

(** Exact arithmetic: every float is the rational it denotes and no operation
    rounds. It has no infinity and no NaN, and [round4] rounds the exact
    value where the interpreter rounds the float nearest to it, so two
    scores may tie here and differ there. What is proved on it is a property
    of the formulas of the code; a property that depends on the order of
    the floats, on NaN or on a non-finite weight is proved for every
    arithmetic with the laws of [FloatOrder] or on [b64_float]. *)
#[export] Instance Q_float : PyFloat Q := {|
  lit n d := n # d;
  of_int := inject_Z;
  fadd := Qplus;
  fsub := Qminus;
  fmul := Qmult;
  fdiv := Qdiv;
  flt a b := negb (Qle_bool b a);
  fle := Qle_bool;
  fzero a := Qeq_bool a 0;
  ffinite _ := true;
  ftrunc := Qtrunc;
  round4 := Qround4
|}.

(** IEEE 754 binary64, on Rocq's primitive floats. *)
Module B64.

Definition of_Z (z : Z) : float :=
  SF2Prim (binary_normalize prec emax z 0 false).

(** The rational a finite float denotes. *)
Definition to_Q (x : float) : option Q :=
  match Prim2SF x with
  | S754_zero _ => Some 0%Q
  | S754_finite s m e =>
      let v := if (0 <=? e)%Z then inject_Z (Z.pos m * 2 ^ e)
               else (Z.pos m # Pos.pow 2 (Z.to_pos (- e))) in
      Some (if s then Qopp v else v)
  | _ => None
  end.

Definition finite (x : float) : bool :=
  match to_Q x with Some _ => true | None => false end.

Definition trunc (x : float) : Z :=
  match to_Q x with Some q => Qtrunc q | None => 0 end.

(** [round(x, 4)]: the decimal with four places nearest to the exact value
    of [x] (ties to even), then the float nearest to that decimal. Values
    beyond 2^53 / 10^4 in magnitude are left as they are, as are infinities
    and NaN. *)
Definition round4 (x : float) : float :=
  match to_Q x with
  | Some q =>
      let n := Qround_half_even (q * 10000) in
      if (Z.abs n <? 2 ^ 53)%Z then (of_Z n / of_Z 10000)%float else x
  | None => x
  end.

End B64.

#[export] Instance b64_float : PyFloat float := {|
  lit n d := (B64.of_Z n / B64.of_Z (Z.pos d))%float;
  of_int := B64.of_Z;
  fadd := PrimFloat.add;
  fsub := PrimFloat.sub;
  fmul := PrimFloat.mul;
  fdiv := PrimFloat.div;
  flt := PrimFloat.ltb;
  fle := PrimFloat.leb;
  fzero a := PrimFloat.eqb a PrimFloat.zero;
  ffinite := B64.finite;
  ftrunc := B64.trunc;
  round4 := B64.round4
|}.

Declare Scope pyfloat_scope.
Delimit Scope pyfloat_scope with F.
Infix "+" := fadd : pyfloat_scope.
Infix "-" := fsub : pyfloat_scope.
Infix "*" := fmul : pyfloat_scope.
Infix "/" := fdiv : pyfloat_scope.

Section Builtins.
Context {F : Type} `{PyFloat F}.

(** [max(a, b)] and [min(a, b)] on two floats: the first argument unless the
    second is strictly greater (smaller). *)
Definition py_max (a b : F) : F := if flt a b then b else a.
Definition py_min (a b : F) : F := if flt b a then b else a.

End Builtins.

(** ** Python values *)

(** The values a task field may hold: what JSON decoding produces, and the
    [datetime.date] objects a serializer hands over ([VDate], by day number).
    Other objects are outside the embedding, [datetime.datetime] among them:
    [parse_due_date] returns such an object as it is and the subtraction
    [t['due_date'] - today] then raises [TypeError]. The views never pass
    one, since the serializer's [DateField] gives a [date] and the fallback
    record holds decoded JSON only. Every theorem is about records made of
    the values below. *)
Inductive pyval (F : Type) : Type :=
  | VNone
  | VBool (b : bool)
  | VInt (z : Z)
  | VFloat (x : F)
  | VStr (s : string)
  | VDate (d : Z)
  | VList (l : list (pyval F))
  | VDict (kv : list (string * pyval F)).

Arguments VNone {F}.
Arguments VBool {F} b.
Arguments VInt {F} z.
Arguments VFloat {F} x.
Arguments VStr {F} s.
Arguments VDate {F} d.
Arguments VList {F} l.
Arguments VDict {F} kv.

(** What the standard library and [dateutil] do with text: [None] where they
    raise. [dateutil_parse s] is [parse_date(s).date()] as a day number, and
    [text_of v] is [str(v)] for a float, a date, a list or a dictionary. *)
Record PyLib (F : Type) := {
  str_to_int : string → option Z;
  str_to_float : string → option F;
  dateutil_parse : string → option Z;
  text_of : pyval F → string
}.

Arguments str_to_int {F} _ _.
Arguments str_to_float {F} _ _.
Arguments dateutil_parse {F} _ _.
Arguments text_of {F} _ _.

(** A task record, raw or cleaned: a [dict] keyed by field name. *)
Abbreviation task F := (gmap string (pyval F)).

Section Values.
Context {F : Type} `{PyFloat F}.
Variable L : PyLib F.

(** Truth value of an object, as [or] and [if] test it. *)
Definition truthy (v : pyval F) : bool :=
  match v with
  | VNone => false
  | VBool b => b
  | VInt z => negb (z =? 0)
  | VFloat x => negb (fzero x)
  | VStr s => negb (String.eqb s "")
  | VDate _ => true
  | VList l => match l with [] => false | _ => true end
  | VDict kv => match kv with [] => false | _ => true end
  end.

(** [a or b] *)
Definition py_or (a b : pyval F) : pyval F := if truthy a then a else b.

(** [t.get(k)] *)
Definition get (t : task F) (k : string) : pyval F := default VNone (t !! k).

Definition is_none (v : pyval F) : bool :=
  match v with VNone => true | _ => false end.

(** [str(v)] *)
Definition py_str (v : pyval F) : string :=
  match v with
  | VStr s => s
  | VInt z => pretty z
  | VBool b => if b then "True" else "False"
  | VNone => "None"
  | _ => text_of L v
  end.

(** [int(v)]; [None] is [TypeError], [ValueError] or [OverflowError]. *)
Definition py_int (v : pyval F) : option Z :=
  match v with
  | VInt z => Some z
  | VBool b => Some (if b then 1 else 0)
  | VFloat x => if ffinite x then Some (ftrunc x) else None
  | VStr s => str_to_int L s
  | _ => None
  end.

(** [float(v)] *)
Definition py_float (v : pyval F) : option F :=
  match v with
  | VFloat x => Some x
  | VInt z => let x := of_int z in if ffinite x then Some x else None
  | VBool b => Some (of_int (if b then 1 else 0))
  | VStr s => str_to_float L s
  | _ => None
  end.

(** A byte that continues the UTF-8 encoding of a code point: [10xxxxxx]. *)
Definition continuation (c : Ascii.ascii) : bool :=
  match c with Ascii.Ascii _ _ _ _ _ _ b6 b7 => b7 && negb b6 end.

(** The bytes at the head of [s] that continue a code point begun before
    it, and the code points of the rest. *)
Fixpoint code_points_from (s : string) : string * list string :=
  match s with
  | EmptyString => (EmptyString, [])
  | String c s' =>
      let '(pending, points) := code_points_from s' in
      if continuation c then (String c pending, points)
      else (EmptyString, String c pending :: points)
  end.

(** The one-character strings of [s], as [for x in s] yields them: its code
    points, for text held in UTF-8. *)
Definition chars (s : string) : list string :=
  let '(pending, points) := code_points_from s in
  match pending with
  | EmptyString => points
  | _ => pending :: points
  end.

(** The elements [for x in v] runs over; [None] is the [TypeError] of an
    object that is not iterable. *)
Definition py_iter (v : pyval F) : option (list (pyval F)) :=
  match v with
  | VList l => Some l
  | VStr s => Some (VStr <$> chars s)
  | VDict kv => Some ((λ p, VStr p.1) <$> kv)
  | _ => None
  end.

(** [parse_due_date]: a date or [None], never an exception. *)
Definition parse_due_date (val : pyval F) : pyval F :=
  match val with
  | VNone => VNone
  | VDate d => VDate d
  | VStr s =>
      if String.eqb s "" then VNone
      else match dateutil_parse L s with
           | Some d => VDate d
           | None => VNone
           end
  | _ => VNone
  end.

End Values.

(** ** Ordered dictionaries *)

Section Dict.
Context {V : Type}.

Definition keys (d : list (string * V)) : list string := d.*1.

(** [d.get(k)] *)
Fixpoint dict_get (d : list (string * V)) (k : string) : option V :=
  match d with
  | [] => None
  | (k', v) :: d' => if decide (k = k') then Some v else dict_get d' k
  end.

(** [d[k] = v]: a key already present keeps its place. *)
Fixpoint dict_set (k : string) (v : V) (d : list (string * V)) : list (string * V) :=
  match d with
  | [] => [(k, v)]
  | (k', v') :: d' =>
      if decide (k = k') then (k, v) :: d' else (k', v') :: dict_set k v d'
  end.

End Dict.

(** ** The dependency graph analyzer: [detect_cycles] *)

(** The four objects the nested [dfs] shares with [detect_cycles]: the
    [visited] marks (1 while a node is on the path, 2 once it is done), the
    path [stack], the [cycles] found so far and the [in_cycle] flags. *)
Record dfs_state := {
  visited : gmap string nat;
  stack : list string;
  cycles : list (gset string);
  in_cycle : gmap string bool
}.

(** [stack.index(node)] for a node on the stack. *)
Fixpoint index_of (node : string) (l : list string) : nat :=
  match l with
  | [] => 0
  | x :: l' => if decide (x = node) then 0%nat else S (index_of node l')
  end.

(** [for x in l: st = step(x, st)], stopping at the first failure. *)
Fixpoint for_each {A S : Type} (step : A → S → option S) (l : list A) (st : S) : option S :=
  match l with
  | [] => Some st
  | x :: l' => match step x st with
               | Some st' => for_each step l' st'
               | None => None
               end
  end.

(** The back-edge branch: [cyc = stack[idx:]] is recorded as a set and each of
    its nodes is flagged. *)
Definition record_cycle (node : string) (st : dfs_state) : dfs_state :=
  let cyc := drop (index_of node (stack st)) (stack st) in
  {| visited := visited st;
     stack := stack st;
     cycles := cycles st ++ [list_to_set cyc];
     in_cycle := foldl (λ m n, <[n := true]> m) (in_cycle st) cyc |}.

(** [visited[node] = 1; stack.append(node)] *)
Definition enter (node : string) (st : dfs_state) : dfs_state :=
  {| visited := <[node := 1%nat]> (visited st);
     stack := stack st ++ [node];
     cycles := cycles st;
     in_cycle := in_cycle st |}.

(** [stack.pop(); visited[node] = 2] *)
Definition leave (node : string) (st : dfs_state) : dfs_state :=
  {| visited := <[node := 2%nat]> (visited st);
     stack := removelast (stack st);
     cycles := cycles st;
     in_cycle := in_cycle st |}.

(** The nested function [dfs(node, stack)]. Its boolean result is discarded
    at both call sites and is left out. [fuel] bounds the recursion depth;
    [None] means the bound was too small ([dfs_total] shows that one more than
    the number of unvisited nodes is enough). *)
Fixpoint dfs (graph : list (string * list string)) (fuel : nat)
    (node : string) (st : dfs_state) : option dfs_state :=
  match fuel with
  | O => None
  | S fuel' =>
      match dict_get graph node with
      | None => Some st
      | Some nbs =>
          if decide (visited st !! node = Some 1%nat) then
            Some (if decide (node ∈ stack st) then record_cycle node st else st)
          else if decide (visited st !! node = Some 2%nat) then Some st
          else
            match for_each (dfs graph fuel') nbs (enter node st) with
            | Some st' => Some (leave node st')
            | None => None
            end
      end
  end.

Section DetectCycles.
Context {F : Type}.

(** The [dependencies] of a cleaned task. [compute_scores] stores a list of
    [str] there, and that is what is read back. *)
Definition deps_of (t : task F) : list string :=
  match t !! "dependencies" with
  | Some (VList l) => omap (λ v, match v with VStr s => Some s | _ => None end) l
  | _ => []
  end.

(** [graph = {tid: list(task.get('dependencies', [])) for tid, task in
    tasks.items()}] *)
Definition graph_of (tasks : list (string * task F)) : list (string * list string) :=
  (λ p, (p.1, deps_of p.2)) <$> tasks.

(** [visited = {}], [in_cycle = {tid: False for tid in tasks}], [cycles = []] *)
Definition dfs_init (tasks : list (string * task F)) : dfs_state :=
  {| visited := ∅;
     stack := [];
     cycles := [];
     in_cycle := list_to_map ((λ tid, (tid, false)) <$> keys tasks) |}.

(** One turn of [for n in graph: if visited.get(n) is None: dfs(n, [])]. *)
Definition dfs_root (graph : list (string * list string)) (fuel : nat)
    (n : string) (st : dfs_state) : option dfs_state :=
  match visited st !! n with
  | None => dfs graph fuel n
              {| visited := visited st; stack := [];
                 cycles := cycles st; in_cycle := in_cycle st |}
  | Some _ => Some st
  end.

(** [detect_cycles(tasks)]: the cycles and the flags once every node has been
    tried as a root. Each root gets one unit of fuel more than the graph has
    nodes ([detect_cycles_total] shows that it never runs out). *)
Definition detect_cycles (tasks : list (string * task F))
    : option (list (gset string) * gmap string bool) :=
  let graph := graph_of tasks in
  match for_each (dfs_root graph (S (length graph))) (keys graph) (dfs_init tasks) with
  | Some st => Some (cycles st, in_cycle st)
  | None => None
  end.

End DetectCycles.

(** ** The scoring engine: [compute_scores] *)

Record subscores (F : Type) := {
  s_urgency : F;
  s_importance : F;
  s_effort : F;
  s_dependency : F
}.

Arguments s_urgency {F} _.
Arguments s_importance {F} _.
Arguments s_effort {F} _.
Arguments s_dependency {F} _.

(** One entry of the returned list (without its [explanation]). *)
Record result (F : Type) := {
  r_id : string;
  r_title : pyval F;
  r_raw : task F;
  r_score : F;
  r_subscores : subscores F;
  r_issues : list string
}.

Arguments r_id {F} _.
Arguments r_title {F} _.
Arguments r_raw {F} _.
Arguments r_score {F} _.
Arguments r_subscores {F} _.
Arguments r_issues {F} _.

Section Scoring.
Context {F : Type} `{PyFloat F}.
Variable L : PyLib F.

Local Open Scope pyfloat_scope.

(** *** Strategy weights *)

Definition weight_table (u i e d : F) : gmap string F :=
  {[ "urgency" := u; "importance" := i; "effort" := e; "dependency" := d ]}.

Definition smart_balance : gmap string F :=
  weight_table (lit 35 100) (lit 35 100) (lit 15 100) (lit 15 100).

Definition base_weights : gmap string (gmap string F) :=
  {[ "smart_balance" := smart_balance;
     "fastest" := weight_table (lit 2 10) (lit 2 10) (lit 45 100) (lit 15 100);
     "high_impact" := weight_table (lit 2 10) (lit 6 10) (lit 1 10) (lit 1 10);
     "deadline" := weight_table (lit 7 10) (lit 15 100) (lit 1 10) (lit 5 100) ]}.

(** [w = base_weights.get(strategy, base_weights['smart_balance']).copy()],
    then [w.update(weights)] when [weights] is given and not empty. *)
Definition select_weights (strategy : string) (weights : option (gmap string F))
    : gmap string F :=
  let w := default smart_balance (base_weights !! strategy) in
  match weights with
  | Some ws => ws ∪ w
  | None => w
  end.

(** *** Normalization *)

Definition default_hours : F := lit 4 1.

(** [tid = str(t.get('id') or t.get('title') or f"task-{i}")] *)
Definition derive_id (i : nat) (t : task F) : string :=
  py_str L (py_or (py_or (get t "id") (get t "title")) (VStr ("task-" +:+ pretty i))).

(** The body of the first loop for the task [t] at position [i]: the derived
    id and the cleaned record. The only statement outside a [try] that can
    raise is the comprehension over [dependencies]. *)
Definition clean_task (i : nat) (t : task F) : option (string * task F) :=
  let tid := derive_id i t in
  let title := py_or (get t "title") (VStr ("Untitled " +:+ pretty i)) in
  let importance := default 5%Z (py_int L (py_or (get t "importance") (VInt 5))) in
  let hours :=
    default default_hours
      (py_float L (if is_none (get t "estimated_hours") then VFloat default_hours
                   else get t "estimated_hours")) in
  let due := parse_due_date L (get t "due_date") in
  deps ← py_iter (py_or (get t "dependencies") (VList []));
  Some (tid,
        <["dependencies" := VList ((λ x, VStr (py_str L x)) <$> deps)]>
          (<["due_date" := due]>
             (<["estimated_hours" := VFloat hours]>
                (<["importance" := VInt importance]>
                   (<["title" := title]>
                      (<["id" := VStr tid]> t)))))).

(** [for i, t in enumerate(task_list): ... id_map[tid] = cleaned] *)
Fixpoint build_id_map (i : nat) (task_list : list (task F))
    (id_map : list (string * task F)) : option (list (string * task F)) :=
  match task_list with
  | [] => Some id_map
  | t :: rest =>
      match clean_task i t with
      | Some (tid, cleaned) => build_id_map (S i) rest (dict_set tid cleaned id_map)
      | None => None
      end
  end.

(** *** Fan-in *)

(** [if dep in dependents_count: dependents_count[dep] += 1] *)
Definition count_dep (cnt : gmap string Z) (dep : string) : gmap string Z :=
  match cnt !! dep with
  | Some n => <[dep := (n + 1)%Z]> cnt
  | None => cnt
  end.

Definition count_dependents (id_map : list (string * task F)) : gmap string Z :=
  foldl (λ cnt p, foldl count_dep cnt (deps_of p.2))
        (list_to_map ((λ tid, (tid, 0%Z)) <$> keys id_map)) id_map.

(** [max(dependents_count.values()) if dependents_count else 1] *)
Definition max_dependents (cnt : gmap string Z) : Z :=
  match (map_to_list cnt).*2 with
  | [] => 1%Z
  | v :: vs => foldl Z.max v vs
  end.

(** *** Sub-scores *)

Definition urgency_past_due (days : Z) : F :=
  py_min (lit 99 100) (lit 9 10 + of_int (Z.min 30 (- days)) / lit 100 1).

Definition urgency_upcoming (days : Z) : F :=
  py_min (lit 1 1) (py_max (lit 0 1) (lit 1 1 - of_int days / lit 30 1)).

Definition urgency_of (today : Z) (t : task F) : option F :=
  due ← t !! "due_date";
  match due with
  | VNone => Some (lit 0 1)
  | VDate d =>
      let days := (d - today)%Z in
      Some (if (days <? 0)%Z then urgency_past_due days else urgency_upcoming days)
  | _ => None
  end.

Definition importance_of (t : task F) : option F :=
  n ← py_int L (default (VInt 5) (t !! "importance"));
  Some (of_int (Z.max 1 (Z.min 10 n)) / lit 10 1).

Definition effort_score (hours : F) : F :=
  if fle hours (lit 1 1) then lit 1 1
  else if fle (lit 16 1) hours then lit 0 1
  else lit 1 1 - (hours - lit 1 1) / lit 15 1.

Definition effort_of (t : task F) : option F :=
  h ← py_float L (py_or (get t "estimated_hours") (VFloat default_hours));
  Some (effort_score (py_max (lit 1 10) h)).

Definition dep_score_of (cnt : gmap string Z) (maxd : Z) (tid : string) : F :=
  if (0 <? maxd)%Z then of_int (default 0%Z (cnt !! tid)) / of_int maxd
  else lit 0 1.

(** The four sub-scores of the entry [tid ↦ t] of [id_map], before rounding. *)
Definition subscores_of (today : Z) (cnt : gmap string Z) (maxd : Z)
    (p : string * task F) : option (subscores F) :=
  urgency ← urgency_of today p.2;
  imp ← importance_of p.2;
  effort ← effort_of p.2;
  Some {| s_urgency := urgency;
          s_importance := imp;
          s_effort := effort;
          s_dependency := dep_score_of cnt maxd p.1 |}.

(** The weighted sum, before the cycle penalty. *)
Definition aggregate (w : gmap string F) (s : subscores F) : option F :=
  wu ← w !! "urgency";
  wi ← w !! "importance";
  we ← w !! "effort";
  wd ← w !! "dependency";
  Some (wu * s_urgency s + wi * s_importance s + we * s_effort s
        + wd * s_dependency s).

(** [if in_cycle.get(tid)] *)
Definition flagged (in_cyc : gmap string bool) (tid : string) : bool :=
  default false (in_cyc !! tid).

(** [final], before rounding. *)
Definition penalized (in_cyc : gmap string bool) (tid : string) (agg : F) : F :=
  if flagged in_cyc tid then agg * lit 9 10 else agg.

(** ['estimated_hours' not in t or t['estimated_hours'] is None] *)
Definition lacks_estimate (t : task F) : bool :=
  match t !! "estimated_hours" with
  | None => true
  | Some v => is_none v
  end.

Definition issues_of (in_cyc : gmap string bool) (tid : string) (t : task F)
    (due : pyval F) : list string :=
  (if flagged in_cyc tid then ["circular_dependency"] else []) ++
  (if is_none due then ["no_due_date"] else []) ++
  (if lacks_estimate t then ["no_estimated_hours"] else []).

(** The body of the second loop: the result for the entry [tid ↦ t] of
    [id_map]. *)
Definition score_task (w : gmap string F) (today : Z) (cnt : gmap string Z)
    (maxd : Z) (in_cyc : gmap string bool) (p : string * task F)
    : option (result F) :=
  s ← subscores_of today cnt maxd p;
  agg ← aggregate w s;
  let final := penalized in_cyc p.1 agg in
  due ← p.2 !! "due_date";
  title ← p.2 !! "title";
  Some {| r_id := p.1;
          r_title := title;
          r_raw := p.2;
          r_score := round4 final;
          r_subscores := {| s_urgency := round4 (s_urgency s);
                            s_importance := round4 (s_importance s);
                            s_effort := round4 (s_effort s);
                            s_dependency := round4 (s_dependency s) |};
          r_issues := issues_of in_cyc p.1 p.2 due |}.

(** *** Ordering *)

(** [results.sort(key=lambda x: x['score'], reverse=True)]: the list sorted
    by decreasing score, entries of equal score in their original order. *)
Fixpoint insert_desc (r : result F) (l : list (result F)) : list (result F) :=
  match l with
  | [] => [r]
  | y :: l' => if flt (r_score r) (r_score y) then y :: insert_desc r l' else r :: l
  end.

Definition sort_desc (l : list (result F)) : list (result F) :=
  foldr insert_desc [] l.

(** *** The engine *)

(** [compute_scores(task_list, strategy, weights, today)]. The reference date
    is always given: the default [date.today()] is the caller's business. *)

Definition score_all (w : gmap string F) (today : Z)
    (id_map : list (string * task F)) (in_cyc : gmap string bool)
    : option (list (result F)) :=
  let cnt := count_dependents id_map in
  mapM (score_task w today cnt (max_dependents cnt) in_cyc) id_map.

Definition compute_scores (task_list : list (task F)) (strategy : string)
    (weights : option (gmap string F)) (today : Z) : option (list (result F)) :=
  let w := select_weights strategy weights in
  id_map ← build_id_map 0 task_list [];
  '(_, in_cyc) ← detect_cycles id_map;
  results ← score_all w today id_map in_cyc;
  Some (sort_desc results).

End Scoring.

(** ** The request handlers: [views.py] *)

(** The two views, from the task list of the request to the results, and
    from the stored results to the suggestions. Reading the payload, the
    HTTP responses and the file behind [save_store] and [load_store] are
    outside the embedding: the store is the list of results last written, or
    nothing; and a result is the record above, without its [explanation]
    text. [TaskSerializer] belongs to the REST framework and is a parameter:
    [validate t] is [ser.validated_data] when [ser.is_valid()] holds. *)

(** One entry of [explanations]: the stored result, and the list [reasons]
    that the response joins into the text [why]. *)
Record suggestion (F : Type) := {
  sg_task : result F;
  sg_reasons : list string
}.

Arguments sg_task {F} _.
Arguments sg_reasons {F} _.

(** What a view answers: the body of a response with status 200, or the
    message of the response with status 400. *)
Inductive response (A : Type) : Type :=
  | Ok (body : A)
  | BadRequest (error : string).

Arguments Ok {A} body.
Arguments BadRequest {A} error.

Section Views.
Context {F : Type} `{PyFloat F}.
Variable L : PyLib F.
Variable validate : task F → option (task F).

(** The record built for a task the serializer rejects. *)
Definition fallback (t : task F) : task F :=
  {[ "title" := default (VStr "Untitled") (t !! "title");
     "due_date" := default VNone (t !! "due_date");
     "estimated_hours" := default VNone (t !! "estimated_hours");
     "importance" := default (VInt 5) (t !! "importance");
     "dependencies" := default (VList []) (t !! "dependencies") ]}.

(** [validated], after the loop over [tasks]. *)
Definition validated (tasks : list (task F)) : list (task F) :=
  (λ t, default (fallback t) (validate t)) <$> tasks.

(** The loop over [tasks] and [results = compute_scores(validated,
    strategy=strategy)] of [AnalyzeTasksView.post], for tasks that are
    objects and a strategy that is text; [None] is an exception that leaves
    the view. [post] below reads both from the body of the request and
    covers the other cases. *)
Definition analyze (tasks : list (task F)) (strategy : string) (today : Z)
    : option (list (result F)) :=
  compute_scores L (validated tasks) strategy None today.

(** A value after [json.dumps(·, default=str)] and [json.loads]: a date has
    become its text. *)
Fixpoint to_json (v : pyval F) : pyval F :=
  match v with
  | VDate d => VStr (text_of L (VDate d))
  | VList l => VList (to_json <$> l)
  | VDict kv => VDict ((λ p, let '(k, x) := p in (k, to_json x)) <$> kv)
  | _ => v
  end.

(** A result as [load_store] gives it back. *)
Definition stored_result (r : result F) : result F :=
  {| r_id := r_id r;
     r_title := to_json (r_title r);
     r_raw := to_json <$> r_raw r;
     r_score := r_score r;
     r_subscores := r_subscores r;
     r_issues := r_issues r |}.

(** The store after [save_store({"strategy": strategy, "results": results})]
    has written its file. *)
Definition stored (results : list (result F)) : list (result F) :=
  stored_result <$> results.

(** [sc.items()] *)
Definition subscore_items (s : subscores F) : list (string * F) :=
  [ ("urgency", s_urgency s); ("importance", s_importance s);
    ("effort", s_effort s); ("dependency", s_dependency s) ].

(** [max(first, *rest, key=lambda x: x[1])]: a later item replaces the best
    one so far only when its value is greater. *)
Definition max_by_value (first : string * F) (rest : list (string * F)) : string * F :=
  foldl (λ best x, if flt best.2 x.2 then x else best) first rest.

(** [top_factor = max(sc.items(), key=lambda x: x[1])] *)
Definition top_factor (s : subscores F) : string * F :=
  max_by_value ("urgency", s_urgency s)
    [ ("importance", s_importance s); ("effort", s_effort s);
      ("dependency", s_dependency s) ].

Definition cycle_note : string := "In circular dependency — resolve manually".

(** [reasons], for the stored result [t]. *)
Definition reasons_of (t : result F) : list string :=
  let top := top_factor (r_subscores t) in
  [ "Top driver: " +:+ top.1 +:+ " (" +:+ text_of L (VFloat top.2) +:+ ")" ] ++
  (if bool_decide ("circular_dependency" ∈ r_issues t) then [cycle_note] else []).

(** ["; ".join(reasons)] *)
Definition why (t : result F) : string := String.concat "; " (reasons_of t).

(** [SuggestTasksView.get], for the store [load_store()] returns. *)
Definition suggest (store : option (list (result F))) : response (list (suggestion F)) :=
  match store with
  | None => BadRequest "No stored tasks. Run analyze first."
  | Some results =>
      Ok ((λ t, {| sg_task := t; sg_reasons := reasons_of t |}) <$> take 3 results)
  end.

End Views.

Section Post.
Context {F : Type} `{PyFloat F}.
Variable L : PyLib F.
Variable validate : task F → option (task F).

(** A decoded JSON object as a record; [None] for any other value. *)
Definition as_record (t : pyval F) : option (task F) :=
  match t with
  | VDict kv => Some (list_to_map kv)
  | _ => None
  end.

(** One turn of the loop over [tasks]. The serializer rejects data that is
    no dictionary, and [t.get] then raises [AttributeError]: [None]. *)
Definition validated_item (t : pyval F) : option (task F) :=
  rec ← as_record t;
  Some (default (fallback rec) (validate rec)).

(** The strategy as [base_weights.get(strategy, ...)] reads it. A list or a
    dictionary cannot be hashed: [None] is the [TypeError]. Any other value
    that is not text is no key of the table, like the empty name. *)
Definition strategy_key (strategy : pyval F) : option string :=
  match strategy with
  | VStr name => Some name
  | VList _ | VDict _ => None
  | _ => Some ""
  end.

(** [tasks] and [strategy] as [post] takes them from the decoded body
    [request.data] and the query string; [None] is the [AttributeError] of
    [payload.get] on a body that is neither an object nor an array. *)
Definition read_payload (payload : pyval F) (query_strategy : option string)
    : option (pyval F * pyval F) :=
  match payload with
  | VDict kv =>
      Some (default (VList []) (dict_get kv "tasks"),
            default (VStr "smart_balance") (dict_get kv "strategy"))
  | VList l => Some (VList l, VStr (default "smart_balance" query_strategy))
  | _ => None
  end.

(** [AnalyzeTasksView.post] up to [results]: [None] is an exception that
    leaves the view. *)
Definition post (payload : pyval F) (query_strategy : option string) (today : Z)
    : option (list (result F)) :=
  '(tasks, strategy) ← read_payload payload query_strategy;
  items ← py_iter tasks;
  records ← mapM validated_item items;
  name ← strategy_key strategy;
  compute_scores L records name None today.

End Post.

(** * Vocabulary of the properties *)

(** ** States of the search *)

(** The number of nodes of the graph [dfs] has not entered yet. *)
Definition unvisited (graph : list (string * list string)) (st : dfs_state) : nat :=
  length (filter (λ k, visited st !! k = None) (keys graph)).

(** What holds of the shared objects whenever [dfs] is called. *)
Record dfs_inv (graph : list (string * list string)) (st : dfs_state) : Prop := {
  inv_marks : ∀ k v, visited st !! k = Some v → v = 1%nat ∨ v = 2%nat;
  inv_stack : ∀ k, k ∈ stack st → visited st !! k = Some 1%nat;
  inv_nodes : ∀ k, k ∈ stack st → k ∈ keys graph;
  inv_cycles : Forall (λ c : gset string, ∀ k, k ∈ c → k ∈ keys graph) (cycles st)
}.

(** How a call of [dfs] may change them: the stack is restored, marks are
    only added, cycles are only appended and flags are only raised. *)
Record dfs_ext (st st' : dfs_state) : Prop := {
  ext_stack : stack st' = stack st;
  ext_visited : ∀ k v, visited st !! k = Some v → visited st' !! k = Some v;
  ext_cycles : cycles st `prefix_of` cycles st';
  ext_flags : ∀ k, in_cycle st !! k = Some true → in_cycle st' !! k = Some true
}.

(** The cycle [{A}] has been recorded and [A] is flagged. *)
Definition self_found (A : string) (st : dfs_state) : Prop :=
  {[A]} ∈ cycles st ∧ in_cycle st !! A = Some true.

(** Once [A] is marked it is on the path, or its cycle has been found. *)
Definition self_inv (A : string) (st : dfs_state) : Prop :=
  is_Some (visited st !! A) → A ∈ stack st ∨ self_found A st.

(** The graph without the edges that lead outside of it. *)
Definition known_edges (graph : list (string * list string)) : list (string * list string) :=
  (λ p, (p.1, filter (λ d, d ∈ keys graph) p.2)) <$> graph.

(** Between two roots: the invariant, and an empty path. *)
Definition at_root (graph : list (string * list string)) (st : dfs_state) : Prop :=
  dfs_inv graph st ∧ stack st = [].

(** ** Tasks, records and results *)

Section TaskVocabulary.
Context {F : Type} `{PyFloat F}.
Variable L : PyLib F.

(** The task map with every reference to an unknown id removed. *)
Definition known_deps (tasks : list (string * task F)) (t : task F) : task F :=
  <["dependencies" := VList (VStr <$> filter (λ d, d ∈ keys tasks) (deps_of t))]> t.

Definition without_unknown (tasks : list (string * task F)) : list (string * task F) :=
  (λ p, (p.1, known_deps tasks p.2)) <$> tasks.

(** The ids the first loop derives, for a list that starts at position [i]. *)
Definition ids_from (i : nat) (task_list : list (task F)) : list string :=
  imap (λ j, derive_id L (i + j)) task_list.

(** The ids of the whole input. *)
Definition derived_ids (task_list : list (task F)) : list string := ids_from 0 task_list.

(** The [dependencies] field can be iterated over: it is missing, falsy
    ([None], an empty list, ...) or a list, a string or a dictionary. *)
Definition deps_ok (t : task F) : Prop :=
  truthy (get t "dependencies") = false ∨ is_Some (py_iter (get t "dependencies")).

(** What the first loop leaves in a record. *)
Record cleaned (t : task F) : Prop := {
  cl_due : t !! "due_date" = Some VNone ∨ ∃ d, t !! "due_date" = Some (VDate d);
  cl_importance : ∃ n, t !! "importance" = Some (VInt n);
  cl_hours : ∃ h, t !! "estimated_hours" = Some (VFloat h);
  cl_title : is_Some (t !! "title");
  cl_deps : ∃ l, t !! "dependencies" = Some (VList (VStr <$> l))
}.

(** A [due_date] that [parse_due_date] cannot turn into a date: anything but
    a date object or a text [dateutil] understands. *)
Definition unparsable (v : pyval F) : Prop :=
  match v with
  | VDate _ => False
  | VStr s => s = "" ∨ dateutil_parse L s = None
  | _ => True
  end.

(** The documented defaults: the cleaned record [c] of the raw record [t]
    has no due date, importance 5, 4.0 hours and no dependencies where [t]
    has nothing usable. *)
Record degraded (t c : task F) : Prop := {
  deg_due : unparsable (get t "due_date") → c !! "due_date" = Some VNone;
  deg_importance :
    py_int L (get t "importance") = None → c !! "importance" = Some (VInt 5);
  deg_hours :
    py_float L (get t "estimated_hours") = None →
    c !! "estimated_hours" = Some (VFloat default_hours);
  deg_deps : t !! "dependencies" = None → c !! "dependencies" = Some (VList [])
}.

Definition has_weights (w : gmap string F) : Prop :=
  is_Some (w !! "urgency") ∧ is_Some (w !! "importance") ∧
  is_Some (w !! "effort") ∧ is_Some (w !! "dependency").

Definition nonneg (cnt : gmap string Z) : Prop := ∀ k v, cnt !! k = Some v → (0 ≤ v)%Z.

(** The result computed for the entry [p] of [id_map]. *)
Definition result_for (w : gmap string F) (today : Z) (id_map : list (string * task F))
    (flags : gmap string bool) (p : string * task F) (r : result F) : Prop :=
  score_task L w today (count_dependents id_map)
             (max_dependents (count_dependents id_map)) flags p = Some r.

(** The library that understands no text: every conversion from a string
    raises. The closed scenarios below are evaluated under it; none of their
    fields holds text that has to be converted. *)
Definition no_text_lib : PyLib F :=
  {| str_to_int _ := None;
     str_to_float _ := None;
     dateutil_parse _ := None;
     text_of _ := "" |}.

(** A task due five days before [today], importance 8, half an hour of work,
    no dependencies. *)
Definition overdue_task (today : Z) : task F :=
  {[ "due_date" := VDate (today - 5);
     "importance" := VInt 8;
     "estimated_hours" := VFloat (lit 1 2) ]}.

(** Three tasks in a ring: [A] depends on [B], [B] on [C] and [C] on [A]. *)
Definition ring : list (task F) :=
  [ {[ "id" := VStr "A"; "dependencies" := VList [VStr "B"] ]};
    {[ "id" := VStr "B"; "dependencies" := VList [VStr "C"] ]};
    {[ "id" := VStr "C"; "dependencies" := VList [VStr "A"] ]} ].

End TaskVocabulary.

Arguments no_text_lib {F}.
Arguments ring {F}.

(** ** Exact scores *)

#[export] Instance Qeq_decision (a b : Q) : Decision (a == b)%Q := Qeq_dec a b.

(** [a] may stand before [b] in the output. *)
Definition score_ge (a b : result Q) : Prop := (r_score b <= r_score a)%Q.

Definition unit_interval (x : Q) : Prop := (0 <= x <= 1)%Q.

(** ** Dependency cycles *)

(** [a] lists [b] as a dependency, and [b] is a node of the graph. *)
Definition edge (graph : list (string * list string)) (a b : string) : Prop :=
  ∃ nbs, dict_get graph a = Some nbs ∧ b ∈ nbs ∧ b ∈ keys graph.

(** [a] depends on itself through one or more edges. *)
Definition on_cycle (graph : list (string * list string)) (a : string) : Prop :=
  tc (edge graph) a a.

(** Each element of the list has an edge to the next one. *)
Fixpoint chain (graph : list (string * list string)) (l : list string) : Prop :=
  match l with
  | [] => True
  | a :: l' => match l' with
               | [] => True
               | b :: _ => edge graph a b ∧ chain graph l'
               end
  end.

(** What the search keeps beyond [dfs_inv]: the path is a chain of edges and
    holds every node in progress; the flags are the members of the recorded
    cycles; every recorded cycle is made of nodes that lie on a cycle; and as
    long as no cycle is recorded, the finished nodes are closed under edges and
    none of them lies on a cycle. *)
Record deep_inv (graph : list (string * list string)) (st : dfs_state) : Prop := {
  di_chain : chain graph (stack st);
  di_marks : ∀ k, visited st !! k = Some 1%nat → k ∈ stack st;
  di_flags : ∀ k, in_cycle st !! k = Some true ↔ ∃ c, c ∈ cycles st ∧ k ∈ c;
  di_dom : ∀ k, is_Some (in_cycle st !! k) ↔ k ∈ keys graph;
  di_sound : Forall (λ c : gset string, c ≠ ∅ ∧ ∀ k, k ∈ c → on_cycle graph k) (cycles st);
  di_closed : cycles st = [] → ∀ v w, visited st !! v = Some 2%nat → edge graph v w →
              visited st !! w = Some 2%nat;
  di_acyclic : cycles st = [] → ∀ v, visited st !! v = Some 2%nat → ¬ on_cycle graph v
}.

(** The caller of [dfs(node, stack)] has an edge to [node]: the top of the
    path lists it. *)
Definition linked (graph : list (string * list string)) (st : dfs_state)
    (node : string) : Prop :=
  ∀ a, last (stack st) = Some a → ∃ nbs, dict_get graph a = Some nbs ∧ node ∈ nbs.

(** ** Fan-in *)

(** The number of times [k] is listed as a dependency in the whole map. *)
Definition fan_in {F : Type} (id_map : list (string * task F)) (k : string) : Z :=
  Z.of_nat (length (filter (λ d, d = k) (concat ((λ p, deps_of p.2) <$> id_map)))).

(** ** The order of scores *)

(** A float that compares with itself: in binary64, any float but NaN. *)
Definition comparable {F : Type} `{PyFloat F} (x : F) : Prop := fle x x = true.

(** What sorting needs of [<] and [<=]. *)
Class FloatOrder (F : Type) `{PyFloat F} : Prop := {
  flt_fle : ∀ x y : F, flt x y = true → fle x y = true;
  flt_not_fle : ∀ x y : F, flt x y = true → fle y x = false;
  fle_total : ∀ x y : F, comparable x → comparable y → flt x y = false → fle y x = true;
  fle_trans : ∀ x y z : F, fle x y = true → fle y z = true → fle x z = true
}.

(** The score of [b] is at most the score of [a]: [a] may stand before [b]
    in a list in descending order. *)
Definition not_below {F : Type} `{PyFloat F} (a b : result F) : Prop :=
  fle (r_score b) (r_score a) = true.

(** Neither score is less than the other: for comparable scores, they are
    equal. *)
Definition same_score {F : Type} `{PyFloat F} (a b : result F) : Prop :=
  flt (r_score a) (r_score b) = false ∧ flt (r_score b) (r_score a) = false.



#[export] Instance same_score_dec {F : Type} `{PyFloat F} (a b : result F) :
  Decision (same_score a b) :=
  decide (flt (r_score a) (r_score b) = false ∧ flt (r_score b) (r_score a) = false).

(** Two tasks with distinct ids, the first without a due date, the second
    due on day 738000. *)
Definition undated_then_dated {F : Type} : list (task F) :=
  [ {[ "id" := VStr "a" ]}; {[ "id" := VStr "b"; "due_date" := VDate 738000 ]} ].

(** Three tasks with distinct ids; the first and the last have the same
    fields but the id. *)
Definition tied_tasks {F : Type} : list (task F) :=
  [ {[ "id" := VStr "a"; "importance" := VInt 3 ]};
    {[ "id" := VStr "b"; "importance" := VInt 7 ]};
    {[ "id" := VStr "c"; "importance" := VInt 3 ]} ].

(** ** The elements of [tasks] *)


(** ** A batch for the views *)

(** A stand-in for the serializer: a task with a title that is a non-empty
    text is accepted, and the fields it lacks take the serializer's
    defaults; any other task is rejected. *)
Definition accept_titled {F : Type} `{PyFloat F} (t : task F) : option (task F) :=
  match t !! "title" with
  | Some (VStr s) =>
      if String.eqb s "" then None
      else Some (t ∪ {[ "estimated_hours" := VFloat (lit 4 1);
                        "importance" := VInt 5;
                        "dependencies" := VList [] ]})
  | _ => None
  end.

(** Five titled tasks: [A], [B] and [C] depend on each other in a ring, [D]
    is due on day 738000 with importance 9, and [E] has nothing but its id
    and title. *)
Definition titled_batch {F : Type} : list (task F) :=
  [ {[ "id" := VStr "A"; "title" := VStr "a"; "dependencies" := VList [VStr "B"] ]};
    {[ "id" := VStr "B"; "title" := VStr "b"; "dependencies" := VList [VStr "C"] ]};
    {[ "id" := VStr "C"; "title" := VStr "c"; "dependencies" := VList [VStr "A"] ]};
    {[ "id" := VStr "D"; "title" := VStr "d"; "due_date" := VDate 738000;
       "importance" := VInt 9 ]};
    {[ "id" := VStr "E"; "title" := VStr "e" ]} ].

(** * Facts about ordered dictionaries and loops *)

Section DictFacts.
Context {V : Type}.
Implicit Types d : list (string * V).

Lemma dict_get_Some_keys d k v : dict_get d k = Some v → k ∈ keys d.
Proof.
  induction d as [|[k' v'] d IH]; simpl; [done|].
  destruct (decide (k = k')) as [-> |]; intros; [left | right; auto].
Qed.

Lemma dict_get_None d k : dict_get d k = None ↔ k ∉ keys d.
Proof.
  induction d as [|[k' v'] d IH]; simpl.
  - split; [intros _; apply not_elem_of_nil | done].
  - rewrite not_elem_of_cons. destruct (decide (k = k')); [|tauto].
    split; [done | tauto].
Qed.

Lemma dict_get_is_Some d k : is_Some (dict_get d k) ↔ k ∈ keys d.
Proof.
  rewrite <- not_eq_None_Some, dict_get_None.
  split; [apply dec_stable | auto].
Qed.

Lemma dict_get_elem_of d k v : dict_get d k = Some v → (k, v) ∈ d.
Proof.
  induction d as [|[k' v'] d IH]; simpl; [done|].
  destruct (decide (k = k')) as [-> |]; intros; [|right; auto].
  simplify_eq. left.
Qed.

Lemma dict_get_map {W} (f : V → W) d k :
  dict_get ((λ p, (p.1, f p.2)) <$> d) k = f <$> dict_get d k.
Proof.
  induction d as [|[k' v'] d IH]; simpl; [done|].
  destruct (decide (k = k')); done.
Qed.

Lemma keys_map {W} (f : V → W) d : keys ((λ p, (p.1, f p.2)) <$> d) = keys d.
Proof. unfold keys. rewrite <- list_fmap_compose. done. Qed.

End DictFacts.

Lemma for_each_app {A S} (step : A → S → option S) l1 l2 st :
  for_each step (l1 ++ l2) st =
  match for_each step l1 st with Some st' => for_each step l2 st' | None => None end.
Proof.
  revert st. induction l1 as [|x l1 IH]; intros st; simpl; [done|].
  destruct (step x st); auto.
Qed.

(** A loop keeps what each of its turns keeps. *)
Lemma for_each_inv {A S} (step : A → S → option S) (P : S → Prop) l st st' :
  (∀ x s s', x ∈ l → P s → step x s = Some s' → P s') →
  P st → for_each step l st = Some st' → P st'.
Proof.
  revert st. induction l as [|x l IH]; intros st Hstep HP; simpl.
  - congruence.
  - destruct (step x st) as [s1|] eqn:E; [|done]. intros Hl.
    eapply IH, Hl.
    + intros. eapply Hstep; eauto. by right.
    + eapply Hstep; eauto. by left.
Qed.

(** A loop whose turns all succeed succeeds. *)
Lemma for_each_total {A S} (step : A → S → option S) (P : S → Prop) l st :
  (∀ x s, x ∈ l → P s → ∃ s', step x s = Some s' ∧ P s') →
  P st → ∃ st', for_each step l st = Some st' ∧ P st'.
Proof.
  revert st. induction l as [|x l IH]; intros st Hstep HP; simpl; [eauto|].
  destruct (Hstep x st) as (s1 & -> & HP1); [by left | done |].
  apply IH; [|done]. intros. apply Hstep; [by right | done].
Qed.

(** * The depth-first search *)

Lemma flag_all_lookup (m : gmap string bool) l k :
  foldl (λ m n, <[n := true]> m) m l !! k = Some true ↔ k ∈ l ∨ m !! k = Some true.
Proof.
  revert m. induction l as [|x l IH]; intros m; simpl.
  - rewrite elem_of_nil. naive_solver.
  - rewrite IH, elem_of_cons, lookup_insert.
    destruct (decide (x = k)); naive_solver.
Qed.

Section DfsFacts.
Variable graph : list (string * list string).
Local Abbreviation unvisited := (unvisited graph).
Local Abbreviation dfs_inv := (dfs_inv graph).

Lemma dfs_ext_refl st : dfs_ext st st.
Proof. by split. Qed.

Lemma dfs_ext_trans st1 st2 st3 : dfs_ext st1 st2 → dfs_ext st2 st3 → dfs_ext st1 st3.
Proof.
  intros [] []. split; [congruence | auto | by etrans | auto].
Qed.

Lemma record_cycle_ext node st : dfs_ext st (record_cycle node st).
Proof.
  split; simpl; [done | done | by apply prefix_app_r | ].
  intros k Hk. apply flag_all_lookup. by right.
Qed.

Lemma record_cycle_inv node st : dfs_inv st → dfs_inv (record_cycle node st).
Proof.
  intros [Hm Hs Hn Hc]. split; simpl; [done | done | done |].
  apply Forall_app. split; [done|]. apply Forall_singleton.
  intros k Hk. apply elem_of_list_to_set in Hk.
  apply Hn. eapply elem_of_sublist; [done | apply sublist_drop].
Qed.

Lemma unvisited_mono st st' :
  (∀ k v, visited st !! k = Some v → visited st' !! k = Some v) →
  (unvisited st' ≤ unvisited st)%nat.
Proof.
  intros Hv. unfold unvisited.
  induction (keys graph) as [|k l IH]; simpl; [done|].
  rewrite !filter_cons.
  destruct (decide (visited st' !! k = None)) as [E'|E'];
    destruct (decide (visited st !! k = None)) as [E|E]; simpl; try lia.
  destruct (visited st !! k) as [v|] eqn:Ev; [|done].
  apply Hv in Ev. congruence.
Qed.

Lemma unvisited_enter node st :
  node ∈ keys graph → visited st !! node = None →
  (unvisited (enter node st) < unvisited st)%nat.
Proof.
  intros Hin Hnone. unfold unvisited. simpl.
  induction (keys graph) as [|k l IH]; [by apply elem_of_nil in Hin|].
  rewrite !filter_cons.
  assert (Hle : (length (filter (λ k, <[node:=1%nat]> (visited st) !! k = None) l)
                 ≤ length (filter (λ k, visited st !! k = None) l))%nat).
  { clear. induction l as [|k l IH]; simpl; [done|]. rewrite !filter_cons.
    destruct (decide (<[node:=1%nat]> (visited st) !! k = None)) as [E'|E'];
      destruct (decide (visited st !! k = None)) as [E|E]; simpl; try lia.
    rewrite lookup_insert_None in E'. naive_solver. }
  destruct (decide (<[node:=1%nat]> (visited st) !! k = None)) as [E'|E'];
    destruct (decide (visited st !! k = None)) as [E|E]; simpl.
  - apply lookup_insert_None in E' as [_ Hne].
    apply elem_of_cons in Hin as [?|Hin]; [congruence|]. specialize (IH Hin). lia.
  - apply lookup_insert_None in E' as [? _]. done.
  - lia.
  - assert (k ≠ node) by congruence.
    apply elem_of_cons in Hin as [?|Hin]; [congruence|]. specialize (IH Hin). lia.
Qed.

Lemma enter_inv node st :
  dfs_inv st → node ∈ keys graph → dfs_inv (enter node st).
Proof.
  intros [Hm Hs Hn Hc] Hin. split; simpl; [| | |done].
  - intros k v. rewrite lookup_insert. case_decide; [naive_solver | eauto].
  - intros k. rewrite elem_of_app, list_elem_of_singleton, lookup_insert.
    case_decide; [done|]. intros [?|?]; [auto | congruence].
  - intros k. rewrite elem_of_app, list_elem_of_singleton.
    intros [?| ->]; auto.
Qed.

Lemma unmarked st node :
  dfs_inv st → visited st !! node ≠ Some 1%nat → visited st !! node ≠ Some 2%nat →
  visited st !! node = None.
Proof.
  intros [Hm _ _ _] H1 H2. destruct (visited st !! node) as [v|] eqn:E; [|done].
  destruct (Hm _ _ E); congruence.
Qed.

(** The state [leave node st'] a call on a fresh node ends in, where [st']
    is what the loop over the neighbours made of [enter node st]. *)
Lemma leave_ext node st st' :
  visited st !! node = None → dfs_ext (enter node st) st' → dfs_ext st (leave node st').
Proof.
  intros Hnone [Hs Hv Hc Hf]. split; simpl.
  - rewrite Hs. simpl. by rewrite removelast_last.
  - intros k v Hk. rewrite lookup_insert_ne by congruence.
    apply Hv. simpl. rewrite lookup_insert_ne by congruence. done.
  - done.
  - done.
Qed.

Lemma leave_inv node st st' :
  dfs_inv st → visited st !! node = None →
  dfs_ext (enter node st) st' → dfs_inv st' → dfs_inv (leave node st').
Proof.
  intros [Hm Hs Hn Hc] Hnone [Es Ev Ec Ef] [Hm' Hs' Hn' Hc']. split; simpl; [| | | done].
  - intros k v. rewrite lookup_insert. case_decide; [naive_solver | eauto].
  - rewrite Es. simpl. rewrite removelast_last. intros k Hk.
    assert (k ≠ node) by (intros ->; apply Hs in Hk; congruence).
    rewrite lookup_insert_ne by done. apply Hs'. rewrite Es. simpl.
    apply elem_of_app. by left.
  - rewrite Es. simpl. rewrite removelast_last. done.
Qed.

(** Partial correctness of [dfs]: a call that returns has kept the
    invariant, extended the state, and left its node marked. *)
Lemma dfs_sound fuel node st st' :
  dfs_inv st → dfs graph fuel node st = Some st' →
  dfs_ext st st' ∧ dfs_inv st' ∧
  (node ∈ keys graph → is_Some (visited st' !! node)).
Proof.
  revert node st st'. induction fuel as [|fuel IH]; intros node st st' Hinv; simpl; [done|].
  destruct (dict_get graph node) as [nbs|] eqn:Hg.
  2:{ intros [= <-]. split; [apply dfs_ext_refl|]. split; [done|].
      intros Hin. apply dict_get_None in Hg. done. }
  destruct (decide (visited st !! node = Some 1%nat)) as [H1|H1].
  { intros [= <-]. case_decide.
    - split; [apply record_cycle_ext|]. split; [by apply record_cycle_inv|]. simpl. by rewrite H1.
    - split; [apply dfs_ext_refl|]. split; [done|]. by rewrite H1. }
  destruct (decide (visited st !! node = Some 2%nat)) as [H2|H2].
  { intros [= <-]. split; [apply dfs_ext_refl|]. split; [done|]. by rewrite H2. }
  destruct (for_each _ nbs (enter node st)) as [st2|] eqn:Hloop; [|done].
  intros [= <-].
  pose proof (unmarked _ _ Hinv H1 H2) as Hnone.
  assert (Hin : node ∈ keys graph) by (eapply dict_get_Some_keys; eauto).
  assert (dfs_ext (enter node st) st2 ∧ dfs_inv st2) as [Hext Hinv2].
  { eapply (for_each_inv _ (λ s, dfs_ext (enter node st) s ∧ dfs_inv s)); [| |exact Hloop].
    - intros x s s' _ [He Hi] Hs. destruct (IH _ _ _ Hi Hs) as (? & ? & _).
      split; [by eapply dfs_ext_trans | done].
    - split; [apply dfs_ext_refl | by apply enter_inv]. }
  split; [by apply leave_ext|]. split; [by apply (leave_inv node st)|].
  simpl. rewrite lookup_insert_eq. eauto.
Qed.

(** Total correctness: with more fuel than there are unvisited nodes, the
    call returns. *)
Lemma dfs_total fuel node st :
  dfs_inv st → (unvisited st < fuel)%nat → is_Some (dfs graph fuel node st).
Proof.
  revert node st. induction fuel as [|fuel IH]; intros node st Hinv Hlt; simpl; [lia|].
  destruct (dict_get graph node) as [nbs|] eqn:Hg; [|eauto].
  destruct (decide (visited st !! node = Some 1%nat)) as [H1|H1]; [eauto|].
  destruct (decide (visited st !! node = Some 2%nat)) as [H2|H2]; [eauto|].
  pose proof (unmarked _ _ Hinv H1 H2) as Hnone.
  assert (Hin : node ∈ keys graph) by (eapply dict_get_Some_keys; eauto).
  destruct (for_each_total (dfs graph fuel)
              (λ s, dfs_inv s ∧ (unvisited s < fuel)%nat) nbs (enter node st))
    as (st2 & -> & _); [| |eauto].
  - intros x s _ [Hi Hl]. destruct (IH x s Hi Hl) as [s' Hs']. exists s'.
    split; [done|]. destruct (dfs_sound _ _ _ _ Hi Hs') as ([] & ? & _).
    split; [done|]. eapply Nat.le_lt_trans; [by apply unvisited_mono | done].
  - split; [by apply enter_inv|]. pose proof (unvisited_enter _ _ Hin Hnone). lia.
Qed.

End DfsFacts.

(** ** Self-dependencies *)

Section SelfLoop.
Variable graph : list (string * list string).
Variables (A : string) (nbs : list string).
Local Abbreviation self_found := (self_found A).
Local Abbreviation self_inv := (self_inv A).
Hypothesis HA : dict_get graph A = Some nbs.
Hypothesis Hself : A ∈ nbs.

Lemma self_found_ext st st' : dfs_ext st st' → self_found st → self_found st'.
Proof using Type.
  intros [_ _ Hc Hf] [H1 H2]. split; [|auto].
  destruct Hc as [new ->]. apply elem_of_app. by left.
Qed.

Lemma index_of_fresh (l : list string) x : x ∉ l → index_of x (l ++ [x]) = length l.
Proof using Type.
  induction l as [|y l IH]; simpl; intros Hx.
  - by rewrite decide_True.
  - apply not_elem_of_cons in Hx as [? ?]. rewrite decide_False by done. auto.
Qed.

(** The back edge [A → A], met while [A] is on top of the path. *)
Lemma self_edge fuel st st' :
  dfs_inv graph st → visited st !! A = None →
  ∀ s, dfs_ext (enter A st) s →
  dfs graph fuel A s = Some st' → dfs_ext s st' ∧ self_found st'.
Proof using HA.
  intros Hinv Hnone s [Es Ev _ _]. destruct fuel as [|fuel]; simpl; [done|].
  rewrite HA.
  assert (visited s !! A = Some 1%nat) as H1.
  { apply Ev. simpl. apply lookup_insert_eq. }
  rewrite decide_True by done.
  assert (A ∈ stack s) by (rewrite Es; simpl; apply elem_of_app; right; left).
  rewrite decide_True by done. intros [= <-].
  split; [apply record_cycle_ext|].
  assert (A ∉ stack st).
  { intros Hin. apply (inv_stack _ _ Hinv) in Hin. congruence. }
  unfold self_found, record_cycle. simpl. rewrite Es. simpl.
  rewrite index_of_fresh, drop_app_length by done. simpl. split.
  - apply elem_of_app. right. rewrite (right_id_L ∅ (∪)). left.
  - apply lookup_insert_eq.
Qed.

Lemma dfs_self fuel node st st' :
  dfs_inv graph st → self_inv st → dfs graph fuel node st = Some st' → self_inv st'.
Proof using HA Hself.
  revert node st st'. induction fuel as [|fuel IH]; intros node st st' Hinv HJ; simpl; [done|].
  destruct (dict_get graph node) as [nbs'|] eqn:Hg; [|by intros [= <-]].
  destruct (decide (visited st !! node = Some 1%nat)) as [H1|H1].
  { intros [= <-]. case_decide; [|done]. intros Hv.
    destruct (HJ Hv) as [?|?]; [by left|]. right.
    eapply self_found_ext; [apply record_cycle_ext | done]. }
  destruct (decide (visited st !! node = Some 2%nat)) as [H2|H2]; [by intros [= <-]|].
  destruct (for_each _ nbs' (enter node st)) as [st2|] eqn:Hloop; [|done].
  intros [= <-].
  pose proof (unmarked _ _ _ Hinv H1 H2) as Hnone.
  assert (Hin : node ∈ keys graph) by (eapply dict_get_Some_keys; eauto).
  pose proof (enter_inv _ _ _ Hinv Hin) as Hinv1.
  assert (Hstep : ∀ l s s', dfs_ext (enter node st) s ∧ dfs_inv graph s →
            for_each (dfs graph fuel) l s = Some s' →
            dfs_ext (enter node st) s' ∧ dfs_inv graph s').
  { intros l s s' Hs.
    apply (for_each_inv (dfs graph fuel) (λ s, dfs_ext (enter node st) s ∧ dfs_inv graph s)); [|done].
    intros x s1 s2 _ [He Hi] Hd. destruct (dfs_sound _ _ _ _ _ Hi Hd) as (? & ? & _).
    split; [by eapply dfs_ext_trans | done]. }
  destruct (decide (node = A)) as [->|Hne].
  - (* the loop meets the edge A → A *)
    assert (nbs' = nbs) as -> by congruence.
    destruct (list_elem_of_split _ _ Hself) as (l1 & l2 & Hnbs).
    rewrite Hnbs in Hloop.
    rewrite for_each_app in Hloop.
    destruct (for_each _ l1 (enter A st)) as [s1|] eqn:Hl1; [|done].
    simpl in Hloop. destruct (dfs graph fuel A s1) as [s2|] eqn:Hd; [|done].
    destruct (Hstep l1 _ _ (conj (dfs_ext_refl _) Hinv1) Hl1) as [He1 Hi1].
    destruct (self_edge _ _ _ Hinv Hnone _ He1 Hd) as [He2 Hfound].
    destruct (dfs_sound _ _ _ _ _ Hi1 Hd) as (_ & Hi2 & _).
    assert (self_found st2) as [Hc Hf].
    { apply (for_each_inv (dfs graph fuel) (λ s, self_found s ∧ dfs_inv graph s) l2 s2);
        [| done | done].
      intros x sa sb _ [Hfa Hia] Hdb.
      destruct (dfs_sound _ _ _ _ _ Hia Hdb) as (? & ? & _).
      split; [by eapply self_found_ext | done]. }
    intros _. right. split; [exact Hc | exact Hf].
  - (* another node: A stays where it was *)
    assert (self_inv st2) as HJ2.
    { apply (for_each_inv (dfs graph fuel) (λ s, self_inv s ∧ dfs_inv graph s) nbs' (enter node st));
        [| |done].
      - intros x sa sb _ [Hfa Hia] Hdb.
        destruct (dfs_sound _ _ _ _ _ Hia Hdb) as (? & ? & _).
        split; [exact (IH _ _ _ Hia Hfa Hdb) | done].
      - split; [|done]. unfold self_inv. simpl. rewrite lookup_insert_ne by done.
        intros Hv. destruct (HJ Hv) as [?|?]; [left | by right].
        apply elem_of_app. by left. }
    destruct (Hstep nbs' _ _ (conj (dfs_ext_refl _) Hinv1) Hloop) as [[Es _ _ _] _].
    unfold self_inv. simpl. rewrite lookup_insert_ne by done.
    intros Hv. destruct (HJ2 Hv) as [Hin2|[? ?]]; [left | by right].
    rewrite Es in *. simpl in *. rewrite removelast_last.
    apply elem_of_app in Hin2 as [?|Hin2]; [done|].
    apply list_elem_of_singleton in Hin2. congruence.
Qed.

End SelfLoop.

(** ** Edges to unknown nodes *)

Section Prune.
Variable graph : list (string * list string).
Local Abbreviation known_edges := (known_edges graph).

Lemma for_each_prune fuel nbs st :
  (∀ node s, dfs_inv graph s → (unvisited graph s < fuel)%nat →
             dfs known_edges fuel node s = dfs graph fuel node s) →
  dfs_inv graph st → (unvisited graph st < fuel)%nat →
  for_each (dfs known_edges fuel) (filter (λ d, d ∈ keys graph) nbs) st =
  for_each (dfs graph fuel) nbs st.
Proof.
  intros IH. revert st. induction nbs as [|nb nbs IHl]; intros st Hinv Hlt; [done|].
  rewrite filter_cons. simpl. destruct (decide (nb ∈ keys graph)) as [Hin|Hout].
  - simpl. rewrite IH by done.
    destruct (dfs graph fuel nb st) as [s'|] eqn:Hd; [|done].
    destruct (dfs_sound _ _ _ _ _ Hinv Hd) as ([] & ? & _).
    apply IHl; [done|]. eapply Nat.le_lt_trans; [by apply unvisited_mono | done].
  - destruct fuel as [|fuel]; [lia|]. simpl.
    apply dict_get_None in Hout. rewrite Hout. by apply IHl.
Qed.

Lemma dfs_prune fuel node st :
  dfs_inv graph st → (unvisited graph st < fuel)%nat →
  dfs known_edges fuel node st = dfs graph fuel node st.
Proof.
  revert node st. induction fuel as [|fuel IH]; intros node st Hinv Hlt; [done|].
  simpl. unfold known_edges at 1. rewrite dict_get_map.
  destruct (dict_get graph node) as [nbs|] eqn:Hg; simpl; [|done].
  destruct (decide (visited st !! node = Some 1%nat)) as [H1|H1]; [done|].
  destruct (decide (visited st !! node = Some 2%nat)) as [H2|H2]; [done|].
  pose proof (unmarked _ _ _ Hinv H1 H2) as Hnone.
  assert (Hin : node ∈ keys graph) by (eapply dict_get_Some_keys; eauto).
  rewrite for_each_prune; [done | exact IH | by apply enter_inv |].
  pose proof (unvisited_enter graph _ _ Hin Hnone). lia.
Qed.

End Prune.

(** ** [detect_cycles] *)

Section DetectCyclesFacts.
Context {F : Type}.
Implicit Types tasks : list (string * task F).

Lemma keys_graph_of tasks : keys (graph_of tasks) = keys tasks.
Proof. apply keys_map. Qed.

Lemma dict_get_graph_of tasks k :
  dict_get (graph_of tasks) k = deps_of <$> dict_get tasks k.
Proof. apply dict_get_map. Qed.

Lemma dfs_init_at_root graph tasks : at_root graph (dfs_init tasks).
Proof.
  split; [|done]. split; simpl.
  - intros k v. by rewrite lookup_empty.
  - intros k Hk. by apply elem_of_nil in Hk.
  - intros k Hk. by apply elem_of_nil in Hk.
  - constructor.
Qed.

Lemma restart_stack st :
  stack st = [] →
  {| visited := visited st; stack := []; cycles := cycles st; in_cycle := in_cycle st |} = st.
Proof. destruct st; simpl; by intros ->. Qed.

Lemma dfs_root_sound graph fuel n st st' :
  at_root graph st → dfs_root graph fuel n st = Some st' →
  dfs_ext st st' ∧ at_root graph st' ∧ (n ∈ keys graph → is_Some (visited st' !! n)).
Proof.
  intros [Hinv Hs]. unfold dfs_root. rewrite restart_stack by done.
  destruct (visited st !! n) as [v|] eqn:E.
  - intros [= <-]. split; [apply dfs_ext_refl|]. split; [by split|]. rewrite E. eauto.
  - intros Hd. destruct (dfs_sound _ _ _ _ _ Hinv Hd) as (He & Hi & Hv).
    split; [done|]. split; [|done]. split; [done|]. destruct He. congruence.
Qed.

Lemma dfs_root_total graph n st :
  at_root graph st → is_Some (dfs_root graph (S (length graph)) n st).
Proof.
  intros [Hinv Hs]. unfold dfs_root. rewrite restart_stack by done.
  destruct (visited st !! n); [eauto|]. apply dfs_total; [done|].
  unfold unvisited, keys. pose proof (length_filter (λ k, visited st !! k = None) graph.*1) as Hl.
  rewrite length_fmap in Hl. lia.
Qed.

Lemma roots_sound graph fuel l st st' :
  at_root graph st → for_each (dfs_root graph fuel) l st = Some st' →
  dfs_ext st st' ∧ at_root graph st' ∧
  (∀ n, n ∈ l → n ∈ keys graph → is_Some (visited st' !! n)).
Proof.
  revert st. induction l as [|n l IH]; intros st Hr; simpl.
  - intros [= <-]. split; [apply dfs_ext_refl|]. split; [done|].
    intros n Hn. by apply elem_of_nil in Hn.
  - destruct (dfs_root graph fuel n st) as [s1|] eqn:Hd; [|done]. intros Hl.
    destruct (dfs_root_sound _ _ _ _ _ Hr Hd) as (He1 & Hr1 & Hv1).
    destruct (IH _ Hr1 Hl) as (He2 & Hr2 & Hv2).
    split; [by eapply dfs_ext_trans|]. split; [done|].
    intros k [->|Hk]%elem_of_cons Hin; [|by apply Hv2].
    destruct (Hv1 Hin) as [v Hv]. exists v. by apply (ext_visited _ _ He2).
Qed.

Lemma roots_total graph l st :
  at_root graph st → is_Some (for_each (dfs_root graph (S (length graph))) l st).
Proof.
  intros Hr.
  destruct (for_each_total (dfs_root graph (S (length graph))) (at_root graph) l st)
    as (st' & -> & _); [|done|eauto].
  intros n s _ Hs. destruct (dfs_root_total graph n s Hs) as [s' Hs'].
  exists s'. split; [done|]. by destruct (dfs_root_sound _ _ _ _ _ Hs Hs') as (_ & ? & _).
Qed.

(** [detect_cycles] returns, whatever the task map. *)
Lemma detect_cycles_total tasks : is_Some (detect_cycles tasks).
Proof.
  unfold detect_cycles.
  destruct (roots_total (graph_of tasks) (keys (graph_of tasks)) (dfs_init tasks))
    as [st ->]; [apply dfs_init_at_root | eauto].
Qed.

(** What it returns is the final state of the root loop. *)
Lemma detect_cycles_Some tasks cs flags :
  detect_cycles tasks = Some (cs, flags) →
  ∃ st, for_each (dfs_root (graph_of tasks) (S (length (graph_of tasks))))
                 (keys (graph_of tasks)) (dfs_init tasks) = Some st
        ∧ cs = cycles st ∧ flags = in_cycle st.
Proof.
  unfold detect_cycles. destruct (for_each _ _ _) as [st|]; [|done].
  intros [= <- <-]. eauto.
Qed.

(** A task that lists itself is found as the cycle [{A}]. *)
Lemma detect_cycles_self tasks A t cs flags :
  dict_get tasks A = Some t → A ∈ deps_of t →
  detect_cycles tasks = Some (cs, flags) →
  {[A]} ∈ cs ∧ flags !! A = Some true.
Proof.
  intros Ht Hdep (st & Hloop & -> & ->)%detect_cycles_Some.
  set (graph := graph_of tasks) in *.
  assert (HA : dict_get graph A = Some (deps_of t)).
  { unfold graph. by rewrite dict_get_graph_of, Ht. }
  assert (at_root graph st ∧ self_inv A st) as [[_ Hs] HJ].
  { apply (for_each_inv (dfs_root graph (S (length graph)))
             (λ s, at_root graph s ∧ self_inv A s) (keys graph) (dfs_init tasks)); [| |done].
    - intros n s s' _ [Hr HJ] Hd.
      split; [by destruct (dfs_root_sound _ _ _ _ _ Hr Hd) as (_ & ? & _)|].
      revert Hd. unfold dfs_root. destruct Hr as [Hinv Hs]. rewrite restart_stack by done.
      destruct (visited s !! n); [by intros [= <-]|].
      by apply (dfs_self graph A (deps_of t) HA Hdep).
    - split; [apply dfs_init_at_root|]. unfold self_inv. simpl.
      rewrite lookup_empty. by intros [? ?]. }
  destruct (roots_sound _ _ _ _ _ (dfs_init_at_root graph tasks) Hloop) as (_ & _ & Hv).
  assert (A ∈ keys graph) as Hin by (eapply dict_get_Some_keys; eauto).
  destruct (HJ (Hv A Hin Hin)) as [Hst|?]; [|done].
  rewrite Hs in Hst. by apply elem_of_nil in Hst.
Qed.

(** Every member of a recorded cycle is a task of the map. *)
Lemma detect_cycles_members tasks cs flags :
  detect_cycles tasks = Some (cs, flags) →
  Forall (λ c : gset string, ∀ k, k ∈ c → k ∈ keys tasks) cs.
Proof.
  intros (st & Hloop & -> & ->)%detect_cycles_Some.
  destruct (roots_sound _ _ _ _ _ (dfs_init_at_root _ tasks) Hloop) as (_ & [Hinv _] & _).
  rewrite <- keys_graph_of. apply Hinv.
Qed.

Lemma deps_of_insert (t : task F) l :
  deps_of (<["dependencies" := VList (VStr <$> l)]> t) = l.
Proof.
  unfold deps_of. rewrite lookup_insert_eq.
  induction l as [|x l IH]; [done|]. rewrite fmap_cons. cbn [omap list_omap].
  by rewrite IH.
Qed.

Lemma graph_of_without_unknown tasks :
  graph_of (without_unknown tasks) = known_edges (graph_of tasks).
Proof.
  unfold known_edges, graph_of, without_unknown. rewrite <- !list_fmap_compose.
  apply list_fmap_ext. intros i [k t] _. simpl. unfold known_deps.
  rewrite deps_of_insert. f_equal. apply list_filter_iff. intros d.
  change (((λ p : string * task F, (p.1, deps_of p.2)) <$> tasks)) with (graph_of tasks).
  by rewrite keys_graph_of.
Qed.

Lemma roots_prune graph l st :
  at_root graph st →
  for_each (dfs_root (known_edges graph) (S (length graph))) l st =
  for_each (dfs_root graph (S (length graph))) l st.
Proof.
  revert st. induction l as [|n l IH]; intros st Hr; [done|]. simpl.
  assert (dfs_root (known_edges graph) (S (length graph)) n st
          = dfs_root graph (S (length graph)) n st) as ->.
  { unfold dfs_root. destruct Hr as [Hinv Hs]. rewrite restart_stack by done.
    destruct (visited st !! n); [done|]. apply dfs_prune; [done|].
    unfold unvisited, keys.
    pose proof (length_filter (λ k, visited st !! k = None) graph.*1) as Hl.
    rewrite length_fmap in Hl. lia. }
  destruct (dfs_root graph (S (length graph)) n st) as [s1|] eqn:Hd; [|done].
  apply IH. by destruct (dfs_root_sound _ _ _ _ _ Hr Hd) as (_ & ? & _).
Qed.

(** Removing the references to unknown ids changes nothing. *)
Lemma detect_cycles_without_unknown tasks :
  detect_cycles (without_unknown tasks) = detect_cycles tasks.
Proof.
  unfold detect_cycles. rewrite graph_of_without_unknown.
  assert (keys (known_edges (graph_of tasks)) = keys (graph_of tasks)) as ->
    by apply keys_map.
  assert (length (known_edges (graph_of tasks)) = length (graph_of tasks)) as ->
    by apply length_fmap.
  assert (dfs_init (without_unknown tasks) = dfs_init tasks) as ->.
  { unfold dfs_init, without_unknown. by rewrite keys_map. }
  rewrite roots_prune; [done | apply dfs_init_at_root].
Qed.

End DetectCyclesFacts.

(** * The scoring engine *)

Section DictSet.
Context {V : Type}.
Implicit Types d : list (string * V).

Lemma keys_dict_set d k v :
  keys (dict_set k v d) = if decide (k ∈ keys d) then keys d else keys d ++ [k].
Proof.
  induction d as [|[k' v'] d IH].
  - destruct (decide (k ∈ keys [])) as [Hin|_]; [by apply elem_of_nil in Hin | done].
  - change (keys ((k', v') :: d)) with (k' :: keys d).
    cbn [dict_set]. destruct (decide (k = k')) as [->|Hne].
    + destruct (decide (k' ∈ k' :: keys d)) as [_|Hout]; [done|]. exfalso. apply Hout. left.
    + change (keys ((k', v') :: dict_set k v d)) with (k' :: keys (dict_set k v d)).
      rewrite IH. destruct (decide (k ∈ keys d)) as [Hin|Hout];
        destruct (decide (k ∈ k' :: keys d)) as [Hin'|Hout']; try done.
      * exfalso. apply Hout'. by right.
      * apply elem_of_cons in Hin' as [?|?]; done.
Qed.

Lemma dict_get_set d k v k' :
  dict_get (dict_set k v d) k' = if decide (k' = k) then Some v else dict_get d k'.
Proof.
  induction d as [|[k0 v0] d IH]; simpl.
  - destruct (decide (k' = k)); done.
  - destruct (decide (k = k0)) as [->|Hne]; simpl.
    + destruct (decide (k' = k0)); done.
    + rewrite IH. destruct (decide (k' = k0)) as [->|]; [|done].
      rewrite decide_False; done.
Qed.

Lemma NoDup_keys_dict_set d k v : NoDup (keys d) → NoDup (keys (dict_set k v d)).
Proof.
  intros Hd. rewrite keys_dict_set. case_decide; [done|].
  apply NoDup_app. split; [done|]. split; [|apply NoDup_singleton].
  intros x Hx ->%list_elem_of_singleton. done.
Qed.

Lemma dict_set_Forall (P : V → Prop) d k v :
  P v → Forall (λ p, P p.2) d → Forall (λ p, P p.2) (dict_set k v d).
Proof.
  intros Hv. induction 1 as [|[k' v'] d Hp Hd IH]; simpl.
  - by repeat constructor.
  - destruct (decide (k = k')); constructor; done.
Qed.

Lemma elem_of_dict_get d k v : NoDup (keys d) → (k, v) ∈ d → dict_get d k = Some v.
Proof.
  induction d as [|[k' v'] d IH]; simpl; [by intros _ ?%elem_of_nil|].
  intros [Hk Hd]%NoDup_cons [[= -> ->]|Hin]%elem_of_cons.
  - by rewrite decide_True.
  - rewrite decide_False; [auto|]. intros ->. apply Hk.
    apply list_elem_of_fmap. by exists (k', v).
Qed.

End DictSet.

Section Normalization.
Context {F : Type} `{PyFloat F}.
Variable L : PyLib F.
Implicit Types (t : task F) (task_list : list (task F)) (id_map : list (string * task F)).
Local Abbreviation ids_from := (ids_from L).
Local Abbreviation derived_ids := (derived_ids L).

Lemma ids_from_cons i t task_list :
  ids_from i (t :: task_list) = derive_id L i t :: ids_from (S i) task_list.
Proof.
  unfold ids_from. simpl. rewrite Nat.add_0_r. f_equal.
  apply imap_ext. intros j x _. simpl. f_equal. lia.
Qed.

Lemma ids_from_lookup i task_list j t :
  task_list !! j = Some t → ids_from i task_list !! j = Some (derive_id L (i + j) t).
Proof. intros Hj. unfold ids_from. by rewrite list_lookup_imap, Hj. Qed.

Lemma clean_task_id i t tid c : clean_task L i t = Some (tid, c) → tid = derive_id L i t.
Proof. unfold clean_task. intros. by simplify_option_eq. Qed.

(** The ids of the map are those it had and those of the list. *)
Lemma build_id_map_keys i task_list id_map acc :
  build_id_map L i task_list acc = Some id_map →
  ∀ k, k ∈ keys id_map ↔ k ∈ keys acc ∨ k ∈ ids_from i task_list.
Proof.
  revert i acc. induction task_list as [|t task_list IH]; intros i acc; simpl.
  - intros [= <-] k. unfold ids_from. simpl. rewrite elem_of_nil. tauto.
  - destruct (clean_task L i t) as [[tid c]|] eqn:Hc; [|done].
    intros Hb k. rewrite (IH _ _ Hb k), ids_from_cons, keys_dict_set.
    apply clean_task_id in Hc as ->.
    destruct (decide (derive_id L i t ∈ keys acc));
      rewrite ?elem_of_app, ?elem_of_cons, ?elem_of_nil;
      intuition (subst; auto).
Qed.

Lemma build_id_map_NoDup i task_list id_map acc :
  NoDup (keys acc) → build_id_map L i task_list acc = Some id_map → NoDup (keys id_map).
Proof.
  revert i acc. induction task_list as [|t task_list IH]; intros i acc Hacc; simpl.
  - by intros [= <-].
  - destruct (clean_task L i t) as [[tid c]|] eqn:Hc; [|done].
    apply IH. by apply NoDup_keys_dict_set.
Qed.

(** With pairwise distinct new ids the map lists them in input order. *)
Lemma build_id_map_keys_NoDup i task_list id_map acc :
  NoDup (keys acc ++ ids_from i task_list) →
  build_id_map L i task_list acc = Some id_map →
  keys id_map = keys acc ++ ids_from i task_list.
Proof.
  revert i acc. induction task_list as [|t task_list IH]; intros i acc; simpl.
  - intros _ [= <-]. unfold ids_from. simpl. by rewrite app_nil_r.
  - destruct (clean_task L i t) as [[tid c]|] eqn:Hc; [|done].
    rewrite ids_from_cons. apply clean_task_id in Hc as ->.
    intros Hnd Hb.
    assert (keys (dict_set (derive_id L i t) c acc) = keys acc ++ [derive_id L i t]) as Hk.
    { rewrite keys_dict_set. rewrite decide_False; [done|].
      apply NoDup_app in Hnd as (_ & Hd & _). intros Hin. apply (Hd _ Hin). left. }
    rewrite (IH (S i) (dict_set (derive_id L i t) c acc)); [| |done];
      rewrite Hk, <- app_assoc; done.
Qed.

(** The record kept for an id is the cleaned form of the last task that
    derives it. *)
Lemma build_id_map_last i task_list id_map acc k c :
  build_id_map L i task_list acc = Some id_map →
  dict_get id_map k = Some c →
  (∃ j t, task_list !! j = Some t ∧ clean_task L (i + j) t = Some (k, c) ∧
          ∀ j' t', (j < j')%nat → task_list !! j' = Some t' → derive_id L (i + j') t' ≠ k)
  ∨ (dict_get acc k = Some c ∧ k ∉ ids_from i task_list).
Proof.
  revert i acc. induction task_list as [|t task_list IH]; intros i acc; simpl.
  - intros [= <-] Hk. right. split; [done|]. unfold ids_from. apply not_elem_of_nil.
  - destruct (clean_task L i t) as [[tid c']|] eqn:Hc; [|done].
    intros Hb Hk. destruct (IH _ _ Hb Hk) as [(j & t' & Hj & Hcj & Hlast)|[Hacc Hnot]].
    + left. exists (S j), t'. split; [done|]. split.
      { by replace (i + S j)%nat with (S i + j)%nat by lia. }
      intros [|j'] t'' Hlt Hj'; [lia|].
      replace (i + S j')%nat with (S i + j')%nat by lia. apply Hlast; [lia | done].
    + rewrite dict_get_set in Hacc. pose proof (clean_task_id _ _ _ _ Hc) as ->.
      destruct (decide (k = derive_id L i t)) as [->|Hne].
      * left. exists 0%nat, t. split; [done|]. rewrite Nat.add_0_r.
        split; [congruence|]. intros [|j'] t'' Hlt Hj'; [lia|].
        intros Heq. apply Hnot. apply list_elem_of_lookup. exists j'.
        simpl in Hj'. rewrite (ids_from_lookup (S i) _ _ _ Hj').
        replace (S i + j')%nat with (i + S j')%nat by lia. by rewrite Heq.
      * right. split; [done|]. rewrite ids_from_cons. by apply not_elem_of_cons.
Qed.

End Normalization.

Section Cleaned.
Context {F : Type} `{PyFloat F}.
Variable L : PyLib F.
Implicit Types (t : task F) (task_list : list (task F)) (id_map : list (string * task F)).

Lemma parse_due_date_cases v :
  parse_due_date L v = VNone ∨ ∃ d, parse_due_date L v = VDate d.
Proof.
  destruct v; simpl; eauto.
  destruct (String.eqb s ""); [eauto|]. destruct (dateutil_parse L s); eauto.
Qed.

Lemma clean_task_cleaned i t tid c : clean_task L i t = Some (tid, c) → cleaned c.
Proof.
  unfold clean_task. intros Hc.
  destruct (py_iter _) as [deps|]; [|done]. injection Hc as <- <-.
  split.
  - rewrite lookup_insert_ne, lookup_insert_eq by done.
    destruct (parse_due_date_cases (get t "due_date")) as [->|[d ->]]; eauto.
  - do 3 (rewrite lookup_insert_ne by done). rewrite lookup_insert_eq. eauto.
  - do 2 (rewrite lookup_insert_ne by done). rewrite lookup_insert_eq. eauto.
  - do 4 (rewrite lookup_insert_ne by done). rewrite lookup_insert_eq. eauto.
  - rewrite lookup_insert_eq. exists (py_str L <$> deps).
    by rewrite <- list_fmap_compose.
Qed.

Lemma clean_task_total i t : deps_ok t → is_Some (clean_task L i t).
Proof.
  unfold deps_ok, clean_task, py_or. intros [->|[deps Hd]]; simpl; [eauto|].
  destruct (truthy (get t "dependencies")); [rewrite Hd|]; simpl; eauto.
Qed.

Lemma build_id_map_total i task_list acc :
  Forall deps_ok task_list → is_Some (build_id_map L i task_list acc).
Proof.
  intros Hok. revert i acc. induction Hok as [|t task_list Ht _ IH]; intros i acc; simpl; [eauto|].
  destruct (clean_task_total i t Ht) as [[tid c] ->]. apply IH.
Qed.

Lemma build_id_map_cleaned i task_list acc id_map :
  Forall (λ p, cleaned p.2) acc →
  build_id_map L i task_list acc = Some id_map → Forall (λ p, cleaned p.2) id_map.
Proof.
  revert i acc. induction task_list as [|t task_list IH]; intros i acc Hacc; simpl.
  - by intros [= <-].
  - destruct (clean_task L i t) as [[tid c]|] eqn:Hc; [|done].
    apply IH. apply (dict_set_Forall cleaned); [|done]. by eapply clean_task_cleaned.
Qed.

(** *** Weights *)

Lemma weight_table_has_weights (u i e d : F) : has_weights (weight_table u i e d).
Proof. unfold has_weights, weight_table. repeat split; by eexists. Qed.

Lemma aggregate_weight_table wu wi we wd (s : subscores F) :
  aggregate (weight_table wu wi we wd) s
  = Some (wu * s_urgency s + wi * s_importance s + we * s_effort s
          + wd * s_dependency s)%F.
Proof. vm_compute. reflexivity. Qed.

(** The table of a strategy is one of the four of the source. *)
Lemma base_weights_cases strategy :
  default smart_balance (base_weights !! strategy) ∈
  [ smart_balance;
    weight_table (lit 2 10) (lit 2 10) (lit 45 100) (lit 15 100);
    weight_table (lit 2 10) (lit 6 10) (lit 1 10) (lit 1 10);
    weight_table (lit 7 10) (lit 15 100) (lit 1 10) (lit 5 100) ].
Proof.
  unfold base_weights.
  destruct (decide (strategy = "smart_balance")) as [->|?];
    [rewrite lookup_insert_eq; set_solver | rewrite lookup_insert_ne by done].
  destruct (decide (strategy = "fastest")) as [->|?];
    [rewrite lookup_insert_eq; set_solver | rewrite lookup_insert_ne by done].
  destruct (decide (strategy = "high_impact")) as [->|?];
    [rewrite lookup_insert_eq; set_solver | rewrite lookup_insert_ne by done].
  destruct (decide (strategy = "deadline")) as [->|?];
    [rewrite lookup_singleton_eq; set_solver | rewrite lookup_singleton_ne by done].
  set_solver.
Qed.

Lemma select_weights_has_weights strategy weights :
  has_weights (select_weights strategy weights).
Proof.
  assert (has_weights (default smart_balance (base_weights !! strategy))) as Hw.
  { pose proof (base_weights_cases strategy) as Hc.
    repeat (apply elem_of_cons in Hc as [->|Hc]; [apply weight_table_has_weights|]).
    by apply elem_of_nil in Hc. }
  unfold select_weights. destruct weights as [ws|]; [|done].
  destruct Hw as (Hu & Hi & He & Hd). unfold has_weights.
  rewrite !lookup_union. repeat split; apply union_is_Some; auto.
Qed.

(** *** The second loop *)

(** [score_task] read backwards: the sub-scores behind a result. *)
Lemma score_task_Some w today cnt maxd flags p r :
  score_task L w today cnt maxd flags p = Some r →
  ∃ s agg due title,
    subscores_of L today cnt maxd p = Some s ∧ aggregate w s = Some agg ∧
    p.2 !! "due_date" = Some due ∧ p.2 !! "title" = Some title ∧
    r = {| r_id := p.1; r_title := title; r_raw := p.2;
           r_score := round4 (penalized flags p.1 agg);
           r_subscores := {| s_urgency := round4 (s_urgency s);
                             s_importance := round4 (s_importance s);
                             s_effort := round4 (s_effort s);
                             s_dependency := round4 (s_dependency s) |};
           r_issues := issues_of flags p.1 p.2 due |}.
Proof.
  unfold score_task. intros Hs.
  destruct (subscores_of L today cnt maxd p) as [s|] eqn:Es; [|done]. simpl in Hs.
  destruct (aggregate w s) as [agg|] eqn:Ea; [|done]. simpl in Hs.
  destruct (p.2 !! "due_date") as [due|] eqn:Ed; [|done]. simpl in Hs.
  destruct (p.2 !! "title") as [title|] eqn:Et; [|done]. simpl in Hs.
  injection Hs as <-. by exists s, agg, due, title.
Qed.

Lemma subscores_of_Some today cnt maxd p s :
  subscores_of L today cnt maxd p = Some s →
  urgency_of today p.2 = Some (s_urgency s) ∧
  importance_of L p.2 = Some (s_importance s) ∧
  effort_of L p.2 = Some (s_effort s) ∧
  s_dependency s = dep_score_of cnt maxd p.1.
Proof.
  unfold subscores_of. intros Hs.
  destruct (urgency_of today p.2) as [u|]; [|done].
  destruct (importance_of L p.2) as [i|]; [|done].
  destruct (effort_of L p.2) as [e|]; [|done].
  simpl in Hs. by injection Hs as <-.
Qed.

Lemma score_task_total w today cnt maxd flags p :
  has_weights w → cleaned p.2 → is_Some (score_task L w today cnt maxd flags p).
Proof.
  intros ([wu Hu] & [wi Hi] & [we He] & [wd Hd]) [Hdue [n Hn] [h Hh] [title Ht] _].
  unfold score_task, subscores_of, urgency_of, importance_of, effort_of, aggregate, get, py_or.
  rewrite Hn, Hh, Ht, Hu, Hi, He, Hd. simpl.
  destruct Hdue as [->|[d ->]]; simpl; destruct (fzero h); simpl; eauto.
Qed.

Lemma score_all_total w today id_map flags :
  has_weights w → Forall (λ p, cleaned p.2) id_map →
  is_Some (score_all L w today id_map flags).
Proof.
  intros Hw Hc. unfold score_all. apply mapM_is_Some.
  eapply Forall_impl; [exact Hc|]. intros p Hp. by apply score_task_total.
Qed.

(** *** The whole call *)

(** [compute_scores] read backwards: the stages behind its result. *)
Lemma compute_scores_Some task_list strategy weights today out :
  compute_scores L task_list strategy weights today = Some out →
  ∃ id_map cs flags results,
    build_id_map L 0 task_list [] = Some id_map ∧
    detect_cycles id_map = Some (cs, flags) ∧
    score_all L (select_weights strategy weights) today id_map flags = Some results ∧
    out = sort_desc results.
Proof.
  unfold compute_scores. intros Hc.
  destruct (build_id_map L 0 task_list []) as [id_map|] eqn:Eb; [|done]. simpl in Hc.
  destruct (detect_cycles id_map) as [[cs flags]|] eqn:Ed; [|done]. simpl in Hc.
  destruct (score_all L _ today id_map flags) as [results|] eqn:Es; [|done]. simpl in Hc.
  injection Hc as <-. by exists id_map, cs, flags, results.
Qed.

(** [compute_scores] returns a list whenever every [dependencies] field can
    be iterated over. *)
Lemma compute_scores_total task_list strategy weights today :
  Forall deps_ok task_list →
  is_Some (compute_scores L task_list strategy weights today).
Proof.
  intros Hok. unfold compute_scores.
  destruct (build_id_map_total 0 task_list [] Hok) as [id_map Hb]. rewrite Hb. simpl.
  destruct (detect_cycles_total id_map) as [[cs flags] ->]. simpl.
  destruct (score_all_total (select_weights strategy weights) today id_map flags)
    as [results ->]; [apply select_weights_has_weights | | simpl; eauto].
  eapply build_id_map_cleaned; [|exact Hb]. constructor.
Qed.

End Cleaned.

(** ** Ordering of the results *)

Section SortAny.
Context {F : Type} `{PyFloat F}.
Implicit Types (r : result F) (l : list (result F)).

Lemma insert_desc_perm r l : insert_desc r l ≡ₚ r :: l.
Proof.
  induction l as [|y l IH]; simpl; [done|].
  destruct (flt (r_score r) (r_score y)); [|done].
  rewrite IH. apply Permutation_swap.
Qed.

Lemma sort_desc_perm l : sort_desc l ≡ₚ l.
Proof.
  induction l as [|r l IH]; simpl; [done|].
  rewrite insert_desc_perm. by constructor.
Qed.

End SortAny.

Section SortExact.
Implicit Types (r : result Q) (l : list (result Q)).
Local Open Scope Q_scope.

Lemma flt_exact (a b : Q) : flt a b = true ↔ a < b.
Proof.
  cbn [flt Q_float]. rewrite negb_true_iff. split.
  - intros E. apply Qnot_le_lt. intros Hle. apply Qle_bool_iff in Hle. congruence.
  - intros Hlt. apply not_true_iff_false. intros E%Qle_bool_iff.
    by apply Qlt_not_le in Hlt.
Qed.

Lemma fle_exact (a b : Q) : fle a b = true ↔ a <= b.
Proof. apply Qle_bool_iff. Qed.

Lemma flt_exact_false (a b : Q) : flt a b = false ↔ b <= a.
Proof.
  rewrite <- not_true_iff_false, flt_exact. split.
  - apply Qnot_lt_le.
  - intros ? ?%Qlt_not_le. done.
Qed.

Lemma fle_exact_false (a b : Q) : fle a b = false ↔ b < a.
Proof.
  rewrite <- not_true_iff_false, fle_exact. split.
  - apply Qnot_le_lt.
  - intros ?%Qlt_not_le ?. done.
Qed.

Lemma insert_desc_sorted r l :
  StronglySorted score_ge l → StronglySorted score_ge (insert_desc r l).
Proof.
  induction 1 as [|y l Hl IH Hy]; cbn [insert_desc]; [by repeat constructor|].
  destruct (flt (r_score r) (r_score y)) eqn:E.
  - apply flt_exact in E. constructor; [done|].
    rewrite insert_desc_perm. constructor; [|done].
    unfold score_ge. by apply Qlt_le_weak.
  - apply flt_exact_false in E. constructor; [by constructor|].
    constructor; [done|]. eapply Forall_impl; [exact Hy|].
    unfold score_ge. intros z Hz. eapply Qle_trans; eauto.
Qed.

Lemma sort_desc_sorted l : StronglySorted score_ge (sort_desc l).
Proof.
  induction l as [|r l IH]; simpl; [constructor | by apply insert_desc_sorted].
Qed.

(** The results of one score keep their order: the sort is stable. *)
Lemma insert_desc_stable v r l :
  filter (λ x, r_score x == v) (insert_desc r l) = filter (λ x, r_score x == v) (r :: l).
Proof.
  induction l as [|y l IH]; cbn [insert_desc]; [done|].
  destruct (flt (r_score r) (r_score y)) eqn:E; [|done].
  apply flt_exact in E.
  rewrite (filter_cons _ y), IH, !filter_cons.
  destruct (decide (r_score y == v)) as [Hy|Hy]; [|done].
  destruct (decide (r_score r == v)) as [Hr|Hr]; [|done].
  rewrite Hy, Hr in E. by apply Qlt_irrefl in E.
Qed.

Lemma sort_desc_stable v l :
  filter (λ x, r_score x == v) (sort_desc l) = filter (λ x, r_score x == v) l.
Proof.
  induction l as [|r l IH]; simpl; [done|].
  rewrite insert_desc_stable, !filter_cons, IH. done.
Qed.

End SortExact.

(** ** The order of binary64 *)

Ltac compare_fields :=
  repeat match goal with
  | |- context [(?a ?= ?b)%Z] => destruct (Z.compare_spec a b)
  | H : context [(?a ?= ?b)%Z] |- _ => destruct (Z.compare_spec a b)
  | |- context [PosDef.Pos.compare_cont Eq ?a ?b] =>
      change (PosDef.Pos.compare_cont Eq a b) with (Pos.compare a b);
      destruct (Pos.compare_spec a b)
  | H : context [PosDef.Pos.compare_cont Eq ?a ?b] |- _ =>
      change (PosDef.Pos.compare_cont Eq a b) with (Pos.compare a b) in H;
      destruct (Pos.compare_spec a b)
  end.

Ltac spec_float_cases :=
  unfold SFleb, SFltb, SFcompare;
  repeat match goal with
  | x : spec_float |- _ => destruct x as [[]|[]| |[] ? ?]
  end;
  intros; try done; compare_fields; simpl in *; subst; try done; try lia.

Lemma SFltb_SFleb x y : SFltb x y = true → SFleb x y = true.
Proof. spec_float_cases. Qed.

Lemma SFltb_not_SFleb x y : SFltb x y = true → SFleb y x = false.
Proof. spec_float_cases. Qed.

Lemma SFleb_total x y :
  SFleb x x = true → SFleb y y = true → SFltb x y = false → SFleb y x = true.
Proof. spec_float_cases. Qed.

Lemma SFleb_trans x y z : SFleb x y = true → SFleb y z = true → SFleb x z = true.
Proof. spec_float_cases. Qed.

(** ** Sorting by comparable scores *)

#[export] Instance Q_order : FloatOrder Q.
Proof.
  split; unfold comparable.
  - intros x y Hlt%flt_exact. apply fle_exact. by apply Qlt_le_weak.
  - intros x y Hlt%flt_exact. apply fle_exact_false. done.
  - intros x y _ _ Hlt%flt_exact_false. by apply fle_exact.
  - intros x y z Hxy%fle_exact Hyz%fle_exact. apply fle_exact. by eapply Qle_trans.
Qed.

#[export] Instance b64_order : FloatOrder float.
Proof.
  split; unfold comparable; cbn [flt fle b64_float]; intros *;
    rewrite ?ltb_spec, ?leb_spec.
  - apply SFltb_SFleb.
  - apply SFltb_not_SFleb.
  - apply SFleb_total.
  - apply SFleb_trans.
Qed.

Section SortOrdered.
Context {F : Type} `{FloatOrder F}.
Local Set Default Proof Using "Type*".
Implicit Types (r : result F) (l : list (result F)).

Lemma flt_irrefl (x : F) : comparable x → flt x x = false.
Proof.
  intros Hx. destruct (flt x x) eqn:E; [|done].
  apply flt_not_fle in E. unfold comparable in Hx. congruence.
Qed.

Lemma insert_desc_descending r l :
  comparable (r_score r) → Forall (λ x, comparable (r_score x)) l →
  StronglySorted not_below l → StronglySorted not_below (insert_desc r l).
Proof.
  intros Hr Hl Hs. induction Hs as [|y l Hs IH Hy]; cbn [insert_desc]; [by repeat constructor|].
  apply Forall_cons in Hl as [Hcy Hl].
  destruct (flt (r_score r) (r_score y)) eqn:E.
  - constructor; [by apply IH|].
    rewrite insert_desc_perm. constructor; [|done].
    unfold not_below. by apply flt_fle.
  - assert (not_below r y) as Hry by (by apply fle_total).
    constructor; [by constructor|].
    constructor; [done|]. eapply Forall_impl; [exact Hy|].
    unfold not_below in *. intros z Hz. by eapply fle_trans.
Qed.

Lemma sort_desc_descending l :
  Forall (λ x, comparable (r_score x)) l → StronglySorted not_below (sort_desc l).
Proof.
  induction 1 as [|r l Hr Hl IH]; simpl; [constructor|].
  apply insert_desc_descending; [done | by rewrite sort_desc_perm | done].
Qed.

(** Results whose scores tie with [v] keep their order. *)
Lemma insert_desc_ties (v : result F) r l :
  comparable (r_score v) → comparable (r_score r) →
  Forall (λ x, comparable (r_score x)) l →
  filter (same_score v) (insert_desc r l) = filter (same_score v) (r :: l).
Proof.
  intros Hv Hr Hl. induction l as [|y l IH]; cbn [insert_desc]; [done|].
  apply Forall_cons in Hl as [Hy Hl].
  destruct (flt (r_score r) (r_score y)) eqn:E; [|done].
  rewrite (filter_cons _ y), IH, !filter_cons by done.
  destruct (decide (same_score v y)) as [[Hvy _]|?]; [|done].
  destruct (decide (same_score v r)) as [[_ Hrv]|?]; [|done].
  apply flt_not_fle in E.
  assert (fle (r_score y) (r_score r) = true); [|congruence].
  eapply (fle_trans _ (r_score v)); by apply fle_total.
Qed.

Lemma sort_desc_ties (v : result F) l :
  comparable (r_score v) → Forall (λ x, comparable (r_score x)) l →
  filter (same_score v) (sort_desc l) = filter (same_score v) l.
Proof.
  intros Hv. induction 1 as [|r l Hr Hl IH]; simpl; [done|].
  rewrite insert_desc_ties, !filter_cons, IH; [done..|].
  by rewrite sort_desc_perm.
Qed.

End SortOrdered.

(** ** Ranges of the sub-scores, in exact arithmetic *)

Section Bounds.
Local Open Scope Q_scope.

Ltac exact_arith :=
  cbn [fadd fsub fmul fdiv lit of_int Q_float] in *;
  repeat match goal with
  | |- context [inject_Z ?z] =>
      let x := fresh "x" in set (x := inject_Z z) in *; clearbody x
  | H : context [inject_Z ?z] |- _ =>
      let x := fresh "x" in set (x := inject_Z z) in *; clearbody x
  end.

(** Division by a literal is multiplication by a literal. *)
Ltac literal_div := unfold Qdiv in *; cbn [Qinv Qnum Qden] in *.

Ltac compare_floats :=
  repeat match goal with
  | |- context [flt ?a ?b] =>
      let E := fresh "E" in
      destruct (flt a b) eqn:E; [apply flt_exact in E | apply flt_exact_false in E]
  | |- context [fle ?a ?b] =>
      let E := fresh "E" in
      destruct (fle a b) eqn:E; [apply fle_exact in E | apply fle_exact_false in E]
  end.

Lemma inject_Z_between (a b n : Z) :
  (a ≤ n ≤ b)%Z → (a # 1) <= inject_Z n <= (b # 1).
Proof.
  intros [? ?]. change (a # 1) with (inject_Z a). change (b # 1) with (inject_Z b).
  rewrite <- !Zle_Qle. done.
Qed.

Lemma urgency_past_due_Qmin days :
  urgency_past_due days == Qmin (99 # 100) ((9 # 10) + inject_Z (Z.min 30 (- days)) / 100).
Proof.
  unfold urgency_past_due, py_min. compare_floats; exact_arith.
  - rewrite Q.min_r; [reflexivity | by apply Qlt_le_weak].
  - rewrite Q.min_l; [reflexivity | done].
Qed.

Lemma urgency_past_due_range days :
  (days < 0)%Z → (9 # 10) <= urgency_past_due days <= (99 # 100).
Proof.
  intros Hd. unfold urgency_past_due, py_min.
  pose proof (inject_Z_between 1 30 (Z.min 30 (- days)) ltac:(lia)) as Hm.
  compare_floats; exact_arith; literal_div; lra.
Qed.

Lemma urgency_past_due_mono days days' :
  (days' ≤ days)%Z → urgency_past_due days <= urgency_past_due days'.
Proof.
  intros Hd. unfold urgency_past_due, py_min.
  assert (inject_Z (Z.min 30 (- days)) <= inject_Z (Z.min 30 (- days'))) as Hm
    by (rewrite <- Zle_Qle; lia).
  compare_floats; exact_arith; literal_div; lra.
Qed.

Lemma urgency_past_due_saturated days :
  (days ≤ -9)%Z → urgency_past_due days == 99 # 100.
Proof.
  intros Hd. unfold urgency_past_due, py_min.
  pose proof (inject_Z_between 9 30 (Z.min 30 (- days)) ltac:(lia)) as Hm.
  compare_floats; exact_arith; literal_div; lra.
Qed.

Lemma urgency_upcoming_range days : unit_interval (urgency_upcoming days).
Proof.
  unfold unit_interval, urgency_upcoming, py_min, py_max.
  compare_floats; exact_arith; literal_div; lra.
Qed.

Lemma importance_range n :
  unit_interval (of_int (Z.max 1 (Z.min 10 n)) / lit 10 1)%F.
Proof.
  unfold unit_interval.
  pose proof (inject_Z_between 1 10 (Z.max 1 (Z.min 10 n)) ltac:(lia)) as Hm.
  exact_arith; literal_div; lra.
Qed.

Lemma effort_score_range hours : unit_interval (effort_score hours).
Proof.
  unfold unit_interval, effort_score. compare_floats; exact_arith; literal_div; lra.
Qed.

Lemma dep_score_range (cnt : gmap string Z) maxd tid :
  (∀ v, cnt !! tid = Some v → (0 ≤ v ≤ maxd)%Z) →
  unit_interval (dep_score_of cnt maxd tid).
Proof.
  intros Hv. unfold unit_interval, dep_score_of.
  destruct (0 <? maxd)%Z eqn:E; [|cbn; lra].
  apply Z.ltb_lt in E.
  assert (0 ≤ default 0%Z (cnt !! tid) ≤ maxd)%Z as [H0 H1].
  { destruct (cnt !! tid) as [v|]; simpl; [by apply Hv | lia]. }
  cbn [fdiv of_int Q_float].
  assert (0 < inject_Z maxd) by (by rewrite <- (Zlt_Qlt 0)).
  split.
  - apply Qle_shift_div_l; [done|]. rewrite Qmult_0_l. by rewrite <- (Zle_Qle 0).
  - apply Qle_shift_div_r; [done|]. rewrite Qmult_1_l. by rewrite <- Zle_Qle.
Qed.

(** The four built-in tables weigh a point of the unit cube into the unit
    interval. *)
Lemma aggregate_range strategy (s : subscores Q) agg :
  unit_interval (s_urgency s) → unit_interval (s_importance s) →
  unit_interval (s_effort s) → unit_interval (s_dependency s) →
  aggregate (select_weights strategy None) s = Some agg → unit_interval agg.
Proof.
  unfold unit_interval, select_weights. intros Hu Hi He Hd.
  pose proof (base_weights_cases (F:=Q) strategy) as Hc.
  repeat (apply elem_of_cons in Hc as [->|Hc]);
    [| | | | by apply elem_of_nil in Hc];
    unfold smart_balance; rewrite aggregate_weight_table;
    intros [= <-]; exact_arith; lra.
Qed.

Lemma penalized_range flags tid agg :
  unit_interval agg →
  unit_interval (penalized flags tid agg) ∧ penalized flags tid agg <= agg.
Proof.
  unfold unit_interval, penalized. destruct (flagged flags tid); exact_arith; lra.
Qed.

End Bounds.

(** ** Fan-in counts *)

Lemma foldl_inv {A B} (P : A → Prop) (f : A → B → A) l a :
  (∀ a b, P a → P (f a b)) → P a → P (foldl f a l).
Proof. intros Hf. revert a. induction l as [|b l IH]; simpl; auto. Qed.

Lemma foldl_max_le (l : list Z) (a : Z) : (a ≤ foldl Z.max a l)%Z.
Proof.
  revert a. induction l as [|b l IH]; intros a; simpl; [lia|].
  specialize (IH (Z.max a b)). lia.
Qed.

Lemma foldl_max_ge (l : list Z) (a x : Z) : x ∈ l → (x ≤ foldl Z.max a l)%Z.
Proof.
  revert a. induction l as [|b l IH]; intros a; simpl; [by intros ?%elem_of_nil|].
  intros [->|Hx]%elem_of_cons; [|by apply IH].
  pose proof (foldl_max_le l (Z.max a b)). lia.
Qed.

Section FanIn.
Context {F : Type}.
Implicit Types (cnt : gmap string Z) (id_map : list (string * task F)).

Lemma count_dep_nonneg cnt dep : nonneg cnt → nonneg (count_dep cnt dep).
Proof.
  unfold count_dep. intros Hc. destruct (cnt !! dep) as [n|] eqn:E; [|done].
  intros k v. rewrite lookup_insert. case_decide; [|by apply Hc].
  intros [= <-]. apply Hc in E. lia.
Qed.

Lemma count_dependents_nonneg id_map : nonneg (count_dependents id_map).
Proof.
  unfold count_dependents. apply foldl_inv.
  - intros cnt p Hc. apply foldl_inv; [|done]. intros. by apply count_dep_nonneg.
  - intros k v Hk. apply elem_of_list_to_map_2 in Hk.
    apply list_elem_of_fmap in Hk as (? & [= _ ->] & _). done.
Qed.

Lemma max_dependents_ge cnt k v : cnt !! k = Some v → (v ≤ max_dependents cnt)%Z.
Proof.
  intros Hk. unfold max_dependents.
  assert (v ∈ (map_to_list cnt).*2) as Hv.
  { apply list_elem_of_fmap. exists (k, v). split; [done|]. by apply elem_of_map_to_list. }
  destruct ((map_to_list cnt).*2) as [|x l]; [by apply elem_of_nil in Hv|].
  apply elem_of_cons in Hv as [->|Hv]; [apply foldl_max_le | by apply foldl_max_ge].
Qed.

End FanIn.

(** ** Results and tasks *)

Section Results.
Context {F : Type} `{PyFloat F}.
Variable L : PyLib F.
Implicit Types (t : task F) (task_list : list (task F)) (id_map : list (string * task F)).
Local Abbreviation result_for := (result_for L).

(** Every entry of [id_map] has its result in the output, and the output has
    nothing else. *)
Lemma score_all_results w today id_map flags results :
  score_all L w today id_map flags = Some results →
  Forall2 (result_for w today id_map flags) id_map results.
Proof. unfold score_all. apply mapM_Some_1. Qed.

Lemma score_all_ids w today id_map flags results :
  score_all L w today id_map flags = Some results → r_id <$> results = keys id_map.
Proof.
  intros Hs%score_all_results. unfold keys.
  induction Hs as [|p r id_map' results' Hr _ IH]; [done|].
  rewrite !fmap_cons, IH. f_equal.
  apply score_task_Some in Hr as (? & ? & ? & ? & _ & _ & _ & _ & ->). done.
Qed.

Lemma lacks_estimate_cleaned t : cleaned t → lacks_estimate t = false.
Proof. intros [_ _ [h Hh] _ _]. unfold lacks_estimate. by rewrite Hh. Qed.

End Results.

(** * The properties of the specification *)

Section Output.
Context {F : Type} `{PyFloat F}.
Variable L : PyLib F.
Implicit Types (t : task F) (task_list : list (task F)) (id_map : list (string * task F)).

Lemma Forall2_Forall_right {A B} (R : A → B → Prop) l k :
  Forall2 R l k → Forall (λ y, ∃ x, x ∈ l ∧ R x y) k.
Proof.
  induction 1 as [|x y l k HR _ IH]; constructor.
  - exists x. split; [left | done].
  - eapply Forall_impl; [exact IH|]. intros y' (x' & ? & ?). exists x'. split; [by right | done].
Qed.

Lemma Forall2_Forall_left {A B} (R : A → B → Prop) l k :
  Forall2 R l k → Forall (λ x, ∃ y, y ∈ k ∧ R x y) l.
Proof.
  induction 1 as [|x y l k HR _ IH]; constructor.
  - exists y. split; [left | done].
  - eapply Forall_impl; [exact IH|]. intros x' (y' & ? & ?). exists y'. split; [by right | done].
Qed.

(** The output, entry by entry. *)
Lemma compute_scores_entries task_list strategy weights today out :
  compute_scores L task_list strategy weights today = Some out →
  ∃ id_map cs flags,
    build_id_map L 0 task_list [] = Some id_map ∧
    detect_cycles id_map = Some (cs, flags) ∧
    Forall (λ p, cleaned p.2) id_map ∧
    Forall (λ r, ∃ p, p ∈ id_map ∧
                 result_for L (select_weights strategy weights) today id_map flags p r) out ∧
    Forall (λ p, ∃ r, r ∈ out ∧
                 result_for L (select_weights strategy weights) today id_map flags p r) id_map ∧
    ∃ results, r_id <$> results = keys id_map ∧ out = sort_desc results.
Proof.
  intros (id_map & cs & flags & results & Hb & Hd & Hs & ->)%compute_scores_Some.
  exists id_map, cs, flags. split; [done|]. split; [done|].
  split; [eapply build_id_map_cleaned; [|exact Hb]; constructor|].
  pose proof (score_all_results _ _ _ _ _ _ Hs) as H2.
  split; [|split].
  - rewrite sort_desc_perm. by apply Forall2_Forall_right.
  - eapply Forall_impl; [by apply (Forall2_Forall_left _ _ _ H2)|].
    intros p (r & Hr & ?). exists r. split; [|done]. by rewrite sort_desc_perm.
  - exists results. split; [by eapply score_all_ids | done].
Qed.

End Output.

(** ** Self-dependencies and unknown references *)

(** C8. A task that lists its own id among its dependencies is reported as
    the one-element cycle [{A}], and [in_cycle] maps [A] to [True]. *)
Theorem self_dependency_is_a_cycle {F : Type} (tasks : list (string * task F))
    (A : string) (t : task F) :
  dict_get tasks A = Some t → A ∈ deps_of t →
  ∃ cs flags, detect_cycles tasks = Some (cs, flags) ∧
              {[A]} ∈ cs ∧ flags !! A = Some true.
Proof.
  intros Ht Hdep. destruct (detect_cycles_total tasks) as [[cs flags] Hd].
  exists cs, flags. split; [done|]. by eapply detect_cycles_self.
Qed.

Lemma self_dependency_is_a_cycle_witness :
  ∃ cs flags,
    detect_cycles [("a", ({[ "dependencies" := VList [VStr "a"; VStr "b"] ]} : task Q))]
    = Some (cs, flags) ∧ {["a"]} ∈ cs ∧ flags !! "a" = Some true.
Proof.
  apply (self_dependency_is_a_cycle _ "a" {[ "dependencies" := VList [VStr "a"; VStr "b"] ]}).
  - reflexivity.
  - vm_compute. left.
Defined.

(** C9. A dependency on an id that is not in the task map adds no edge:
    [detect_cycles] returns for every task map, no recorded cycle has a
    member outside the map, and the result is the one obtained after
    removing every such reference. *)
Theorem unknown_dependencies_inert {F : Type} (tasks : list (string * task F)) :
  ∃ cs flags,
    detect_cycles tasks = Some (cs, flags) ∧
    Forall (λ c : gset string, ∀ k, k ∈ c → k ∈ keys tasks) cs ∧
    detect_cycles (without_unknown tasks) = Some (cs, flags).
Proof.
  destruct (detect_cycles_total tasks) as [[cs flags] Hd].
  exists cs, flags. split; [done|]. split; [by eapply detect_cycles_members|].
  by rewrite detect_cycles_without_unknown.
Qed.

(** ** Malformed fields *)

Section Absorbed.
Context {F : Type} `{PyFloat F}.
Variable L : PyLib F.
Implicit Types (t c : task F) (tasks : list (task F)).
Local Abbreviation unparsable := (unparsable L).
Local Abbreviation degraded := (degraded L).

Lemma parse_due_date_unparsable v : unparsable v → parse_due_date L v = VNone.
Proof.
  destruct v; simpl; try done.
  destruct (String.eqb s "") eqn:E; [done|].
  intros [-> | ->]; [|done]. by rewrite String.eqb_refl in E.
Qed.

Lemma clean_task_degraded i t tid c : clean_task L i t = Some (tid, c) → degraded t c.
Proof.
  unfold clean_task. intros Hc.
  destruct (py_iter _) as [deps|] eqn:Hd; [|done]. injection Hc as <- <-.
  split.
  - intros Hu. rewrite lookup_insert_ne, lookup_insert_eq by done.
    by rewrite parse_due_date_unparsable.
  - intros Hi. do 3 (rewrite lookup_insert_ne by done). rewrite lookup_insert_eq.
    unfold py_or. destruct (truthy (get t "importance")); [by rewrite Hi | done].
  - intros Hh. do 2 (rewrite lookup_insert_ne by done). rewrite lookup_insert_eq.
    destruct (is_none (get t "estimated_hours")); [done | by rewrite Hh].
  - intros Ht. rewrite lookup_insert_eq. unfold get in Hd. rewrite Ht in Hd.
    simpl in Hd. by injection Hd as <-.
Qed.

Lemma elem_of_issues_of flags tid t due x :
  x ∈ issues_of flags tid t due ↔
  (x = "circular_dependency" ∧ flagged flags tid = true) ∨
  (x = "no_due_date" ∧ is_none due = true) ∨
  (x = "no_estimated_hours" ∧ lacks_estimate t = true).
Proof.
  unfold issues_of.
  destruct (flagged flags tid), (is_none due), (lacks_estimate t);
    rewrite ?elem_of_app, ?elem_of_cons, ?elem_of_nil; intuition congruence.
Qed.

Lemma flagged_true flags tid : flagged flags tid = true ↔ flags !! tid = Some true.
Proof.
  unfold flagged. destruct (flags !! tid) as [[]|]; simpl; split; congruence.
Qed.

(** What the first loop does absorb. When every [dependencies] field can be
    iterated over (it is missing, [None], empty, or a list, string or
    dictionary), [compute_scores] returns a list whatever the other fields
    hold: each task is cleaned, a malformed field takes its default, and a
    missing date shows as [no_due_date]. *)
Theorem iterable_dependencies_absorb_the_rest tasks strategy weights today :
  Forall deps_ok tasks →
  ∃ out,
    compute_scores L tasks strategy weights today = Some out ∧
    (∀ i t, tasks !! i = Some t →
       ∃ c, clean_task L i t = Some (derive_id L i t, c) ∧ degraded t c) ∧
    Forall (λ r, r_raw r !! "due_date" = Some VNone ↔ "no_due_date" ∈ r_issues r) out.
Proof.
  intros Hok. destruct (compute_scores_total L tasks strategy weights today Hok) as [out Hc].
  exists out. split; [done|]. split.
  - intros i t Hi.
    destruct (clean_task_total L i t) as [[tid c] Ht].
    { eapply Forall_lookup_1; eauto. }
    exists c. pose proof (clean_task_id _ _ _ _ _ Ht) as ->.
    split; [done | by eapply clean_task_degraded].
  - destruct (compute_scores_entries _ _ _ _ _ _ Hc) as (id_map & cs & flags & _ & _ & _ & Hout & _).
    eapply Forall_impl; [exact Hout|]. intros r (p & _ & Hr).
    apply score_task_Some in Hr as (s & agg & due & title & _ & _ & Hdue & _ & ->).
    simpl. rewrite Hdue, elem_of_issues_of. destruct due; simpl; split;
      (intros; intuition congruence).
Qed.

Lemma clean_task_None i t : ¬ deps_ok t → clean_task L i t = None.
Proof.
  intros Hno. unfold clean_task.
  destruct (py_iter (py_or (get t "dependencies") (VList []))) as [deps|] eqn:E; [|done].
  destruct Hno. unfold deps_ok. unfold py_or in E.
  destruct (truthy (get t "dependencies")); [right; by rewrite E | by left].
Qed.

Lemma build_id_map_None i tasks acc t :
  t ∈ tasks → ¬ deps_ok t → build_id_map L i tasks acc = None.
Proof.
  intros Ht Hno. revert i acc. induction tasks as [|t' tasks IH]; intros i acc.
  - by apply elem_of_nil in Ht.
  - simpl. apply elem_of_cons in Ht as [<- | Ht].
    + by rewrite clean_task_None.
    + destruct (clean_task L i t') as [[tid c]|]; [by apply IH | done].
Qed.

(** C7 (the code at the failing inputs). The comprehension over
    [dependencies] is not guarded like the conversions next to it: a task
    whose [dependencies] is truthy and cannot be iterated over, a number for
    one, makes [compute_scores] raise, whatever the other tasks, the
    strategy, the weights and the date are. *)
Theorem unguarded_dependencies_raise tasks strategy weights today t :
  t ∈ tasks →
  truthy (get t "dependencies") = true → py_iter (get t "dependencies") = None →
  compute_scores L tasks strategy weights today = None.
Proof.
  intros Ht Htruthy Hiter. unfold compute_scores.
  rewrite (build_id_map_None 0 tasks [] t); [done | done |].
  intros [Hfalsy | [l Hl]]; congruence.
Qed.

End Absorbed.

Lemma iterable_dependencies_absorb_the_rest_witness :
  ∃ out,
    compute_scores (F:=Q) no_text_lib
      [ {[ "title" := VStr "Plan"; "due_date" := VStr "soon"; "importance" := VStr "high";
           "estimated_hours" := VList [] ]} ]
      "fastest" None 738000 = Some out ∧
    (∀ i t,
       [ ({[ "title" := VStr "Plan"; "due_date" := VStr "soon"; "importance" := VStr "high";
             "estimated_hours" := VList [] ]} : task Q) ] !! i = Some t →
       ∃ c, clean_task no_text_lib i t = Some (derive_id no_text_lib i t, c) ∧
            degraded no_text_lib t c) ∧
    Forall (λ r, r_raw r !! "due_date" = Some VNone ↔ "no_due_date" ∈ r_issues r) out.
Proof.
  apply (iterable_dependencies_absorb_the_rest no_text_lib).
  constructor; [left; reflexivity | constructor].
Defined.

Lemma unguarded_dependencies_raise_witness :
  compute_scores (F:=Q) no_text_lib
    [ {[ "title" := VStr "Plan" ]}; {[ "title" := VStr "t"; "dependencies" := VInt 5 ]} ]
    "smart_balance" None 738000 = None.
Proof.
  apply (unguarded_dependencies_raise no_text_lib _ _ _ _
           {[ "title" := VStr "t"; "dependencies" := VInt 5 ]}).
  - right. left.
  - reflexivity.
  - reflexivity.
Defined.

(** ** Issue flags and the cycle penalty *)

Section Flags.
Context {F : Type} `{PyFloat F}.
Variable L : PyLib F.
Implicit Types (t c : task F) (tasks : list (task F)).

(** The test behind [no_estimated_hours] reads the cleaned record, where the
    first loop has always stored a number: the flag is never raised. *)
Lemma no_estimated_hours_never_flagged tasks strategy weights today out :
  compute_scores L tasks strategy weights today = Some out →
  Forall (λ r, "no_estimated_hours" ∉ r_issues r) out.
Proof.
  intros (id_map & cs & flags & _ & _ & Hcl & Hout & _)%compute_scores_entries.
  eapply Forall_impl; [exact Hout|]. intros r (p & Hp & Hr).
  apply score_task_Some in Hr as (s & agg & due & title & _ & _ & _ & _ & ->).
  simpl. rewrite elem_of_issues_of.
  rewrite Forall_forall in Hcl. rewrite (lacks_estimate_cleaned p.2 (Hcl p Hp)).
  intuition congruence.
Qed.

(** C3. For every task of the id map, the score is the rounded weighted sum
    of its sub-scores, multiplied by 0.9 after the sum is formed exactly when
    [detect_cycles] flags the task, and [circular_dependency] is among its
    issues in that case and in no other. *)
Theorem cycle_penalty_after_aggregation tasks strategy weights today :
  Forall deps_ok tasks →
  ∃ out id_map cs flags,
    compute_scores L tasks strategy weights today = Some out ∧
    build_id_map L 0 tasks [] = Some id_map ∧
    detect_cycles id_map = Some (cs, flags) ∧
    Forall (λ p, ∃ r s agg,
      r ∈ out ∧ r_id r = p.1 ∧ r_raw r = p.2 ∧
      subscores_of L today (count_dependents id_map)
                   (max_dependents (count_dependents id_map)) p = Some s ∧
      aggregate (select_weights strategy weights) s = Some agg ∧
      (flags !! p.1 = Some true →
         r_score r = round4 (agg * lit 9 10)%F ∧ "circular_dependency" ∈ r_issues r) ∧
      (flags !! p.1 ≠ Some true →
         r_score r = round4 agg ∧ "circular_dependency" ∉ r_issues r)) id_map.
Proof.
  intros Hok. destruct (compute_scores_total L tasks strategy weights today Hok) as [out Hc].
  destruct (compute_scores_entries _ _ _ _ _ _ Hc)
    as (id_map & cs & flags & Hb & Hd & _ & _ & Hin & _).
  exists out, id_map, cs, flags. do 3 (split; [done|]).
  eapply Forall_impl; [exact Hin|]. intros p (r & Hr & Hs).
  apply score_task_Some in Hs as (s & agg & due & title & Hs & Ha & _ & _ & ->).
  eexists _, s, agg. split; [exact Hr|]. simpl. do 4 (split; [done|]).
  unfold penalized. rewrite elem_of_issues_of, <- flagged_true.
  destruct (flagged flags p.1); split; intros; intuition congruence.
Qed.

End Flags.

Lemma cycle_penalty_after_aggregation_witness :
  ∃ out id_map cs flags,
    compute_scores (F:=Q) no_text_lib
      [ {[ "id" := VStr "A"; "dependencies" := VList [VStr "B"] ]};
        {[ "id" := VStr "B"; "dependencies" := VList [VStr "A"] ]};
        {[ "id" := VStr "C" ]} ] "smart_balance" None 738000 = Some out ∧
    build_id_map (F:=Q) no_text_lib 0
      [ {[ "id" := VStr "A"; "dependencies" := VList [VStr "B"] ]};
        {[ "id" := VStr "B"; "dependencies" := VList [VStr "A"] ]};
        {[ "id" := VStr "C" ]} ] [] = Some id_map ∧
    detect_cycles id_map = Some (cs, flags) ∧
    Forall (λ p, ∃ r s agg,
      r ∈ out ∧ r_id r = p.1 ∧ r_raw r = p.2 ∧
      subscores_of no_text_lib 738000 (count_dependents id_map)
                   (max_dependents (count_dependents id_map)) p = Some s ∧
      aggregate (select_weights "smart_balance" None) s = Some agg ∧
      (flags !! p.1 = Some true →
         r_score r = round4 (agg * lit 9 10)%F ∧ "circular_dependency" ∈ r_issues r) ∧
      (flags !! p.1 ≠ Some true →
         r_score r = round4 agg ∧ "circular_dependency" ∉ r_issues r)) id_map.
Proof.
  apply (cycle_penalty_after_aggregation no_text_lib).
  apply Forall_cons_2; [right; eexists; reflexivity|].
  apply Forall_cons_2; [right; eexists; reflexivity|].
  apply Forall_cons_2; [left; reflexivity | apply Forall_nil_2].
Defined.

(** C2 (the code at the failing input). A task without [estimated_hours] and
    without [due_date] gets urgency 0 and the single issue [no_due_date]:
    [no_estimated_hours] is missing. *)
Theorem missing_estimate_not_flagged :
  ∃ r,
    compute_scores (F:=Q) no_text_lib [ {[ "title" := VStr "Write report" ]} ]
      "smart_balance" None 738000 = Some [r] ∧
    r_issues r = ["no_due_date"] ∧
    s_urgency (r_subscores r) = 0%Q.
Proof. eexists. split; [vm_compute; reflexivity|]. split; reflexivity. Qed.

(** ** Duplicate ids *)

Section Duplicates.
Context {F : Type} `{PyFloat F}.
Variable L : PyLib F.
Implicit Types (t c : task F) (tasks : list (task F)).

(** C10. The output has exactly one result for each distinct derived id: its
    ids are pairwise distinct and are the derived ids of the input, so its
    length is the number of distinct derived ids; and the record of a result
    is the cleaned form of the last input task that derives its id. *)
Theorem one_result_per_derived_id tasks strategy weights today :
  Forall deps_ok tasks →
  ∃ out,
    compute_scores L tasks strategy weights today = Some out ∧
    length out = length (remove_dups (derived_ids L tasks)) ∧
    NoDup (r_id <$> out) ∧
    (∀ k, k ∈ r_id <$> out ↔ k ∈ derived_ids L tasks) ∧
    Forall (λ r, ∃ i t,
      tasks !! i = Some t ∧ clean_task L i t = Some (r_id r, r_raw r) ∧
      ∀ j t', (i < j)%nat → tasks !! j = Some t' → derive_id L j t' ≠ r_id r) out.
Proof.
  intros Hok. destruct (compute_scores_total L tasks strategy weights today Hok) as [out Hc].
  exists out. split; [done|].
  destruct (compute_scores_entries _ _ _ _ _ _ Hc)
    as (id_map & cs & flags & Hb & _ & _ & Hout & _ & results & Hids & ->).
  assert (NoDup (keys id_map)) as Hnd.
  { eapply build_id_map_NoDup; [|exact Hb]. apply NoDup_nil_2. }
  assert (∀ k, k ∈ keys id_map ↔ k ∈ derived_ids L tasks) as Hk.
  { intros k. rewrite (build_id_map_keys _ _ _ _ _ Hb k).
    unfold keys at 1. simpl. rewrite elem_of_nil. unfold derived_ids. tauto. }
  assert (r_id <$> sort_desc results ≡ₚ keys id_map) as Hp.
  { by rewrite sort_desc_perm, Hids. }
  split; [|split; [|split]].
  - rewrite <- (length_fmap r_id), Hp. apply Permutation_length.
    apply NoDup_Permutation; [done | apply NoDup_remove_dups |].
    intros k. by rewrite elem_of_remove_dups.
  - by rewrite Hp.
  - intros k. by rewrite Hp.
  - eapply Forall_impl; [exact Hout|]. intros r (p & Hp' & Hr).
    apply score_task_Some in Hr as (s & agg & due & title & _ & _ & _ & _ & ->). simpl.
    destruct p as [k c]. simpl.
    pose proof (elem_of_dict_get _ _ _ Hnd Hp') as Hg.
    destruct (build_id_map_last _ _ _ _ _ _ _ Hb Hg) as [(j & t & Hj & Hcl & Hlast)|[? _]];
      [|done].
    exists j, t. done.
Qed.

End Duplicates.

Lemma one_result_per_derived_id_witness :
  ∃ out,
    compute_scores (F:=Q) no_text_lib
      [ {[ "id" := VStr "x"; "importance" := VInt 2 ]};
        {[ "title" := VStr "x"; "importance" := VInt 9 ]};
        {[ "importance" := VInt 4 ]} ] "smart_balance" None 738000 = Some out ∧
    length out =
      length (remove_dups (derived_ids (F:=Q) no_text_lib
        [ {[ "id" := VStr "x"; "importance" := VInt 2 ]};
          {[ "title" := VStr "x"; "importance" := VInt 9 ]};
          {[ "importance" := VInt 4 ]} ])) ∧
    NoDup (r_id <$> out) ∧
    (∀ k, k ∈ r_id <$> out ↔
          k ∈ derived_ids (F:=Q) no_text_lib
            [ {[ "id" := VStr "x"; "importance" := VInt 2 ]};
              {[ "title" := VStr "x"; "importance" := VInt 9 ]};
              {[ "importance" := VInt 4 ]} ]) ∧
    Forall (λ r, ∃ i t,
      [ ({[ "id" := VStr "x"; "importance" := VInt 2 ]} : task Q);
        {[ "title" := VStr "x"; "importance" := VInt 9 ]};
        {[ "importance" := VInt 4 ]} ] !! i = Some t ∧
      clean_task no_text_lib i t = Some (r_id r, r_raw r) ∧
      ∀ j t', (i < j)%nat →
        [ ({[ "id" := VStr "x"; "importance" := VInt 2 ]} : task Q);
          {[ "title" := VStr "x"; "importance" := VInt 9 ]};
          {[ "importance" := VInt 4 ]} ] !! j = Some t' →
        derive_id no_text_lib j t' ≠ r_id r) out.
Proof.
  apply (one_result_per_derived_id no_text_lib).
  repeat (apply Forall_cons_2; [left; reflexivity|]). apply Forall_nil_2.
Defined.

(** ** Ordering *)

Lemma sublist_filter_mono {A} (P : A → Prop) `{!∀ x, Decision (P x)} (l1 l2 : list A) :
  l1 `sublist_of` l2 → filter P l1 `sublist_of` filter P l2.
Proof.
  induction 1 as [|x l1 l2 _ IH|x l1 l2 _ IH]; rewrite ?filter_cons.
  - done.
  - destruct (decide (P x)); [by constructor | done].
  - destruct (decide (P x)); [by constructor | done].
Qed.

Section Ordering.
Context {F : Type} `{FloatOrder F}.
Local Set Default Proof Using "Type*".
Variable L : PyLib F.
Implicit Types tasks : list (task F).

(** C5 (amended). When no rounded score is NaN, the output is sorted by
    decreasing rounded score; and when moreover the derived ids are pairwise
    distinct, the results taken in input order (the list [results], whose
    ids are the derived ids in that order) keep their relative order
    wherever their scores tie: if [a] comes before [b] there and neither
    score is less than the other, [a] comes before [b] in the output. Proved
    for every float arithmetic with the order laws of [FloatOrder], exact
    arithmetic and binary64 among them. *)
Theorem sorted_descending_and_stable tasks strategy weights today :
  Forall deps_ok tasks →
  ∃ out,
    compute_scores L tasks strategy weights today = Some out ∧
    (Forall (λ r, comparable (r_score r)) out →
     StronglySorted not_below out ∧
     (NoDup (derived_ids L tasks) →
      ∃ results,
        r_id <$> results = derived_ids L tasks ∧ out ≡ₚ results ∧
        ∀ a b, [a; b] `sublist_of` results → same_score a b →
               [a; b] `sublist_of` out)).
Proof.
  intros Hok. destruct (compute_scores_total L tasks strategy weights today Hok) as [out Hc].
  exists out. split; [done|]. intros Hcmp.
  destruct (compute_scores_entries _ _ _ _ _ _ Hc)
    as (id_map & cs & flags & Hb & _ & _ & _ & _ & results & Hids & ->).
  rewrite sort_desc_perm in Hcmp.
  split; [by apply sort_desc_descending|]. intros Hnd.
  exists results. split; [|split; [apply sort_desc_perm|]].
  - rewrite Hids. apply (build_id_map_keys_NoDup L 0 tasks id_map []); [|done].
    by rewrite app_nil_l.
  - intros a b Hab Heq.
    assert (comparable (r_score a)) as Ha.
    { rewrite Forall_forall in Hcmp. apply Hcmp.
      eapply elem_of_sublist; [|exact Hab]. left. }
    apply (sublist_filter_mono (same_score a)) in Hab.
    rewrite !filter_cons, filter_nil in Hab.
    rewrite decide_True in Hab by (split; by apply flt_irrefl).
    rewrite decide_True in Hab by done.
    rewrite <- (sort_desc_ties a) in Hab by done.
    etrans; [exact Hab | apply sublist_filter].
Qed.

End Ordering.

Lemma sorted_descending_and_stable_witness :
  ∃ out,
    compute_scores (F:=float) no_text_lib tied_tasks "high_impact" None 738000 = Some out ∧
    (Forall (λ r, comparable (r_score r)) out →
     StronglySorted not_below out ∧
     (NoDup (derived_ids (F:=float) no_text_lib tied_tasks) →
      ∃ results,
        r_id <$> results = derived_ids (F:=float) no_text_lib tied_tasks ∧
        out ≡ₚ results ∧
        ∀ a b, [a; b] `sublist_of` results → same_score a b →
               [a; b] `sublist_of` out)).
Proof.
  apply (sorted_descending_and_stable no_text_lib).
  repeat (apply Forall_cons_2; [left; reflexivity|]). apply Forall_nil_2.
Defined.

(** In binary64 the three tied tasks come out with comparable scores, [b]
    first and [a] before [c]: no score is NaN and the tie keeps the input
    order. *)
Example tie_keeps_input_order_binary64 :
  ∃ out,
    compute_scores (F:=float) no_text_lib tied_tasks "high_impact" None 738000 = Some out ∧
    Forall (λ r, comparable (r_score r)) out ∧
    r_id <$> out = ["b"; "a"; "c"] ∧
    (∀ a c, out !! 1%nat = Some a → out !! 2%nat = Some c → same_score a c).
Proof.
  eexists. split; [vm_compute; reflexivity|]. split; [|split].
  - repeat (apply Forall_cons_2; [vm_compute; reflexivity|]). apply Forall_nil_2.
  - reflexivity.
  - intros a c [= <-] [= <-]. split; vm_compute; reflexivity.
Qed.

(** Without the condition on NaN the property fails in binary64, when a
    weight override is infinite: the task without due date has urgency 0
    and the score [inf * 0 = nan], the dated one has the score [inf];
    [nan < inf] is false, so the sort leaves [nan] before [inf], and
    [inf <= nan] is false too: the output is not in descending order. *)
Lemma sorted_descending_fails_on_nan :
  NoDup (derived_ids (F:=float) no_text_lib undated_then_dated) ∧
  ¬ ∃ out,
    compute_scores (F:=float) no_text_lib undated_then_dated "smart_balance"
      (Some {[ "urgency" := infinity ]}) 738000 = Some out ∧
    StronglySorted not_below out.
Proof.
  split.
  - vm_compute. repeat constructor; set_solver.
  - intros (out & Hc & Hs). vm_compute in Hc. injection Hc as <-.
    apply StronglySorted_inv in Hs as [_ Hall].
    apply Forall_cons in Hall as [Hle _]. vm_compute in Hle. discriminate Hle.
Qed.

(** The scores of that run. *)
Example nan_score_scenario :
  (λ r, (r_id r, r_score r)) <$> default []
    (compute_scores (F:=float) no_text_lib undated_then_dated "smart_balance"
       (Some {[ "urgency" := infinity ]}) 738000)
  = [ ("a", nan); ("b", infinity) ].
Proof. vm_compute. reflexivity. Qed.

(** ** Ranges *)

Section Ranges.
Variable L : PyLib Q.
Implicit Types (t : task Q) (tasks : list (task Q)).
Local Open Scope Q_scope.

Lemma urgency_of_date today t d :
  t !! "due_date" = Some (VDate d) →
  urgency_of today t
  = Some (if (d - today <? 0)%Z then urgency_past_due (d - today)
          else urgency_upcoming (d - today)).
Proof. unfold urgency_of. by intros ->. Qed.

Lemma urgency_of_range today t u : urgency_of today t = Some u → unit_interval u.
Proof.
  unfold urgency_of. destruct (t !! "due_date") as [[]|]; simpl; try done; intros [= <-].
  - unfold unit_interval. simpl. lra.
  - destruct (d - today <? 0)%Z eqn:E; [|apply urgency_upcoming_range].
    apply Z.ltb_lt in E. pose proof (urgency_past_due_range _ E). unfold unit_interval. lra.
Qed.

Lemma importance_of_range t i : importance_of L t = Some i → unit_interval i.
Proof.
  unfold importance_of. destruct (py_int L _) as [n|]; simpl; [|done].
  intros [= <-]. apply importance_range.
Qed.

Lemma effort_of_range t e : effort_of L t = Some e → unit_interval e.
Proof.
  unfold effort_of. destruct (py_float L _) as [h|]; simpl; [|done].
  intros [= <-]. apply effort_score_range.
Qed.

(** C4. Without weight overrides, whatever the strategy name, every task of
    the id map has its four sub-scores in [0,1] before rounding, a weighted
    sum in [0,1], and a final score (the sum after the cycle penalty, before
    rounding) that is in [0,1] and never above the sum. *)
Theorem scores_within_unit_interval tasks strategy today :
  Forall deps_ok tasks →
  ∃ out id_map cs flags,
    compute_scores L tasks strategy None today = Some out ∧
    build_id_map L 0 tasks [] = Some id_map ∧
    detect_cycles id_map = Some (cs, flags) ∧
    Forall (λ p, ∃ r s agg,
      r ∈ out ∧ r_id r = p.1 ∧
      subscores_of L today (count_dependents id_map)
                   (max_dependents (count_dependents id_map)) p = Some s ∧
      unit_interval (s_urgency s) ∧ unit_interval (s_importance s) ∧
      unit_interval (s_effort s) ∧ unit_interval (s_dependency s) ∧
      aggregate (select_weights strategy None) s = Some agg ∧
      unit_interval agg ∧
      unit_interval (penalized flags p.1 agg) ∧
      penalized flags p.1 agg <= agg ∧
      r_score r = round4 (penalized flags p.1 agg)) id_map.
Proof.
  intros Hok. destruct (compute_scores_total L tasks strategy None today Hok) as [out Hc].
  destruct (compute_scores_entries _ _ _ _ _ _ Hc)
    as (id_map & cs & flags & Hb & Hd & _ & _ & Hin & _).
  exists out, id_map, cs, flags. do 3 (split; [done|]).
  eapply Forall_impl; [exact Hin|]. intros p (r & Hr & Hs).
  apply score_task_Some in Hs as (s & agg & due & title & Hs & Ha & _ & _ & ->).
  eexists _, s, agg. split; [exact Hr|]. simpl. do 2 (split; [done|]).
  destruct (subscores_of_Some _ _ _ _ _ _ Hs) as (Hu & Hi & He & Hdep).
  assert (unit_interval (s_urgency s)) by (by eapply urgency_of_range).
  assert (unit_interval (s_importance s)) by (by eapply importance_of_range).
  assert (unit_interval (s_effort s)) by (by eapply effort_of_range).
  assert (unit_interval (s_dependency s)).
  { rewrite Hdep. apply dep_score_range. intros v Hv. split.
    - by eapply count_dependents_nonneg.
    - by eapply max_dependents_ge. }
  assert (unit_interval agg) as Hagg by (by eapply aggregate_range).
  destruct (penalized_range flags p.1 agg Hagg). done.
Qed.

(** C6. For a task due before the reference date, with [days] the negative
    difference: urgency is min(0.99, 0.9 + min(30, −days)/100); it is below 1;
    a task that is at least as much overdue has at least this urgency; and
    beyond 30 days overdue the value is the cap 0.99. *)
Theorem past_due_urgency_boost (today d : Z) (t : task Q) :
  t !! "due_date" = Some (VDate d) → (d - today < 0)%Z →
  ∃ u,
    urgency_of today t = Some u ∧
    u == Qmin (99 # 100) ((9 # 10) + inject_Z (Z.min 30 (- (d - today))) / 100) ∧
    u < 1 ∧
    (∀ d' t', t' !! "due_date" = Some (VDate d') → (d' ≤ d)%Z →
              ∃ u', urgency_of today t' = Some u' ∧ u <= u') ∧
    ((30 < - (d - today))%Z → u == 99 # 100).
Proof.
  intros Ht Hd. exists (urgency_past_due (d - today)).
  pose proof (proj2 (Z.ltb_lt _ _) Hd) as E.
  split; [by rewrite (urgency_of_date _ _ _ Ht), E|].
  split; [apply urgency_past_due_Qmin|].
  split; [pose proof (urgency_past_due_range _ Hd); lra|].
  split.
  - intros d' t' Ht' Hle. exists (urgency_past_due (d' - today)).
    assert ((d' - today <? 0)%Z = true) as E' by (apply Z.ltb_lt; lia).
    split; [by rewrite (urgency_of_date _ _ _ Ht'), E'|].
    apply urgency_past_due_mono. lia.
  - intros Hs. apply urgency_past_due_saturated. lia.
Qed.

End Ranges.

Lemma scores_within_unit_interval_witness :
  ∃ out id_map cs flags,
    compute_scores (F:=Q) no_text_lib
      [ {[ "id" := VStr "A"; "due_date" := VDate 737990; "dependencies" := VList [VStr "A"] ]};
        {[ "id" := VStr "B"; "estimated_hours" := VInt 40;
           "dependencies" := VList [VStr "A"] ]} ] "deadline" None 738000 = Some out ∧
    build_id_map (F:=Q) no_text_lib 0
      [ {[ "id" := VStr "A"; "due_date" := VDate 737990; "dependencies" := VList [VStr "A"] ]};
        {[ "id" := VStr "B"; "estimated_hours" := VInt 40;
           "dependencies" := VList [VStr "A"] ]} ] [] = Some id_map ∧
    detect_cycles id_map = Some (cs, flags) ∧
    Forall (λ p, ∃ r s agg,
      r ∈ out ∧ r_id r = p.1 ∧
      subscores_of no_text_lib 738000 (count_dependents id_map)
                   (max_dependents (count_dependents id_map)) p = Some s ∧
      unit_interval (s_urgency s) ∧ unit_interval (s_importance s) ∧
      unit_interval (s_effort s) ∧ unit_interval (s_dependency s) ∧
      aggregate (select_weights "deadline" None) s = Some agg ∧
      unit_interval agg ∧
      unit_interval (penalized flags p.1 agg) ∧
      (penalized flags p.1 agg <= agg)%Q ∧
      r_score r = round4 (penalized flags p.1 agg)) id_map.
Proof.
  apply (scores_within_unit_interval no_text_lib).
  repeat (apply Forall_cons_2; [right; eexists; reflexivity|]). apply Forall_nil_2.
Defined.

Lemma past_due_urgency_boost_witness :
  ∃ u,
    urgency_of 738000 ({[ "due_date" := VDate 737995 ]} : task Q) = Some u ∧
    (u == Qmin (99 # 100) ((9 # 10) + inject_Z (Z.min 30 (- (737995 - 738000))) / 100))%Q ∧
    (u < 1)%Q ∧
    (∀ d' (t' : task Q), t' !! "due_date" = Some (VDate d') → (d' ≤ 737995)%Z →
              ∃ u', urgency_of 738000 t' = Some u' ∧ (u <= u')%Q) ∧
    ((30 < - (737995 - 738000))%Z → (u == 99 # 100)%Q).
Proof.
  apply (past_due_urgency_boost 738000 737995); [reflexivity | lia].
Defined.

(** ** The overdue boost in binary64 *)

(** The boost for each of the thirty values [min(30, −days)] can take is
    below 1.0 and no larger than the boost for any larger value. *)
Lemma overdue_steps_binary64 :
  forallb (λ m,
    PrimFloat.ltb (urgency_past_due (- m)) (lit 1 1) &&
    forallb (λ m', implb (m <=? m')%Z
                     (PrimFloat.leb (urgency_past_due (- m)) (urgency_past_due (- m'))))
            (seqZ 1 30))
    (seqZ 1 30) = true.
Proof. vm_compute. reflexivity. Qed.

Lemma urgency_past_due_step_binary64 (days : Z) :
  urgency_past_due (F:=float) days = urgency_past_due (- Z.min 30 (- days)).
Proof.
  unfold urgency_past_due.
  replace (Z.min 30 (- - Z.min 30 (- days))) with (Z.min 30 (- days)) by lia.
  reflexivity.
Qed.

(** With the interpreter's floats too, the boost of an overdue task is below
    1.0, does not decrease as the task gets more overdue, and is the cap 0.99
    beyond 30 days. *)
Lemma past_due_urgency_binary64 (days days' : Z) :
  (days' ≤ days < 0)%Z →
  PrimFloat.leb (urgency_past_due days) (urgency_past_due days') = true ∧
  PrimFloat.ltb (urgency_past_due days) (lit 1 1) = true ∧
  ((days < -30)%Z → urgency_past_due (F:=float) days = lit 99 100).
Proof.
  intros Hd.
  rewrite (urgency_past_due_step_binary64 days), (urgency_past_due_step_binary64 days').
  pose proof overdue_steps_binary64 as Hall. rewrite forallb_forall in Hall.
  assert (∀ m, (1 ≤ m ≤ 30)%Z → In m (seqZ 1 30)) as Hin.
  { intros m Hm. apply list_elem_of_In, elem_of_seqZ. lia. }
  assert (1 ≤ Z.min 30 (- days) ≤ 30)%Z as Hm by lia.
  assert (1 ≤ Z.min 30 (- days') ≤ 30)%Z as Hm' by lia.
  specialize (Hall _ (Hin _ Hm)).
  apply andb_prop in Hall as [Hlt Hle]. rewrite forallb_forall in Hle.
  specialize (Hle _ (Hin _ Hm')).
  split; [|split; [exact Hlt|]].
  - rewrite (proj2 (Z.leb_le _ _)) in Hle by lia. exact Hle.
  - intros Hs. replace (Z.min 30 (- days)) with 30%Z by lia. vm_compute. reflexivity.
Qed.

(** ** The overdue scenario *)

Lemma compute_scores_stages {F : Type} `{PyFloat F} (L : PyLib F) tasks strategy weights
    today id_map cs flags results :
  build_id_map L 0 tasks [] = Some id_map →
  detect_cycles id_map = Some (cs, flags) →
  score_all L (select_weights strategy weights) today id_map flags = Some results →
  compute_scores L tasks strategy weights today = Some (sort_desc results).
Proof.
  intros Hb Hd Hs. unfold compute_scores.
  rewrite Hb. simpl. rewrite Hd. simpl. rewrite Hs. done.
Qed.

(** C1, as the code has it. Under [deadline] the scenario yields the rounded
    sub-scores 0.95, 0.8, 1.0 and 0.0, and the final score
    0.7·0.95 + 0.15·0.8 + 0.1·1.0 + 0.05·0 = 0.885. *)
Theorem overdue_scenario_scores (L : PyLib Q) (today : Z) :
  ∃ r,
    compute_scores L [overdue_task today] "deadline" None today = Some [r] ∧
    (s_urgency (r_subscores r) == 95 # 100)%Q ∧
    (s_importance (r_subscores r) == 8 # 10)%Q ∧
    (s_effort (r_subscores r) == 1)%Q ∧
    (s_dependency (r_subscores r) == 0)%Q ∧
    (r_score r == 8850 # 10000)%Q.
Proof.
  set (c := ({[ "id" := VStr "task-0"; "title" := VStr "Untitled 0";
                "importance" := VInt 8; "estimated_hours" := VFloat (1 # 2);
                "due_date" := VDate (today - 5); "dependencies" := VList [] ]} : task Q)).
  assert (urgency_of today c = Some (urgency_past_due (-5))) as Hu.
  { rewrite (urgency_of_date today c (today - 5)) by reflexivity.
    replace (today - 5 - today)%Z with (-5)%Z by lia. reflexivity. }
  assert (∃ r,
    score_all L (select_weights "deadline" None) today [("task-0", c)]
              {[ "task-0" := false ]} = Some [r] ∧
    (s_urgency (r_subscores r) == 95 # 100)%Q ∧
    (s_importance (r_subscores r) == 8 # 10)%Q ∧
    (s_effort (r_subscores r) == 1)%Q ∧
    (s_dependency (r_subscores r) == 0)%Q ∧
    (r_score r == 8850 # 10000)%Q) as (r & Hs & Hr).
  { eexists. split.
    - unfold score_all. apply mapM_Some_2. apply Forall2_cons_2; [|constructor].
      unfold score_task, subscores_of. cbn [fst snd]. rewrite Hu.
      vm_compute. reflexivity.
    - vm_compute. repeat split; reflexivity. }
  exists r. split; [|exact Hr].
  apply (compute_scores_stages L _ _ _ _ [("task-0", c)] [] {[ "task-0" := false ]} [r]);
    [vm_compute; reflexivity | vm_compute; reflexivity | exact Hs].
Qed.

(** The value 0.8050 the specification gives for the scenario is not what
    [compute_scores] returns. *)
Lemma overdue_scenario_not_0805 :
  ¬ ∃ r,
    compute_scores (F:=Q) no_text_lib [overdue_task 738000] "deadline" None 738000
    = Some [r] ∧
    (s_urgency (r_subscores r) == 95 # 100)%Q ∧
    (s_importance (r_subscores r) == 8 # 10)%Q ∧
    (s_effort (r_subscores r) == 1)%Q ∧
    (s_dependency (r_subscores r) == 0)%Q ∧
    (r_score r == 8050 # 10000)%Q.
Proof.
  intros (r & Hr & _ & _ & _ & _ & Hs).
  vm_compute in Hr. injection Hr as <-. vm_compute in Hs. discriminate Hs.
Qed.

(** The same scenario in binary64 arithmetic: the interpreter's floats give
    the same rounded figures, 0.95, 0.8, 1.0, 0.0 and 0.885. *)
Example overdue_scenario_binary64 :
  ∃ r,
    compute_scores (F:=float) no_text_lib [overdue_task 738000] "deadline" None 738000
    = Some [r] ∧
    r_subscores r = {| s_urgency := lit 95 100; s_importance := lit 8 10;
                       s_effort := lit 1 1; s_dependency := lit 0 1 |} ∧
    r_score r = lit 885 1000 ∧
    r_score r ≠ lit 805 1000.
Proof.
  eexists. split; [vm_compute; reflexivity|].
  split; [vm_compute; reflexivity|]. split; [vm_compute; reflexivity|].
  vm_compute. intros E. discriminate E.
Qed.

(** ** Further scenarios *)

(** The ring under [smart_balance]: each task is flagged and scores
    0.4005 = 801/2000, which is 0.9 times its weighted sum 0.445 (no date,
    importance 5, four hours, one dependent each); the same figures come out
    in binary64. *)
Example ring_scenario :
  (λ r, (r_id r, r_score r, r_issues r)) <$>
    default [] (compute_scores (F:=Q) no_text_lib ring "smart_balance" None 738000)
  = [ ("A", 801 # 2000, ["circular_dependency"; "no_due_date"]);
      ("B", 801 # 2000, ["circular_dependency"; "no_due_date"]);
      ("C", 801 # 2000, ["circular_dependency"; "no_due_date"]) ]%Q.
Proof. vm_compute. reflexivity. Qed.

Example ring_scenario_binary64 :
  (λ r, (r_id r, r_score r, r_issues r)) <$>
    default [] (compute_scores (F:=float) no_text_lib ring "smart_balance" None 738000)
  = [ ("A", lit 4005 10000, ["circular_dependency"; "no_due_date"]);
      ("B", lit 4005 10000, ["circular_dependency"; "no_due_date"]);
      ("C", lit 4005 10000, ["circular_dependency"; "no_due_date"]) ].
Proof. vm_compute. reflexivity. Qed.

(** Equal scores keep the input order: [a] and [c] tie and stay in that
    order behind [b]. *)
Example tie_keeps_input_order :
  r_id <$> default []
    (compute_scores (F:=Q) no_text_lib
       [ {[ "id" := VStr "a"; "importance" := VInt 3 ]};
         {[ "id" := VStr "b"; "importance" := VInt 7 ]};
         {[ "id" := VStr "c"; "importance" := VInt 3 ]} ] "high_impact" None 738000)
  = ["b"; "a"; "c"].
Proof. vm_compute. reflexivity. Qed.

(** A later task with the id of an earlier one replaces its record and keeps
    its place. *)
Example duplicate_id_scenario :
  (λ r, (r_id r, r_title r, r_raw r !! "importance")) <$> default []
    (compute_scores (F:=Q) no_text_lib
       [ {[ "id" := VStr "x"; "importance" := VInt 2 ]};
         {[ "importance" := VInt 4 ]};
         {[ "title" := VStr "x"; "importance" := VInt 9 ]} ] "smart_balance" None 738000)
  = [ ("x", VStr "x", Some (VInt 9)); ("task-1", VStr "Untitled 1", Some (VInt 4)) ].
Proof. vm_compute. reflexivity. Qed.

(** A [dependencies] field that cannot be iterated over is the one malformed
    field that is not absorbed: the comprehension over it raises. *)
Example scalar_dependencies_raise :
  compute_scores (F:=Q) no_text_lib [ {[ "title" := VStr "t"; "dependencies" := VInt 5 ]} ]
    "smart_balance" None 738000 = None.
Proof. vm_compute. reflexivity. Qed.

(** A text is iterated over by code point, not by byte. *)
Example chars_of_accented_text : chars "née" = ["n"; "é"; "e"].
Proof. reflexivity. Qed.

(** In binary64 the weights of each built-in strategy add up to exactly 1.0,
    so a task with all four sub-scores at 1.0 has the weighted sum 1.0. *)
Example weights_sum_binary64 :
  Forall (λ strategy,
    aggregate (F:=float) (select_weights strategy None)
      {| s_urgency := lit 1 1; s_importance := lit 1 1;
         s_effort := lit 1 1; s_dependency := lit 1 1 |} = Some (lit 1 1))
    ["smart_balance"; "fastest"; "high_impact"; "deadline"; "bogus"].
Proof. repeat (apply Forall_cons_2; [vm_compute; reflexivity|]). apply Forall_nil_2. Qed.

(** * Further properties of the code *)

(** ** Loops with a result for each element *)

Lemma for_each_post {A S} (step : A → S → option S) (P : S → Prop) (T : A → S → Prop)
    l st st' :
  (∀ x s s', x ∈ l → P s → step x s = Some s' → P s' ∧ T x s') →
  (∀ x y s s', y ∈ l → P s → T x s → step y s = Some s' → T x s') →
  P st → for_each step l st = Some st' → P st' ∧ ∀ x, x ∈ l → T x st'.
Proof.
  revert st. induction l as [|y l IH]; intros st Hstep Hkeep HP; simpl.
  - intros [= <-]. split; [done|]. intros x Hx. by apply elem_of_nil in Hx.
  - destruct (step y st) as [s1|] eqn:E; [|done]. intros Hl.
    destruct (Hstep y st s1 ltac:(left) HP E) as [HP1 HT1].
    assert (P st' ∧ ∀ x, x ∈ l → T x st') as [HP' HT'].
    { apply (IH s1); [| |done|done].
      - intros x s s' Hx. apply Hstep. by right.
      - intros x z s s' Hz. apply Hkeep. by right. }
    split; [done|]. intros x [-> | Hx]%elem_of_cons; [|by apply HT'].
    clear IH HT'. revert s1 E HP1 HT1 Hl.
    assert (∀ l' s1, (∀ z, z ∈ l' → z ∈ y :: l) → P s1 → T y s1 →
              for_each step l' s1 = Some st' → T y st') as Hgo.
    { induction l' as [|z l' IH']; intros s1 Hsub HP1 HT1; simpl.
      - by intros [= <-].
      - destruct (step z s1) as [s2|] eqn:E2; [|done]. intros Hl'.
        apply (IH' s2); [| | |done].
        + intros z' Hz'. apply Hsub. by right.
        + apply (Hstep z s1 s2); [apply Hsub; left | done | done].
        + apply (Hkeep y z s1 s2); [apply Hsub; left | done | done | done]. }
    intros s1 _ HP1 HT1 Hl. apply (Hgo l s1); [|done|done|done].
    intros z Hz. by right.
Qed.

Section Chains.
Variable graph : list (string * list string).
Local Abbreviation edge := (edge graph).
Local Abbreviation chain := (chain graph).
Local Abbreviation on_cycle := (on_cycle graph).

Lemma chain_cons a l : chain (a :: l) → chain l.
Proof. destruct l as [|b l]; simpl; [done | tauto]. Qed.

Lemma chain_snoc l x :
  chain l → (∀ a, last l = Some a → edge a x) → chain (l ++ [x]).
Proof.
  induction l as [|a l IH]; [done|]. intros Hc Hl.
  destruct l as [|b l].
  - simpl. split; [by apply Hl | done].
  - destruct Hc as [Hab Hc]. change ((a :: b :: l) ++ [x]) with (a :: ((b :: l) ++ [x])).
    change (chain (a :: (b :: l) ++ [x])) with (edge a b ∧ chain ((b :: l) ++ [x])).
    split; [done|]. apply IH; [done|]. intros a' Ha'. apply Hl. exact Ha'.
Qed.

Lemma chain_drop n l : chain l → chain (drop n l).
Proof.
  revert l. induction n as [|n IH]; intros l Hc; [by rewrite drop_0|].
  destruct l as [|a l]; [done|]. simpl. apply IH. by eapply chain_cons.
Qed.

Lemma chain_from_head a l y : chain (a :: l) → y ∈ a :: l → rtc edge a y.
Proof.
  revert a. induction l as [|b l IH]; intros a Hc.
  - intros ->%list_elem_of_singleton. done.
  - intros [-> | Hy]%elem_of_cons; [done|]. destruct Hc as [Hab Hc].
    eapply rtc_l; [exact Hab|]. by apply IH.
Qed.

Lemma chain_to_last l z y : chain l → last l = Some z → y ∈ l → rtc edge y z.
Proof.
  induction l as [|a l IH]; [done|]. intros Hc Hl.
  intros [-> | Hy]%elem_of_cons.
  - apply (chain_from_head a l); [done|]. 
    apply list_elem_of_lookup. exists (length l). 
    rewrite last_lookup in Hl. simpl in Hl. done.
  - destruct l as [|b l]; [by apply elem_of_nil in Hy|].
    apply IH; [by eapply chain_cons | by rewrite last_cons_cons in Hl | done].
Qed.

Lemma drop_index_of node (l : list string) :
  node ∈ l → ∃ l', drop (index_of node l) l = node :: l'.
Proof.
  induction l as [|x l IH]; [by intros ?%elem_of_nil|]. simpl.
  destruct (decide (x = node)) as [-> | Hne]; [eauto|].
  intros [? | Hin]%elem_of_cons; [congruence|]. simpl. auto.
Qed.

Lemma last_drop_index_of node (l : list string) :
  node ∈ l → last (drop (index_of node l) l) = last l.
Proof.
  induction l as [|x l IH]; [done|]. simpl.
  destruct (decide (x = node)) as [-> | Hne]; [done|].
  intros [? | Hin]%elem_of_cons; [congruence|]. simpl. rewrite IH by done.
  destruct l; [by apply elem_of_nil in Hin | done].
Qed.

(** The nodes of a path that ends with an edge back to its first node all
    lie on a cycle. *)
Lemma closed_chain_on_cycle node l z y :
  chain (node :: l) → last (node :: l) = Some z → edge z node →
  y ∈ node :: l → on_cycle y.
Proof.
  intros Hc Hl Hz Hy. unfold on_cycle.
  eapply tc_rtc_l; [by eapply chain_to_last|].
  eapply tc_rtc_r; [by apply tc_once|]. by eapply chain_from_head.
Qed.

End Chains.

Lemma flag_all_is_Some (m : gmap string bool) l k :
  is_Some (foldl (λ m n, <[n := true]> m) m l !! k) ↔ k ∈ l ∨ is_Some (m !! k).
Proof.
  revert m. induction l as [|x l IH]; intros m; simpl.
  - rewrite elem_of_nil. tauto.
  - rewrite IH, elem_of_cons, lookup_insert_is_Some. 
    destruct (decide (x = k)); intuition (subst; auto).
Qed.

Section Deep.
Variable graph : list (string * list string).
Local Abbreviation edge := (edge graph).
Local Abbreviation chain := (chain graph).
Local Abbreviation on_cycle := (on_cycle graph).
Local Abbreviation deep_inv := (deep_inv graph).
Local Abbreviation dfs_inv := (dfs_inv graph).
Local Abbreviation linked := (linked graph).

Lemma edge_known a b : edge a b → a ∈ keys graph ∧ b ∈ keys graph.
Proof. intros (nbs & Ha & _ & Hb). split; [by eapply dict_get_Some_keys | done]. Qed.

Lemma on_cycle_known a : on_cycle a → a ∈ keys graph.
Proof. intros Hc. apply tc_rtc_r with (z := a) in Hc; [|done]. 
  inversion Hc as [? ? He|? ? ? He _]; by apply edge_known in He as [? _]. Qed.

(** From a finished node only finished nodes are reached. *)
Lemma closed_reach st v w :
  (∀ v w, visited st !! v = Some 2%nat → edge v w → visited st !! w = Some 2%nat) →
  visited st !! v = Some 2%nat → rtc edge v w → visited st !! w = Some 2%nat.
Proof. intros Hcl Hv Hr. induction Hr as [|x y z Hxy _ IH]; [done|]. apply IH. by eapply Hcl. Qed.

Lemma record_cycle_deep node st :
  dfs_inv st → deep_inv st → linked st node → node ∈ keys graph → node ∈ stack st →
  deep_inv (record_cycle node st).
Proof.
  intros Hinv [Hch Hm Hf Hd Hs Hcl Hac] Hl Hk Hin.
  destruct (drop_index_of node (stack st) Hin) as [l' Hdrop].
  assert (∀ k, k ∈ node :: l' → k ∈ stack st) as Hsub.
  { intros k Hk'. rewrite <- Hdrop in Hk'. eapply elem_of_sublist; [done | apply sublist_drop]. }
  split; simpl; rewrite ?Hdrop.
  - done.
  - done.
  - intros k. rewrite flag_all_lookup, Hf. split.
    + intros [Hk' | (c & Hc & Hkc)].
      * exists (list_to_set (node :: l')). split; [|by apply elem_of_list_to_set].
        apply elem_of_app. right. left.
      * exists c. split; [|done]. apply elem_of_app. by left.
    + intros (c & [Hc | Hc]%elem_of_app & Hkc); [right; eauto|].
      apply list_elem_of_singleton in Hc as ->. left. by apply elem_of_list_to_set in Hkc.
  - intros k. rewrite flag_all_is_Some, Hd. split; [|tauto].
    intros [Hk' | ?]; [|done]. eapply inv_nodes; [exact Hinv | by apply Hsub].
  - apply Forall_app. split; [done|]. apply Forall_singleton. split.
    + intros He. assert (node ∈ (∅ : gset string)) as Hn; [|by apply not_elem_of_empty in Hn].
      rewrite <- He. apply elem_of_list_to_set. left.
    + intros k Hk'%elem_of_list_to_set.
      assert (∃ z, last (stack st) = Some z) as [z Hz].
      { destruct (last (stack st)) eqn:E; [eauto|]. apply last_None in E. rewrite E in Hin.
        by apply elem_of_nil in Hin. }
      destruct (Hl z Hz) as (nbs & Hg & Hnb).
      apply (closed_chain_on_cycle graph node l' z).
      * rewrite <- Hdrop. by apply chain_drop.
      * rewrite <- Hdrop, last_drop_index_of; done.
      * by exists nbs.
      * done.
  - intros He. by apply app_nil in He as [_ ?].
  - intros He. by apply app_nil in He as [_ ?].
Qed.

Lemma enter_deep node st :
  dfs_inv st → deep_inv st → linked st node → dict_get graph node ≠ None →
  visited st !! node = None → deep_inv (enter node st).
Proof.
  intros Hinv [Hch Hm Hf Hd Hs Hcl Hac] Hl Hg Hnone.
  assert (node ∈ keys graph) as Hk.
  { apply dict_get_is_Some. by apply not_eq_None_Some. }
  split; simpl; try done.
  - apply chain_snoc; [done|]. intros a Ha. destruct (Hl a Ha) as (nbs & ? & ?). by exists nbs.
  - intros k. rewrite lookup_insert, elem_of_app, list_elem_of_singleton.
    case_decide; [auto | intros; left; auto].
  - intros He v w. rewrite !lookup_insert. case_decide; [done|].
    intros Hv Hvw. case_decide as Hw; [|by eapply Hcl].
    subst w. specialize (Hcl He v node Hv Hvw). congruence.
  - intros He v. rewrite lookup_insert. case_decide; [done | by apply Hac].
Qed.

(** A call of [dfs] keeps the deeper invariant; and if no cycle has been
    recorded when it returns, its node is finished. *)
Lemma dfs_deep fuel node st st' :
  dfs_inv st → deep_inv st → linked st node → dfs graph fuel node st = Some st' →
  deep_inv st' ∧
  (cycles st' = [] → node ∈ keys graph → visited st' !! node = Some 2%nat).
Proof.
  revert node st st'. induction fuel as [|fuel IH]; intros node st st' Hinv Hdeep Hl; simpl; [done|].
  destruct (dict_get graph node) as [nbs|] eqn:Hg.
  2:{ intros [= <-]. split; [done|]. intros _ Hin. by apply dict_get_None in Hg. }
  assert (node ∈ keys graph) as Hk by (by eapply dict_get_Some_keys).
  destruct (decide (visited st !! node = Some 1%nat)) as [H1|H1].
  { intros [= <-]. pose proof (di_marks _ _ Hdeep _ H1) as Hin.
    rewrite decide_True by done. split; [by apply record_cycle_deep|].
    simpl. intros He. by apply app_nil in He as [_ ?]. }
  destruct (decide (visited st !! node = Some 2%nat)) as [H2|H2].
  { intros [= <-]. split; done. }
  destruct (for_each _ nbs (enter node st)) as [st2|] eqn:Hloop; [|done].
  intros [= <-].
  pose proof (unmarked _ _ _ Hinv H1 H2) as Hnone.
  pose proof (enter_inv _ _ _ Hinv Hk) as Hinv1.
  assert (deep_inv (enter node st)) as Hdeep1.
  { apply enter_deep; try done. by rewrite Hg. }
  set (P := λ s, dfs_inv s ∧ dfs_ext (enter node st) s ∧ deep_inv s).
  set (T := λ (w : string) (s : dfs_state),
         cycles s = [] → w ∈ keys graph → visited s !! w = Some 2%nat).
  destruct (for_each_post (dfs graph fuel) P T nbs (enter node st) st2)
    as [(Hinv2 & Hext2 & Hdeep2) HT]; [| | |done|].
  { intros x s s' Hx (Hi & He & Hd) Hs.
    destruct (dfs_sound _ _ _ _ _ Hi Hs) as (He' & Hi' & _).
    destruct (IH x s s' Hi Hd) as [Hd' Hpost]; [|done|].
    { intros a Ha. rewrite (ext_stack _ _ He) in Ha. simpl in Ha.
      rewrite last_snoc in Ha. injection Ha as <-. eauto. }
    split; [|exact Hpost]. split; [done|]. split; [by eapply dfs_ext_trans | done]. }
  { intros x y s s' Hy (Hi & He & Hd) HTx Hs He' Hx.
    destruct (dfs_sound _ _ _ _ _ Hi Hs) as ([_ Hv Hc _] & _ & _).
    apply Hv. apply HTx; [|done]. destruct Hc as [new Hc]. rewrite He' in Hc.
    symmetry in Hc. by apply app_nil in Hc as [? _]. }
  { done. }
  assert (visited st2 !! node = Some 1%nat) as Hn1.
  { apply (ext_visited _ _ Hext2). simpl. apply lookup_insert_eq. }
  assert (stack st2 = stack st ++ [node]) as Hst2 by apply (ext_stack _ _ Hext2).
  destruct Hdeep as [Hch Hm Hf Hd Hs Hcl Hac].
  destruct Hdeep2 as [Hch2 Hm2 Hf2 Hd2 Hs2 Hcl2 Hac2].
  assert (∀ w, cycles st2 = [] → edge node w → w ≠ node ∧ visited st2 !! w = Some 2%nat) as Hsucc.
  { intros w He (nbs' & Hg' & Hw & Hwk). assert (nbs' = nbs) as -> by congruence.
    pose proof (HT w Hw He Hwk) as Hw2. split; [|done]. intros ->. congruence. }
  split; [split|]; simpl.
  - rewrite Hst2, removelast_last. done.
  - intros k. rewrite lookup_insert. case_decide; [done|]. intros Hk1.
    apply Hm2 in Hk1. rewrite Hst2 in *. rewrite removelast_last.
    apply elem_of_app in Hk1 as [? | ->%list_elem_of_singleton]; done.
  - done.
  - done.
  - done.
  - intros He v w. rewrite !lookup_insert. case_decide as Hv.
    + subst v. intros _ Hvw. destruct (Hsucc w He Hvw) as [Hne Hw2].
      by rewrite decide_False.
    + intros Hv2 Hvw. case_decide; [done|]. by eapply Hcl2.
  - intros He v. rewrite lookup_insert. case_decide as Hv; [|by apply Hac2].
    subst v. intros _ Hcyc. unfold on_cycle in Hcyc.
    inversion Hcyc as [? ? Hstep | ? w ? Hstep Hrest]; subst.
    + destruct (Hsucc node He Hstep) as [? _]. done.
    + destruct (Hsucc w He Hstep) as [_ Hw2].
      pose proof (closed_reach st2 w node (Hcl2 He) Hw2 (tc_rtc _ _ Hrest)). congruence.
  - intros _ _. apply lookup_insert_eq.
Qed.

End Deep.

Section DeepDetect.
Context {F : Type}.
Implicit Types tasks : list (string * task F).

Lemma dfs_init_deep tasks : deep_inv (graph_of tasks) (dfs_init tasks).
Proof.
  split; simpl; try done.
  - intros k. split.
    + intros Hk%elem_of_list_to_map_2. by apply list_elem_of_fmap in Hk as (? & [= _ ?] & _).
    + intros (c & Hc & _). by apply elem_of_nil in Hc.
  - intros k. rewrite keys_graph_of. split.
    + intros [b Hk%elem_of_list_to_map_2].
      by apply list_elem_of_fmap in Hk as (? & [= -> _] & ?).
    + intros Hk. apply not_eq_None_Some. intros Hn%not_elem_of_list_to_map_2.
      apply Hn. rewrite <- list_fmap_compose. simpl.
      by rewrite list_fmap_id.
Qed.

Lemma dfs_root_deep graph fuel n st st' :
  at_root graph st → deep_inv graph st → dfs_root graph fuel n st = Some st' →
  deep_inv graph st' ∧
  (cycles st' = [] → n ∈ keys graph → visited st' !! n = Some 2%nat).
Proof.
  intros [Hinv Hs] Hdeep. unfold dfs_root. rewrite restart_stack by done.
  destruct (visited st !! n) as [v|] eqn:E.
  - intros [= <-]. split; [done|]. intros _ _.
    destruct (inv_marks _ _ Hinv _ _ E) as [-> | ->]; [|done].
    apply (di_marks _ _ Hdeep) in E. rewrite Hs in E. by apply elem_of_nil in E.
  - apply dfs_deep; [done | done |]. intros a Ha. by rewrite Hs in Ha.
Qed.

(** The state after the loop over the roots. *)
Lemma roots_deep tasks st :
  for_each (dfs_root (graph_of tasks) (S (length (graph_of tasks))))
           (keys (graph_of tasks)) (dfs_init tasks) = Some st →
  deep_inv (graph_of tasks) st ∧
  (cycles st = [] → ∀ k, k ∈ keys (graph_of tasks) → visited st !! k = Some 2%nat).
Proof.
  intros Hloop. set (graph := graph_of tasks) in *.
  destruct (for_each_post (dfs_root graph (S (length graph)))
              (λ s, at_root graph s ∧ deep_inv graph s)
              (λ k s, cycles s = [] → k ∈ keys graph → visited s !! k = Some 2%nat)
              (keys graph) (dfs_init tasks) st) as [[_ Hd] HT]; [| | |done|].
  - intros n s s' _ [Hr Hd] Hs.
    destruct (dfs_root_sound _ _ _ _ _ Hr Hs) as (_ & Hr' & _).
    destruct (dfs_root_deep _ _ _ _ _ Hr Hd Hs) as [Hd' Hp]. done.
  - intros x y s s' _ [Hr Hd] HTx Hs He Hx.
    destruct (dfs_root_sound _ _ _ _ _ Hr Hs) as ([_ Hv Hc _] & _ & _).
    apply Hv. apply HTx; [|done]. destruct Hc as [new Hc]. rewrite He in Hc.
    symmetry in Hc. by apply app_nil in Hc as [? _].
  - split; [apply dfs_init_at_root | apply dfs_init_deep].
  - split; [done|]. intros He k Hk. by apply HT.
Qed.

End DeepDetect.

(** ** What [detect_cycles] reports *)

(** X1. Every task [detect_cycles] flags lies on a dependency cycle: it reaches
    itself through one or more edges between tasks of the map. Every set in
    the returned list is non-empty and made of such tasks only. *)
Theorem flagged_tasks_lie_on_cycles {F : Type} (tasks : list (string * task F)) :
  ∃ cs flags,
    detect_cycles tasks = Some (cs, flags) ∧
    (∀ k, flags !! k = Some true → on_cycle (graph_of tasks) k) ∧
    Forall (λ c : gset string, c ≠ ∅ ∧ ∀ k, k ∈ c → on_cycle (graph_of tasks) k) cs.
Proof.
  destruct (detect_cycles_total tasks) as [[cs flags] Hd]. exists cs, flags.
  split; [done|]. apply detect_cycles_Some in Hd as (st & Hloop & -> & ->).
  destruct (roots_deep _ _ Hloop) as [[_ _ Hf _ Hs _ _] _]. split; [|done].
  intros k (c & Hc & Hk)%Hf. rewrite Forall_forall in Hs. by apply (Hs c Hc).
Qed.

(** X2. The two results of [detect_cycles] agree: a task is flagged exactly when
    it belongs to one of the returned sets; and the flag map has an entry,
    true or false, for each task id and for nothing else. *)
Theorem flags_match_cycle_sets {F : Type} (tasks : list (string * task F)) :
  ∃ cs flags,
    detect_cycles tasks = Some (cs, flags) ∧
    ∀ k, (flags !! k = Some true ↔ ∃ c, c ∈ cs ∧ k ∈ c) ∧
         (is_Some (flags !! k) ↔ k ∈ keys tasks).
Proof.
  destruct (detect_cycles_total tasks) as [[cs flags] Hd]. exists cs, flags.
  split; [done|]. apply detect_cycles_Some in Hd as (st & Hloop & -> & ->).
  destruct (roots_deep _ _ Hloop) as [[_ _ Hf Hdom _ _ _] _].
  intros k. split; [apply Hf|]. rewrite <- keys_graph_of. apply Hdom.
Qed.

(** X3. [detect_cycles] returns no set exactly when the graph has no cycle at
    all, and this is also exactly when no task is flagged: a cyclic batch is
    never reported as clean. *)
Theorem no_cycle_recorded_iff_acyclic {F : Type} (tasks : list (string * task F)) :
  ∃ cs flags,
    detect_cycles tasks = Some (cs, flags) ∧
    (cs = [] ↔ ∀ k, ¬ on_cycle (graph_of tasks) k) ∧
    ((∀ k, flags !! k ≠ Some true) ↔ ∀ k, ¬ on_cycle (graph_of tasks) k).
Proof.
  destruct (detect_cycles_total tasks) as [[cs flags] Hd]. exists cs, flags.
  split; [done|]. apply detect_cycles_Some in Hd as (st & Hloop & -> & ->).
  destruct (roots_deep _ _ Hloop) as [[_ _ Hf _ Hs _ Hac] Hdone].
  assert (cycles st = [] ↔ ∀ k, ¬ on_cycle (graph_of tasks) k) as Hiff.
  { split.
    - intros He k Hk. apply (Hac He k); [|done]. apply Hdone; [done|].
      by apply on_cycle_known.
    - intros Hno. destruct (cycles st) as [|c cs] eqn:E; [done|].
      apply Forall_cons in Hs as [[Hne Hc] _].
      destruct (set_choose_L c Hne) as [k Hk]. destruct (Hno k). by apply Hc. }
  split; [done|]. rewrite <- Hiff. split.
  - intros Hnf. destruct (cycles st) as [|c cs] eqn:E; [done|].
    apply Forall_cons in Hs as [[Hne _] _]. destruct (set_choose_L c Hne) as [k Hk].
    destruct (Hnf k). apply Hf. exists c. split; [left | done].
  - intros He k (c & Hc & _)%Hf. rewrite He in Hc. by apply elem_of_nil in Hc.
Qed.

Ltac to_rationals :=
  cbn [fadd fsub fmul fdiv lit of_int fzero Q_float] in *;
  repeat match goal with
  | |- context [inject_Z ?z] =>
      let x := fresh "x" in set (x := inject_Z z) in *; clearbody x
  | H : context [inject_Z ?z] |- _ =>
      let x := fresh "x" in set (x := inject_Z z) in *; clearbody x
  end;
  unfold Qdiv in *; cbn [Qinv Qnum Qden] in *.

Ltac split_comparisons :=
  repeat match goal with
  | |- context [flt ?a ?b] =>
      let E := fresh "E" in
      destruct (flt a b) eqn:E; [apply flt_exact in E | apply flt_exact_false in E]
  | |- context [fle ?a ?b] =>
      let E := fresh "E" in
      destruct (fle a b) eqn:E; [apply fle_exact in E | apply fle_exact_false in E]
  | _ : context [flt ?a ?b] |- _ =>
      let E := fresh "E" in
      destruct (flt a b) eqn:E; [apply flt_exact in E | apply flt_exact_false in E]
  | _ : context [fle ?a ?b] |- _ =>
      let E := fresh "E" in
      destruct (fle a b) eqn:E; [apply fle_exact in E | apply fle_exact_false in E]
  end.

(** ** Strategy names *)

Section Strategies.
Context {F : Type} `{PyFloat F}.
Variable L : PyLib F.

(** X4. A strategy name outside the four built-in ones is scored exactly as
    [smart_balance], with or without weight overrides. *)
Theorem unknown_strategy_is_smart_balance (tasks : list (task F)) strategy weights today :
  strategy ∉ ["smart_balance"; "fastest"; "high_impact"; "deadline"] →
  compute_scores L tasks strategy weights today
  = compute_scores L tasks "smart_balance" weights today.
Proof.
  intros Hs.
  assert (base_weights (F:=F) !! strategy = None) as Hnone.
  { unfold base_weights. rewrite !lookup_insert_ne, lookup_singleton_ne; [done|..];
      intros <-; apply Hs; set_solver. }
  assert (base_weights (F:=F) !! "smart_balance" = Some smart_balance) as Hsmart
    by apply lookup_insert_eq.
  unfold compute_scores, select_weights. by rewrite Hnone, Hsmart.
Qed.

End Strategies.

Lemma unknown_strategy_is_smart_balance_witness :
  compute_scores (F:=Q) no_text_lib [overdue_task 738000] "bogus" None 738000
  = compute_scores (F:=Q) no_text_lib [overdue_task 738000] "smart_balance" None 738000.
Proof.
  apply unknown_strategy_is_smart_balance.
  apply (bool_decide_unpack _). vm_compute. exact I.
Defined.

(** ** Sub-scores in exact arithmetic *)

Section SubScores.
Variable L : PyLib Q.
Implicit Types (t c : task Q).
Local Open Scope Q_scope.

Lemma urgency_upcoming_value days :
  (0 ≤ days)%Z →
  ((days ≤ 30)%Z → urgency_upcoming days == 1 - inject_Z days / 30) ∧
  ((30 ≤ days)%Z → urgency_upcoming days == 0).
Proof.
  intros Hd. split; intros Hle.
  - pose proof (inject_Z_between 0 30 days ltac:(lia)) as Hm.
    unfold urgency_upcoming, py_min, py_max. split_comparisons; to_rationals; lra.
  - pose proof (inject_Z_between 30 days days ltac:(lia)) as [Hm _].
    pose proof (inject_Z_between 0 days days ltac:(lia)) as [Hm' _].
    unfold urgency_upcoming, py_min, py_max. split_comparisons; to_rationals; lra.
Qed.

Lemma urgency_upcoming_mono days days' :
  (days ≤ days')%Z → urgency_upcoming days' <= urgency_upcoming days.
Proof.
  intros Hd. assert (inject_Z days <= inject_Z days') as H1 by (by rewrite <- Zle_Qle).
  unfold urgency_upcoming, py_min, py_max. split_comparisons; to_rationals; lra.
Qed.

(** X5. For a task due today or later, urgency is 1 − days/30 up to 30 days
    ahead and 0 from 30 days on, and a task due later is never more urgent. *)
Theorem upcoming_urgency_decay (today d : Z) (t : task Q) :
  t !! "due_date" = Some (VDate d) → (today ≤ d)%Z →
  ∃ u,
    urgency_of today t = Some u ∧
    ((d - today ≤ 30)%Z → u == 1 - inject_Z (d - today) / 30) ∧
    ((30 ≤ d - today)%Z → u == 0) ∧
    (∀ d' t', t' !! "due_date" = Some (VDate d') → (d ≤ d')%Z →
              ∃ u', urgency_of today t' = Some u' ∧ u' <= u).
Proof.
  intros Ht Hd. exists (urgency_upcoming (d - today)).
  assert ((d - today <? 0)%Z = false) as E by (apply Z.ltb_ge; lia).
  split; [by rewrite (urgency_of_date _ _ _ Ht), E|].
  destruct (urgency_upcoming_value (d - today)) as [H1 H2]; [lia|].
  split; [done|]. split; [done|].
  intros d' t' Ht' Hle. exists (urgency_upcoming (d' - today)).
  assert ((d' - today <? 0)%Z = false) as E' by (apply Z.ltb_ge; lia).
  split; [by rewrite (urgency_of_date _ _ _ Ht'), E'|].
  apply urgency_upcoming_mono. lia.
Qed.

(** X6. Urgency drops when the due date passes: a task due today has urgency
    exactly 1, while every overdue task has an urgency between 0.91 and
    0.99, strictly below it. *)
Theorem overdue_is_less_urgent_than_due_today (today d : Z) (t t0 : task Q) :
  t !! "due_date" = Some (VDate d) → (d < today)%Z →
  t0 !! "due_date" = Some (VDate today) →
  ∃ u u0,
    urgency_of today t = Some u ∧ urgency_of today t0 = Some u0 ∧
    u0 == 1 ∧ 91 # 100 <= u ∧ u <= 99 # 100 ∧ u < u0.
Proof.
  intros Ht Hd Ht0.
  exists (urgency_past_due (d - today)), (urgency_upcoming (today - today)).
  assert ((d - today <? 0)%Z = true) as E by (apply Z.ltb_lt; lia).
  assert ((today - today <? 0)%Z = false) as E0 by (apply Z.ltb_ge; lia).
  split; [by rewrite (urgency_of_date _ _ _ Ht), E|].
  split; [by rewrite (urgency_of_date _ _ _ Ht0), E0|].
  assert (urgency_upcoming (today - today) == 1) as H0.
  { rewrite Z.sub_diag. vm_compute. reflexivity. }
  assert (91 # 100 <= urgency_past_due (d - today) <= 99 # 100) as [? ?].
  { pose proof (inject_Z_between 1 30 (Z.min 30 (- (d - today))) ltac:(lia)) as Hm.
    unfold urgency_past_due, py_min. split_comparisons; to_rationals; lra. }
  repeat split; try done. rewrite H0. lra.
Qed.

Lemma effort_score_mono h h' : h <= h' → effort_score h' <= effort_score h.
Proof.
  intros Hh. unfold effort_score. split_comparisons; to_rationals; lra.
Qed.

Lemma effort_of_hours t h :
  t !! "estimated_hours" = Some (VFloat h) →
  effort_of L t = Some (effort_score (py_max (lit 1 10) (if Qeq_bool h 0 then 4 else h))).
Proof.
  intros Ht. unfold effort_of, get, py_or. rewrite Ht. simpl.
  destruct (Qeq_bool h 0); reflexivity.
Qed.

(** X7. For positive hours the effort sub-score is 1 up to one hour, 0 from
    sixteen hours on and 1 − (h − 1)/15 in between, and more hours never
    give a higher sub-score. *)
Theorem effort_decreases_with_hours (t t' : task Q) (h h' : Q) :
  t !! "estimated_hours" = Some (VFloat h) →
  t' !! "estimated_hours" = Some (VFloat h') →
  0 < h → h <= h' →
  ∃ e e',
    effort_of L t = Some e ∧ effort_of L t' = Some e' ∧ e' <= e ∧
    (h <= 1 → e == 1) ∧ (16 <= h → e == 0) ∧
    (1 <= h <= 16 → e == 1 - (h - 1) / 15).
Proof.
  intros Ht Ht' H0 Hle.
  assert (Qeq_bool h 0 = false) as E.
  { apply not_true_iff_false. intros ?%Qeq_bool_iff. lra. }
  assert (Qeq_bool h' 0 = false) as E'.
  { apply not_true_iff_false. intros ?%Qeq_bool_iff. lra. }
  eexists _, _. rewrite (effort_of_hours _ _ Ht), (effort_of_hours _ _ Ht'), E, E'.
  split; [done|]. split; [done|]. split.
  - apply effort_score_mono. unfold py_max. split_comparisons; to_rationals; lra.
  - unfold effort_score, py_max. repeat split; intros; split_comparisons; to_rationals; lra.
Qed.

(** X8. An estimate of zero hours is falsy and is scored as the default four
    hours, effort 0.8; a negative estimate is raised to 0.1 hours, effort 1. *)
Theorem zero_hours_count_as_default (t : task Q) (h : Q) :
  t !! "estimated_hours" = Some (VFloat h) → h <= 0 →
  ∃ e, effort_of L t = Some e ∧ (h == 0 → e == 4 # 5) ∧ (h < 0 → e == 1).
Proof.
  intros Ht Hh. eexists. rewrite (effort_of_hours _ _ Ht). split; [done|]. split.
  - intros E. rewrite (proj2 (Qeq_bool_iff h 0) E). vm_compute. reflexivity.
  - intros Hneg. assert (Qeq_bool h 0 = false) as ->.
    { apply not_true_iff_false. intros ?%Qeq_bool_iff. lra. }
    unfold effort_score, py_max. split_comparisons; to_rationals; lra.
Qed.

End SubScores.

Lemma upcoming_urgency_decay_witness :
  ∃ u,
    urgency_of 738000 ({[ "due_date" := VDate 738012 ]} : task Q) = Some u ∧
    ((738012 - 738000 ≤ 30)%Z → (u == 1 - inject_Z (738012 - 738000) / 30)%Q) ∧
    ((30 ≤ 738012 - 738000)%Z → (u == 0)%Q) ∧
    (∀ d' (t' : task Q), t' !! "due_date" = Some (VDate d') → (738012 ≤ d')%Z →
              ∃ u', urgency_of 738000 t' = Some u' ∧ (u' <= u)%Q).
Proof.
  apply (upcoming_urgency_decay 738000 738012); [reflexivity | lia].
Defined.

Lemma overdue_is_less_urgent_than_due_today_witness :
  ∃ u u0,
    urgency_of 738000 ({[ "due_date" := VDate 737999 ]} : task Q) = Some u ∧
    urgency_of 738000 ({[ "due_date" := VDate 738000 ]} : task Q) = Some u0 ∧
    (u0 == 1)%Q ∧ (91 # 100 <= u)%Q ∧ (u <= 99 # 100)%Q ∧ (u < u0)%Q.
Proof.
  apply (overdue_is_less_urgent_than_due_today 738000 737999);
    [reflexivity | lia | reflexivity].
Defined.

Lemma effort_decreases_with_hours_witness :
  ∃ e e',
    effort_of (F:=Q) no_text_lib {[ "estimated_hours" := VFloat (2 # 1) ]} = Some e ∧
    effort_of (F:=Q) no_text_lib {[ "estimated_hours" := VFloat (8 # 1) ]} = Some e' ∧
    (e' <= e)%Q ∧
    ((2 # 1 <= 1)%Q → (e == 1)%Q) ∧ ((16 <= 2 # 1)%Q → (e == 0)%Q) ∧
    ((1 <= 2 # 1 <= 16)%Q → (e == 1 - ((2 # 1) - 1) / 15)%Q).
Proof.
  apply (effort_decreases_with_hours no_text_lib _ _ (2 # 1)%Q (8 # 1)%Q);
    [reflexivity | reflexivity | reflexivity | by vm_compute].
Defined.

Lemma zero_hours_count_as_default_witness :
  ∃ e,
    effort_of (F:=Q) no_text_lib {[ "estimated_hours" := VFloat (0 # 1) ]} = Some e ∧
    ((0 # 1 == 0)%Q → (e == 4 # 5)%Q) ∧ ((0 # 1 < 0)%Q → (e == 1)%Q).
Proof.
  apply (zero_hours_count_as_default no_text_lib _ (0 # 1)%Q);
    [reflexivity | by vm_compute].
Defined.

(** ** What the first loop stores *)

Section Stored.
Context {F : Type} `{PyFloat F}.
Variable L : PyLib F.
Implicit Types (t c : task F) (tasks : list (task F)).

Lemma clean_task_fields i t tid c :
  clean_task L i t = Some (tid, c) →
  c !! "id" = Some (VStr tid) ∧
  c !! "title" = Some (py_or (get t "title") (VStr ("Untitled " +:+ pretty i))) ∧
  c !! "importance"
  = Some (VInt (default 5 (py_int L (py_or (get t "importance") (VInt 5))))).
Proof.
  unfold clean_task. destruct (py_iter _) as [deps|]; simpl; [|done].
  intros [= <- <-]. repeat split.
  - by rewrite !lookup_insert_ne, lookup_insert_eq by done.
  - by rewrite !lookup_insert_ne, lookup_insert_eq by done.
  - by rewrite !lookup_insert_ne, lookup_insert_eq by done.
Qed.

Lemma truthy_text (s : string) : s ≠ "" → truthy (F:=F) (VStr s) = true.
Proof.
  intros Hs. simpl. apply negb_true_iff, not_true_iff_false.
  by intros ?%String.eqb_eq.
Qed.

Lemma truthy_py_or (a b : pyval F) : truthy b = true → truthy (py_or a b) = true.
Proof. intros Hb. unfold py_or. by destruct (truthy a) eqn:E. Qed.

(** Every entry of the id map is the cleaned form of some input task. *)
Lemma build_id_map_entry tasks id_map p :
  build_id_map L 0 tasks [] = Some id_map → p ∈ id_map →
  ∃ i t, tasks !! i = Some t ∧ clean_task L i t = Some (p.1, p.2).
Proof.
  intros Hb Hp.
  assert (dict_get id_map p.1 = Some p.2) as Hg.
  { apply elem_of_dict_get.
    - eapply build_id_map_NoDup; [|exact Hb]. apply NoDup_nil_2.
    - by destruct p. }
  destruct (build_id_map_last L _ _ _ _ _ _ Hb Hg) as [(j & t & Hj & Hc & _) | [Hn _]].
  - by exists j, t.
  - done.
Qed.

End Stored.

(** ** Importance *)

Section Importance.
Variable L : PyLib Q.
Implicit Types (t c : task Q).
Local Open Scope Q_scope.

(** X9. A raw importance of 0 is falsy and becomes the default 5, so it scores
    0.5, above the 0.1 of any other value up to 1; between 1 and 10 the
    sub-score is n/10, and from 10 on it is 1. *)
Theorem importance_zero_takes_default (i : nat) (t c : task Q) (tid : string) (n : Z) :
  clean_task L i t = Some (tid, c) → t !! "importance" = Some (VInt n) →
  ∃ v,
    importance_of L c = Some v ∧
    (n = 0%Z → v == 1 # 2) ∧
    (n ≠ 0%Z → (n ≤ 1)%Z → v == 1 # 10) ∧
    ((1 ≤ n ≤ 10)%Z → v == inject_Z n / 10) ∧
    ((10 ≤ n)%Z → v == 1).
Proof.
  intros (_ & _ & Hi)%clean_task_fields Ht.
  unfold importance_of. rewrite Hi. unfold get, py_or. rewrite Ht. simpl.
  eexists. split; [reflexivity|].
  destruct (n =? 0)%Z eqn:E; simpl.
  - apply Z.eqb_eq in E as ->. repeat split; intros; try lia; vm_compute; reflexivity.
  - apply Z.eqb_neq in E. repeat split; intros.
    + done.
    + replace (Z.max 1 (Z.min 10 n)) with 1%Z by lia. vm_compute. reflexivity.
    + replace (Z.max 1 (Z.min 10 n)) with n by lia. reflexivity.
    + replace (Z.max 1 (Z.min 10 n)) with 10%Z by lia. vm_compute. reflexivity.
Qed.

End Importance.

Lemma importance_zero_takes_default_witness :
  ∃ v,
    importance_of (F:=Q) no_text_lib
      (<["dependencies" := VList []]> (<["due_date" := VNone]>
         (<["estimated_hours" := VFloat (4 # 1)]> (<["importance" := VInt 5]>
            (<["title" := VStr "Untitled 0"]> (<["id" := VStr "task-0"]>
               {[ "importance" := VInt 0 ]})))))) = Some v ∧
    (0%Z = 0%Z → (v == 1 # 2)%Q) ∧
    (0%Z ≠ 0%Z → (0 ≤ 1)%Z → (v == 1 # 10)%Q) ∧
    ((1 ≤ 0 ≤ 10)%Z → (v == inject_Z 0 / 10)%Q) ∧
    ((10 ≤ 0)%Z → (v == 1)%Q).
Proof.
  apply (importance_zero_takes_default no_text_lib 0 {[ "importance" := VInt 0 ]} _ "task-0");
    [reflexivity | reflexivity].
Defined.

(** ** Fan-in *)

Section FanIn.
Context {F : Type}.
Implicit Types (id_map : list (string * task F)) (cnt : gmap string Z).

Lemma count_dep_lookup cnt dep k :
  count_dep cnt dep !! k = (λ n, if decide (dep = k) then n + 1 else n) <$> cnt !! k.
Proof.
  unfold count_dep. destruct (decide (dep = k)) as [-> | Hne].
  - destruct (cnt !! k) as [n|] eqn:E; simpl.
    + by rewrite lookup_insert_eq.
    + by rewrite E.
  - destruct (cnt !! dep) as [n|] eqn:E.
    + rewrite lookup_insert_ne by done. by destruct (cnt !! k).
    + by destruct (cnt !! k).
Qed.

Lemma foldl_count_dep_lookup deps cnt k :
  foldl count_dep cnt deps !! k
  = (λ n, n + Z.of_nat (length (filter (λ d, d = k) deps))) <$> cnt !! k.
Proof.
  revert cnt. induction deps as [|d deps IH]; intros cnt; simpl.
  - destruct (cnt !! k); simpl; [f_equal; lia | done].
  - rewrite IH, count_dep_lookup, filter_cons.
    destruct (cnt !! k) as [n|]; simpl; [|done]. f_equal.
    destruct (decide (d = k)); simpl; lia.
Qed.

Lemma count_loop_lookup id_map cnt k :
  foldl (λ cnt p, foldl count_dep cnt (deps_of p.2)) cnt id_map !! k
  = (λ n, n + fan_in id_map k) <$> cnt !! k.
Proof.
  revert cnt. unfold fan_in. induction id_map as [|p l IH]; intros cnt.
  - simpl. destruct (cnt !! k); simpl; [f_equal; lia | done].
  - cbn [foldl fmap list_fmap concat].
    rewrite IH, foldl_count_dep_lookup, filter_app, length_app, Nat2Z.inj_add.
    destruct (cnt !! k) as [n|]; [|done].
    cbn [fmap option_fmap option_map]. f_equal. lia.
Qed.

Lemma zero_counts_lookup (l : list string) k :
  (list_to_map ((λ tid, (tid, 0)) <$> l) : gmap string Z) !! k
  = if decide (k ∈ l) then Some 0 else None.
Proof.
  destruct (decide (k ∈ l)) as [Hk | Hk].
  - destruct (list_to_map ((λ tid, (tid, 0)) <$> l) !! k) as [v|] eqn:E.
    + apply elem_of_list_to_map_2 in E.
      by apply list_elem_of_fmap in E as (? & [= _ ->] & _).
    + apply not_elem_of_list_to_map_2 in E. destruct E.
      rewrite <- list_fmap_compose. simpl. by rewrite list_fmap_id.
  - apply not_elem_of_list_to_map_1. rewrite <- list_fmap_compose. simpl.
    by rewrite list_fmap_id.
Qed.

Lemma count_dependents_lookup id_map k :
  count_dependents id_map !! k
  = if decide (k ∈ keys id_map) then Some (fan_in id_map k) else None.
Proof.
  unfold count_dependents. rewrite count_loop_lookup, zero_counts_lookup.
  destruct (decide (k ∈ keys id_map)); [|done].
  cbn [fmap option_fmap option_map]. by rewrite Z.add_0_l.
Qed.

(** X10. The count [compute_scores] keeps for a task id is the number of times
    the id is listed in the [dependencies] of the tasks of the map, repeated
    and self listings included; ids outside the map get no count. *)
Theorem fan_in_counts_every_listing id_map k :
  (k ∈ keys id_map → count_dependents id_map !! k = Some (fan_in id_map k)) ∧
  (k ∉ keys id_map → count_dependents id_map !! k = None) ∧
  ∀ p, fan_in (p :: id_map) k
       = (Z.of_nat (length (filter (λ d, d = k) (deps_of p.2))) + fan_in id_map k)%Z.
Proof.
  rewrite count_dependents_lookup. split; [|split].
  - intros Hk. by rewrite decide_True.
  - intros Hk. by rewrite decide_False.
  - intros p. unfold fan_in. cbn [fmap list_fmap concat].
    rewrite filter_app, length_app. lia.
Qed.

Lemma foldl_max_elem (l : list Z) (a : Z) : foldl Z.max a l ∈ a :: l.
Proof.
  revert a. induction l as [|x l IH]; intros a; simpl; [left|].
  pose proof (IH (Z.max a x)) as Hm. apply elem_of_cons in Hm as [Hm | Hm].
  - rewrite Hm. destruct (Z.max_spec a x) as [[_ ->] | [_ ->]]; [right; left | left].
  - right. by right.
Qed.

(** A non-empty count map holds its maximum. *)
Lemma max_dependents_attained cnt :
  cnt ≠ ∅ → ∃ k, cnt !! k = Some (max_dependents cnt).
Proof.
  intros Hne.
  assert (max_dependents cnt ∈ (map_to_list cnt).*2) as Hin.
  { unfold max_dependents. destruct ((map_to_list cnt).*2) as [|v vs] eqn:E.
    - apply fmap_nil_inv in E. by apply map_to_list_empty_iff in E.
    - apply foldl_max_elem. }
  apply list_elem_of_fmap in Hin as ([k' v'] & Hv & Hin). simpl in Hv.
  exists k'. rewrite Hv. by apply elem_of_map_to_list.
Qed.

End FanIn.

(** ** Rounding to four decimals *)

Section Rounding.
Local Open Scope Q_scope.

Lemma Qround_half_even_comp (x y : Q) :
  x == y → Qround_half_even x = Qround_half_even y.
Proof.
  intros E. unfold Qround_half_even. rewrite (Qfloor_comp _ _ E).
  assert ((x - inject_Z (Qfloor y) ?= 1 # 2) = (y - inject_Z (Qfloor y) ?= 1 # 2)) as ->;
    [|done].
  apply Qcompare_comp; [by rewrite E | reflexivity].
Qed.

Lemma Qround4_comp (x y : Q) : x == y → Qround4 x = Qround4 y.
Proof.
  intros E. unfold Qround4. rewrite (Qround_half_even_comp (x * 10000) (y * 10000)); [done|].
  by rewrite E.
Qed.

Lemma Qround_half_even_Z (n : Z) : Qround_half_even (inject_Z n) = n.
Proof.
  unfold Qround_half_even. rewrite Qfloor_Z.
  assert ((inject_Z n - inject_Z n ?= 1 # 2) = Lt) as ->; [|done].
  rewrite <- Qlt_alt. generalize (inject_Z n). intros q. lra.
Qed.

Lemma Qround_half_even_between (a b : Z) (y : Q) :
  inject_Z a <= y <= inject_Z b → (a ≤ Qround_half_even y ≤ b)%Z.
Proof.
  intros [Ha Hb].
  pose proof (Qfloor_resp_le _ _ Ha) as Hfa. rewrite Qfloor_Z in Hfa.
  pose proof (Qfloor_resp_le _ _ Hb) as Hfb. rewrite Qfloor_Z in Hfb.
  unfold Qround_half_even.
  destruct (y - inject_Z (Qfloor y) ?= 1 # 2) eqn:E.
  - destruct (Z.even (Qfloor y)); [lia|].
    rewrite <- Qeq_alt in E. split; [lia|].
    destruct (decide (Qfloor y = b)) as [Hf|]; [|lia].
    rewrite Hf in E. revert E Hb. generalize (inject_Z b). intros q ? ?. lra.
  - lia.
  - rewrite <- Qgt_alt in E. split; [lia|].
    destruct (decide (Qfloor y = b)) as [Hf|]; [|lia].
    rewrite Hf in E. revert E Hb. generalize (inject_Z b). intros q ? ?. lra.
Qed.

Lemma Qround4_grid (x : Q) : Qround4 x == Qround_half_even (x * 10000) # 10000.
Proof. apply Qred_correct. Qed.

Lemma Qround4_range (x : Q) : unit_interval x → unit_interval (Qround4 x).
Proof.
  intros [H0 H1]. unfold unit_interval. rewrite Qround4_grid.
  destruct (Qround_half_even_between 0 10000 (x * 10000)) as [Hl Hu].
  { change (inject_Z 0) with 0. change (inject_Z 10000) with (10000 # 1). lra. }
  unfold Qle. simpl. lia.
Qed.

Lemma Qround4_0 : Qround4 0 = 0.
Proof. vm_compute. reflexivity. Qed.

Lemma Qround4_1 (x : Q) : x == 1 → Qround4 x == 1.
Proof. intros E. rewrite (Qround4_comp _ _ E). vm_compute. reflexivity. Qed.

End Rounding.

(** ** What the results report *)

Section Reported.
Variable L : PyLib Q.
Implicit Types (tasks : list (task Q)) (r : result Q).
Local Open Scope Q_scope.

Lemma result_for_ranges strategy today id_map flags p r :
  result_for L (select_weights strategy None) today id_map flags p r →
  unit_interval (r_score r) ∧
  unit_interval (s_urgency (r_subscores r)) ∧
  unit_interval (s_importance (r_subscores r)) ∧
  unit_interval (s_effort (r_subscores r)) ∧
  unit_interval (s_dependency (r_subscores r)).
Proof.
  intros (s & agg & due & title & Hs & Ha & _ & _ & ->)%score_task_Some.
  destruct (subscores_of_Some _ _ _ _ _ _ Hs) as (Hu & Hi & He & Hdep).
  assert (unit_interval (s_urgency s)) by (by eapply urgency_of_range).
  assert (unit_interval (s_importance s)) by (by eapply importance_of_range).
  assert (unit_interval (s_effort s)) by (by eapply effort_of_range).
  assert (unit_interval (s_dependency s)).
  { rewrite Hdep. apply dep_score_range. intros v Hv. split.
    - by eapply count_dependents_nonneg.
    - by eapply max_dependents_ge. }
  assert (unit_interval agg) as Hagg by (by eapply aggregate_range).
  destruct (penalized_range flags p.1 agg Hagg).
  cbn [r_score r_subscores s_urgency s_importance s_effort s_dependency round4 Q_float].
  repeat split; by apply Qround4_range.
Qed.

(** X11. Without weight overrides every reported number is between 0 and 1
    after rounding: the four sub-scores of each result, and its score, which
    is n/10000 for an integer n from 0 to 10000. *)
Theorem reported_scores_in_unit_interval tasks strategy today :
  Forall deps_ok tasks →
  ∃ out,
    compute_scores L tasks strategy None today = Some out ∧
    Forall (λ r,
      (∃ n : Z, (0 ≤ n ≤ 10000)%Z ∧ r_score r == n # 10000) ∧
      unit_interval (s_urgency (r_subscores r)) ∧
      unit_interval (s_importance (r_subscores r)) ∧
      unit_interval (s_effort (r_subscores r)) ∧
      unit_interval (s_dependency (r_subscores r))) out.
Proof.
  intros Hok. destruct (compute_scores_total L tasks strategy None today Hok) as [out Hc].
  exists out. split; [done|].
  destruct (compute_scores_entries _ _ _ _ _ _ Hc) as (id_map & cs & flags & _ & _ & _ & Hout & _).
  eapply Forall_impl; [exact Hout|]. intros r (p & _ & Hr).
  destruct (result_for_ranges _ _ _ _ _ _ Hr) as (Hs & Hrest). split; [|done].
  apply score_task_Some in Hr as (s & agg & due & title & _ & _ & _ & _ & ->).
  cbn [r_score round4 Q_float] in *.
  exists (Qround_half_even (penalized flags p.1 agg * 10000)).
  split; [|apply Qround4_grid].
  destruct Hs as [H0 H1]. rewrite Qround4_grid in H0, H1.
  unfold Qle in H0, H1. simpl in H0, H1. lia.
Qed.

(** X12. The dependency sub-score is relative to the batch. Either no task of the
    map is listed as a dependency and every result has dependency sub-score
    0; or some result belongs to a most listed task, which every other task
    is listed at most as often as, and its dependency sub-score is 1. *)
Theorem most_depended_task_scores_one tasks strategy weights today :
  Forall deps_ok tasks →
  ∃ out id_map,
    compute_scores L tasks strategy weights today = Some out ∧
    build_id_map L 0 tasks [] = Some id_map ∧
    (((∀ k, k ∈ keys id_map → fan_in id_map k = 0%Z) ∧
      ∀ r, r ∈ out → s_dependency (r_subscores r) == 0) ∨
     (∃ r, r ∈ out ∧ (0 < fan_in id_map (r_id r))%Z ∧
           (∀ k, k ∈ keys id_map → (fan_in id_map k ≤ fan_in id_map (r_id r))%Z) ∧
           s_dependency (r_subscores r) == 1)).
Proof.
  intros Hok. destruct (compute_scores_total L tasks strategy weights today Hok) as [out Hc].
  destruct (compute_scores_entries _ _ _ _ _ _ Hc)
    as (id_map & cs & flags & Hb & _ & _ & Hout & Hin & _).
  exists out, id_map. do 2 (split; [done|]).
  rewrite Forall_forall in Hout. rewrite Forall_forall in Hin.
  destruct id_map as [|p0 l] eqn:Eid.
  { left. split; [by intros k ?%elem_of_nil|].
    intros r Hr. destruct (Hout r Hr) as (p & Hp & _). by apply elem_of_nil in Hp. }
  rewrite <- Eid in *. clear Hb.
  set (cnt := count_dependents id_map) in *. set (maxd := max_dependents cnt) in *.
  assert (∀ k, k ∈ keys id_map → cnt !! k = Some (fan_in id_map k)) as Hcnt.
  { intros k Hk. unfold cnt. rewrite count_dependents_lookup. by rewrite decide_True. }
  assert (∀ k, k ∈ keys id_map → (0 ≤ fan_in id_map k ≤ maxd)%Z) as Hle.
  { intros k Hk. split; [unfold fan_in; lia|].
    eapply max_dependents_ge. by apply Hcnt. }
  assert (cnt ≠ ∅) as Hne.
  { intros He. specialize (Hcnt p0.1). rewrite He, lookup_empty in Hcnt.
    enough (None = Some (fan_in id_map p0.1)) by done.
    apply Hcnt. rewrite Eid. left. }
  destruct (max_dependents_attained cnt Hne) as [k Hk]. fold maxd in Hk.
  assert (k ∈ keys id_map ∧ fan_in id_map k = maxd) as [Hkin Hfan].
  { unfold cnt in Hk. rewrite count_dependents_lookup in Hk.
    destruct (decide (k ∈ keys id_map)); [|done]. by injection Hk as ->. }
  destruct (decide (0 < maxd)%Z) as [Hpos | Hzero].
  - right. apply list_elem_of_fmap in Hkin as (p & -> & Hp).
    destruct (Hin p Hp) as (r & Hr & Hres).
    exists r. split; [done|].
    apply score_task_Some in Hres as (s & agg & due & title & Hs & _ & _ & _ & ->).
    cbn [r_id r_subscores s_dependency round4 Q_float].
    rewrite Hfan. split; [done|]. split; [intros k' Hk'; by apply Hle|].
    apply subscores_of_Some in Hs as (_ & _ & _ & ->).
    apply Qround4_1. unfold dep_score_of. fold cnt maxd.
    rewrite (proj2 (Z.ltb_lt 0 maxd) Hpos), Hk.
    cbn [default fdiv of_int Q_float]. unfold Qdiv. apply Qmult_inv_r.
    assert (0 < inject_Z maxd) as Hq by (by rewrite <- (Zlt_Qlt 0)).
    intros E. rewrite E in Hq. by apply Qlt_irrefl in Hq.
  - left. pose proof (Hle k Hkin) as Hk0. split.
    + intros k' Hk'. pose proof (Hle k' Hk'). lia.
    + intros r Hr. destruct (Hout r Hr) as (p & Hp & Hres).
      apply score_task_Some in Hres as (s & agg & due & title & Hs & _ & _ & _ & ->).
      apply subscores_of_Some in Hs as (_ & _ & _ & Hd).
      cbn [r_subscores s_dependency round4 Q_float]. rewrite Hd.
      unfold dep_score_of. fold cnt maxd.
      rewrite (proj2 (Z.ltb_ge 0 maxd)) by lia. vm_compute. reflexivity.
Qed.

End Reported.

Lemma reported_scores_in_unit_interval_witness :
  ∃ out,
    compute_scores (F:=Q) no_text_lib ring "fastest" None 738000 = Some out ∧
    Forall (λ r,
      (∃ n : Z, (0 ≤ n ≤ 10000)%Z ∧ (r_score r == n # 10000)%Q) ∧
      unit_interval (s_urgency (r_subscores r)) ∧
      unit_interval (s_importance (r_subscores r)) ∧
      unit_interval (s_effort (r_subscores r)) ∧
      unit_interval (s_dependency (r_subscores r))) out.
Proof.
  apply (reported_scores_in_unit_interval no_text_lib).
  repeat (apply Forall_cons_2; [right; eexists; reflexivity|]). apply Forall_nil_2.
Defined.

Lemma most_depended_task_scores_one_witness :
  ∃ out id_map,
    compute_scores (F:=Q) no_text_lib ring "smart_balance" None 738000 = Some out ∧
    build_id_map (F:=Q) no_text_lib 0 ring [] = Some id_map ∧
    (((∀ k, k ∈ keys id_map → fan_in id_map k = 0%Z) ∧
      ∀ r, r ∈ out → (s_dependency (r_subscores r) == 0)%Q) ∨
     (∃ r, r ∈ out ∧ (0 < fan_in id_map (r_id r))%Z ∧
           (∀ k, k ∈ keys id_map → (fan_in id_map k ≤ fan_in id_map (r_id r))%Z) ∧
           (s_dependency (r_subscores r) == 1)%Q)).
Proof.
  apply (most_depended_task_scores_one no_text_lib).
  repeat (apply Forall_cons_2; [right; eexists; reflexivity|]). apply Forall_nil_2.
Defined.

(** ** Results and their records *)

Section Records.
Context {F : Type} `{PyFloat F}.
Variable L : PyLib F.
Implicit Types (tasks : list (task F)) (r : result F).

(** X13. Every result carries its own id and title in its record, the title is
    never empty or otherwise falsy, its issues are [circular_dependency]
    and [no_due_date] in this order or a part of them, and a result without
    a due date has the rounded urgency 0. *)
Theorem results_describe_their_tasks tasks strategy weights today :
  Forall deps_ok tasks →
  ∃ out,
    compute_scores L tasks strategy weights today = Some out ∧
    Forall (λ r,
      r_raw r !! "id" = Some (VStr (r_id r)) ∧
      r_raw r !! "title" = Some (r_title r) ∧
      truthy (r_title r) = true ∧
      r_issues r `sublist_of` ["circular_dependency"; "no_due_date"] ∧
      (r_raw r !! "due_date" = Some VNone →
       s_urgency (r_subscores r) = round4 (lit 0 1))) out.
Proof.
  intros Hok. destruct (compute_scores_total L tasks strategy weights today Hok) as [out Hc].
  exists out. split; [done|].
  destruct (compute_scores_entries _ _ _ _ _ _ Hc)
    as (id_map & cs & flags & Hb & _ & Hcl & Hout & _).
  eapply Forall_impl; [exact Hout|]. intros r (p & Hp & Hr).
  destruct (build_id_map_entry L _ _ _ Hb Hp) as (i & t & _ & Hclean).
  destruct (clean_task_fields L _ _ _ _ Hclean) as (Hid & Htitle & _).
  rewrite Forall_forall in Hcl. pose proof (Hcl p Hp) as Hclp.
  apply score_task_Some in Hr as (s & agg & due & title & Hs & _ & Hdue & Ht & ->).
  cbn [r_raw r_id r_title r_issues r_subscores s_urgency].
  split; [done|]. split; [done|]. split; [|split].
  - rewrite Htitle in Ht. injection Ht as <-. by apply truthy_py_or, truthy_text.
  - unfold issues_of. rewrite (lacks_estimate_cleaned p.2 Hclp), app_nil_r.
    destruct (flagged flags p.1), (is_none due); simpl.
    + reflexivity.
    + apply sublist_skip, sublist_nil_l.
    + apply sublist_cons. reflexivity.
    + apply sublist_nil_l.
  - intros Hnone. apply subscores_of_Some in Hs as (Hu & _).
    unfold urgency_of in Hu. rewrite Hnone in Hu. simpl in Hu. by injection Hu as <-.
Qed.

(** X14. A result carries [circular_dependency] only if its task lies on a
    dependency cycle among the tasks of the map; and no result carries it
    exactly when the map has no dependency cycle at all. *)
Theorem circular_dependency_issue_is_sound tasks strategy weights today :
  Forall deps_ok tasks →
  ∃ out id_map,
    compute_scores L tasks strategy weights today = Some out ∧
    build_id_map L 0 tasks [] = Some id_map ∧
    Forall (λ r, "circular_dependency" ∈ r_issues r →
                 on_cycle (graph_of id_map) (r_id r)) out ∧
    ((∀ r, r ∈ out → "circular_dependency" ∉ r_issues r) ↔
     ∀ k, ¬ on_cycle (graph_of id_map) k).
Proof.
  intros Hok. destruct (compute_scores_total L tasks strategy weights today Hok) as [out Hc].
  destruct (compute_scores_entries _ _ _ _ _ _ Hc)
    as (id_map & cs & flags & Hb & Hd & _ & Hout & Hin & _).
  exists out, id_map. do 2 (split; [done|]).
  apply detect_cycles_Some in Hd as (st & Hloop & -> & ->).
  destruct (roots_deep _ _ Hloop) as [[_ _ Hf Hdom Hs _ Hac] Hdone].
  rewrite Forall_forall in Hout. rewrite Forall_forall in Hin.
  assert (∀ k, in_cycle st !! k = Some true → on_cycle (graph_of id_map) k) as Hsound.
  { intros k (c & Hc' & Hk)%Hf. rewrite Forall_forall in Hs. by apply (Hs c Hc'). }
  assert (∀ r p, result_for L (select_weights strategy weights) today id_map (in_cycle st) p r →
                 r_id r = p.1 ∧
                 ("circular_dependency" ∈ r_issues r ↔ in_cycle st !! p.1 = Some true))
    as Hres.
  { intros r p (s & agg & due & title & _ & _ & _ & _ & ->)%score_task_Some.
    split; [done|]. cbn [r_issues]. rewrite elem_of_issues_of, <- flagged_true.
    intuition congruence. }
  split.
  - apply Forall_forall. intros r Hr Hissue. destruct (Hout r Hr) as (p & _ & Hp).
    destruct (Hres r p Hp) as [-> Hiff]. by apply Hsound, Hiff.
  - split.
    + intros Hclean k Hk.
      assert (cycles st = []) as He.
      { destruct (cycles st) as [|c cs] eqn:E; [done|]. exfalso.
        rewrite Forall_forall in Hs. destruct (Hs c) as [Hne _]; [left|].
        destruct (set_choose_L c Hne) as [k' Hk'].
        assert (in_cycle st !! k' = Some true) as Hflag.
        { apply Hf. exists c. split; [left | done]. }
        assert (k' ∈ keys id_map) as Hkin.
        { rewrite <- keys_graph_of. apply Hdom. by rewrite Hflag. }
        apply list_elem_of_fmap in Hkin as (p & -> & Hp).
        destruct (Hin p Hp) as (r & Hr & Hrp). destruct (Hres r p Hrp) as [_ Hiff].
        apply (Hclean r Hr). by apply Hiff. }
      apply (Hac He k); [|done]. apply Hdone; [done|]. by apply on_cycle_known.
    + intros Hno r Hr Hissue. destruct (Hout r Hr) as (p & _ & Hp).
      destruct (Hres r p Hp) as [_ Hiff]. apply (Hno p.1). by apply Hsound, Hiff.
Qed.

End Records.

Lemma results_describe_their_tasks_witness :
  ∃ out,
    compute_scores (F:=Q) no_text_lib ring "deadline" None 738000 = Some out ∧
    Forall (λ r,
      r_raw r !! "id" = Some (VStr (r_id r)) ∧
      r_raw r !! "title" = Some (r_title r) ∧
      truthy (r_title r) = true ∧
      r_issues r `sublist_of` ["circular_dependency"; "no_due_date"] ∧
      (r_raw r !! "due_date" = Some VNone →
       s_urgency (r_subscores r) = round4 (lit 0 1))) out.
Proof.
  apply (results_describe_their_tasks no_text_lib).
  repeat (apply Forall_cons_2; [right; eexists; reflexivity|]). apply Forall_nil_2.
Defined.

Lemma circular_dependency_issue_is_sound_witness :
  ∃ out id_map,
    compute_scores (F:=Q) no_text_lib ring "high_impact" None 738000 = Some out ∧
    build_id_map (F:=Q) no_text_lib 0 ring [] = Some id_map ∧
    Forall (λ r, "circular_dependency" ∈ r_issues r →
                 on_cycle (graph_of id_map) (r_id r)) out ∧
    ((∀ r, r ∈ out → "circular_dependency" ∉ r_issues r) ↔
     ∀ k, ¬ on_cycle (graph_of id_map) k).
Proof.
  apply (circular_dependency_issue_is_sound no_text_lib).
  repeat (apply Forall_cons_2; [right; eexists; reflexivity|]). apply Forall_nil_2.
Defined.

(** The converse fails: a task on a cycle may stay unflagged. With [A]
    depending on [C] and [B], [C] on [A] and [B] on [C], the search from [A]
    records the cycle through [A] and [C], finishes [C], and then reaches [B],
    whose only dependency is finished: [B] lies on the cycle from [B] to [C]
    to [A] and back, and is not flagged. *)
Example unflagged_cycle_member :
  let tasks : list (string * task Q) :=
    [ ("A", {[ "dependencies" := VList [VStr "C"; VStr "B"] ]});
      ("C", {[ "dependencies" := VList [VStr "A"] ]});
      ("B", {[ "dependencies" := VList [VStr "C"] ]}) ] in
  ∃ cs flags,
    detect_cycles tasks = Some (cs, flags) ∧
    cs = [{["A"; "C"]}] ∧ flags !! "B" = Some false ∧
    on_cycle (graph_of tasks) "B".
Proof.
  intros tasks.
  assert (∀ a b nbs, dict_get (graph_of tasks) a = Some nbs → b ∈ nbs →
                     b ∈ ["A"; "C"; "B"] → edge (graph_of tasks) a b) as He.
  { intros a b nbs Hg Hb Hk. by exists nbs. }
  eexists _, _. split; [vm_compute; reflexivity|].
  split; [vm_compute; reflexivity|]. split; [vm_compute; reflexivity|].
  unfold on_cycle. eapply tc_l; [|eapply tc_l; [|apply tc_once]].
  - apply (He "B" "C" ["C"]); [reflexivity | set_solver | set_solver].
  - apply (He "C" "A" ["A"]); [reflexivity | set_solver | set_solver].
  - apply (He "A" "B" ["C"; "B"]); [reflexivity | set_solver | set_solver].
Qed.

(** ** The views *)

Section ViewFacts.
Context {F : Type} `{PyFloat F}.
Variable L : PyLib F.
Variable validate : task F → option (task F).
Implicit Types (t : task F) (tasks : list (task F)).

Lemma get_fallback_dependencies t :
  truthy (get (fallback t) "dependencies") = truthy (get t "dependencies") ∧
  py_iter (get (fallback t) "dependencies")
  = if truthy (get t "dependencies") then py_iter (get t "dependencies")
    else py_iter (get (fallback t) "dependencies").
Proof.
  unfold get, fallback.
  rewrite !lookup_insert_ne, lookup_singleton_eq by done.
  destruct (t !! "dependencies") as [v|]; simpl; [|done].
  by destruct (truthy v).
Qed.

Lemma fallback_deps_ok t : deps_ok (fallback t) ↔ deps_ok t.
Proof.
  unfold deps_ok. destruct (get_fallback_dependencies t) as [-> Hi].
  destruct (truthy (get t "dependencies")) eqn:E; [by rewrite Hi|].
  split; intros _; by left.
Qed.

(** X15. The fallback record lets through what the serializer rejected: when a
    rejected task has a [dependencies] value that is truthy and cannot be
    iterated over, such as a number, scoring raises and the view fails. *)
Theorem rejected_scalar_dependencies_raise tasks strategy today t :
  t ∈ tasks → validate t = None → ¬ deps_ok t →
  analyze L validate tasks strategy today = None.
Proof.
  intros Ht Hv Hno. unfold analyze, compute_scores.
  rewrite (build_id_map_None L 0 (validated validate tasks) [] (fallback t)); [done| |].
  - unfold validated. apply list_elem_of_fmap. exists t. by rewrite Hv.
  - by rewrite fallback_deps_ok.
Qed.

(** X17. Rejected tasks lose their [id]: the fallback record has none, so the id
    is derived from the title, or from ["Untitled"] without one. A batch of
    rejected tasks that share this text comes back as a single result. *)
Theorem rejected_tasks_share_title_id tasks strategy today (s : string) :
  tasks ≠ [] → s ≠ "" →
  Forall (λ t, validate t = None ∧ deps_ok t ∧
               default (VStr "Untitled") (t !! "title") = VStr s) tasks →
  ∃ r, analyze L validate tasks strategy today = Some [r] ∧ r_id r = s.
Proof.
  intros Hne Hs Hall.
  assert (Forall deps_ok (validated validate tasks)) as Hv.
  { unfold validated. apply Forall_fmap. eapply Forall_impl; [exact Hall|].
    intros t (Hval & Hok & _). simpl. rewrite Hval. by apply fallback_deps_ok. }
  assert (∀ i, ids_from L i (validated validate tasks)
               = replicate (length tasks) s) as Hids.
  { clear Hne Hv. induction Hall as [|t l (Hval & _ & Ht) _ IH]; intros i; [done|].
    unfold ids_from, validated in *. cbn [fmap list_fmap imap length replicate]. f_equal.
    - rewrite Hval. simpl. unfold derive_id, get, fallback.
      rewrite lookup_insert_eq.
      rewrite !lookup_insert_ne, lookup_singleton_ne by done. simpl.
      rewrite Ht. unfold py_or at 2. simpl.
      unfold py_or. rewrite truthy_text by done. done.
    - rewrite <- (IH (S i)). apply imap_ext. intros j x _. simpl.
      by rewrite Nat.add_succ_r. }
  destruct (compute_scores_total L _ strategy None today Hv) as [out Hc].
  destruct (compute_scores_entries _ _ _ _ _ _ Hc)
    as (id_map & cs & flags & Hb & _ & _ & _ & _ & results & Hk & ->).
  assert (NoDup (keys id_map)) as Hnd.
  { eapply build_id_map_NoDup; [|exact Hb]. apply NoDup_nil_2. }
  assert (∀ k, k ∈ keys id_map ↔ k = s) as Hkeys.
  { intros k. rewrite (build_id_map_keys L _ _ _ _ Hb k), Hids.
    rewrite elem_of_nil, elem_of_replicate. destruct tasks; [done|]. simpl.
    intuition lia. }
  assert (keys id_map = [s]) as Hone.
  { destruct (keys id_map) as [|a [|b l]] eqn:E.
    - pose proof (proj2 (Hkeys s) eq_refl) as Hin. by apply elem_of_nil in Hin.
    - f_equal. apply Hkeys. left.
    - exfalso. apply NoDup_cons in Hnd as [Hab _]. apply Hab.
      rewrite (proj1 (Hkeys a)) by left. rewrite <- (proj1 (Hkeys b)); [left|]. right. left. }
  rewrite Hone in Hk. destruct results as [|r [|r' l]]; try done.
  exists r. split; [|by injection Hk]. unfold analyze. rewrite Hc. done.
Qed.

End ViewFacts.

(** ** The body of the request *)

Section PostFacts.
Context {F : Type} `{PyFloat F}.
Variable L : PyLib F.
Variable validate : task F → option (task F).







(** For an array of objects and a strategy in the query string, [post] is
    [analyze] on the records. *)
Lemma post_array (kvs : list (list (string * pyval F))) query_strategy today :
  post L validate (VList (VDict <$> kvs)) query_strategy today
  = analyze L validate (list_to_map <$> kvs) (default "smart_balance" query_strategy) today.
Proof.
  assert (mapM (validated_item validate) (VDict <$> kvs)
          = Some (validated validate (list_to_map <$> kvs))) as Hm.
  { apply mapM_Some. unfold validated.
    induction kvs as [|kv kvs IH]; cbn [fmap list_fmap]; by constructor. }
  unfold post, analyze.
  cbn [read_payload py_iter mbind option_bind strategy_key]. rewrite Hm. done.
Qed.

End PostFacts.

(** A task that is not an object, and a strategy that is a list, make the
    view fail. *)
Example post_fails_on_text_task :
  post (F:=Q) no_text_lib (λ _, None) (VList [VStr "call Bob"]) None 738000 = None.
Proof. reflexivity. Qed.

Example post_fails_on_list_strategy :
  post (F:=Q) no_text_lib (λ _, None)
    (VDict [("tasks", VList []); ("strategy", VList [])]) None 738000 = None.
Proof. reflexivity. Qed.

Example post_answers_empty_object :
  post (F:=Q) no_text_lib (λ _, None) (VDict []) None 738000 = Some [].
Proof. vm_compute. reflexivity. Qed.

(** ** Suggestions *)

Section Suggestions.
Variable L : PyLib Q.
Variable validate : task Q → option (task Q).
Implicit Types (r : result Q) (s : subscores Q).
Local Open Scope Q_scope.

(** The scan behind [max]: with [best] the first largest item of the part
    already seen, the result is the first largest item of the whole list. *)
Lemma max_by_value_scan (rest seen : list (string * Q)) (best : string * Q) l1 l2 :
  seen = l1 ++ best :: l2 →
  Forall (λ x, x.2 < best.2) l1 → Forall (λ x, x.2 <= best.2) l2 →
  ∃ l1' l2',
    seen ++ rest = l1' ++ max_by_value best rest :: l2' ∧
    Forall (λ x, x.2 < (max_by_value best rest).2) l1' ∧
    Forall (λ x, x.2 <= (max_by_value best rest).2) l2'.
Proof.
  unfold max_by_value. revert seen best l1 l2.
  induction rest as [|x rest IH]; intros seen best l1 l2 -> H1 H2.
  - exists l1, l2. simpl. by rewrite app_nil_r.
  - cbn [foldl]. destruct (flt best.2 x.2) eqn:E.
    + apply flt_exact in E.
      destruct (IH ((l1 ++ best :: l2) ++ [x]) x (l1 ++ best :: l2) []) as (l1' & l2' & Hm).
      * done.
      * apply Forall_app. split; [|apply Forall_cons_2].
        -- eapply Forall_impl; [exact H1|]. simpl. intros y Hy. lra.
        -- done.
        -- eapply Forall_impl; [exact H2|]. simpl. intros y Hy. lra.
      * apply Forall_nil_2.
      * exists l1', l2'. by rewrite <- app_assoc in Hm.
    + apply flt_exact_false in E.
      destruct (IH ((l1 ++ best :: l2) ++ [x]) best l1 (l2 ++ [x])) as (l1' & l2' & Hm).
      * by rewrite <- app_assoc.
      * done.
      * apply Forall_app. split; [done|]. apply Forall_cons_2; [done | apply Forall_nil_2].
      * exists l1', l2'. by rewrite <- app_assoc in Hm.
Qed.

(** X18. The driver named in a suggestion is a largest sub-score, and the first
    one in the order urgency, importance, effort, dependency: every
    sub-score before it is strictly smaller, none after it is larger. *)
Theorem top_factor_is_first_maximum s :
  ∃ l1 l2,
    subscore_items s = l1 ++ top_factor s :: l2 ∧
    Forall (λ x, x.2 < (top_factor s).2) l1 ∧
    Forall (λ x, x.2 <= (top_factor s).2) l2.
Proof.
  unfold top_factor, subscore_items.
  destruct (max_by_value_scan
              [ ("importance", s_importance s); ("effort", s_effort s);
                ("dependency", s_dependency s) ]
              [ ("urgency", s_urgency s) ] ("urgency", s_urgency s) [] [])
    as (l1 & l2 & Heq & Hbefore & Hafter).
  - done.
  - apply Forall_nil_2.
  - apply Forall_nil_2.
  - by exists l1, l2.
Qed.

Lemma sorted_take_drop (l : list (result Q)) n a b :
  StronglySorted score_ge l → a ∈ take n l → b ∈ drop n l → r_score b <= r_score a.
Proof.
  intros Hs. revert n. induction Hs as [|x l Hs IH Hx]; intros n Ha Hb.
  - rewrite take_nil in Ha. by apply elem_of_nil in Ha.
  - destruct n as [|n]; simpl in *; [by apply elem_of_nil in Ha|].
    apply elem_of_cons in Ha as [-> | Ha].
    + rewrite Forall_forall in Hx. apply (Hx b).
      eapply elem_of_sublist; [exact Hb | apply sublist_drop].
    + by apply (IH n).
Qed.

Lemma stored_sorted (l : list (result Q)) :
  StronglySorted score_ge l → StronglySorted score_ge (stored L l).
Proof.
  induction 1 as [|x l Hs IH Hx]; [constructor|].
  unfold stored. cbn [fmap list_fmap]. constructor; [exact IH|].
  apply Forall_fmap. eapply Forall_impl; [exact Hx|]. done.
Qed.

(** X19. After an analysis has been stored, the suggestions are the first
    results of the response, three of them or all when there are fewer: no
    result left out has a higher score than a suggested one; and a
    suggestion carries the note on circular dependencies exactly when its
    result has the [circular_dependency] issue. *)
Theorem suggestions_are_the_top_three (tasks : list (task Q)) strategy today :
  Forall deps_ok (validated validate tasks) →
  ∃ out sugg,
    analyze L validate tasks strategy today = Some out ∧
    suggest L (Some (stored L out)) = Ok sugg ∧
    sg_task <$> sugg = stored L (take 3 out) ∧
    length sugg = Nat.min 3 (length out) ∧ (length out ≤ length tasks)%nat ∧
    (∀ g r, g ∈ sugg → r ∈ drop 3 out → r_score r <= r_score (sg_task g)) ∧
    Forall (λ g, cycle_note ∈ sg_reasons g ↔
                 "circular_dependency" ∈ r_issues (sg_task g)) sugg.
Proof.
  intros Hok. destruct (compute_scores_total L _ strategy None today Hok) as [out Hc].
  exists out. eexists. split; [exact Hc|]. split; [reflexivity|].
  assert (StronglySorted score_ge out) as Hsorted.
  { apply compute_scores_Some in Hc as (? & ? & ? & results & _ & _ & _ & ->).
    apply sort_desc_sorted. }
  split; [|split; [|split; [|split]]].
  - unfold stored. rewrite <- (fmap_take (stored_result L)), <- list_fmap_compose.
    transitivity (id <$> (stored_result L <$> take 3 out)); [|apply list_fmap_id].
    by apply list_fmap_ext.
  - rewrite length_fmap, length_take. unfold stored. rewrite length_fmap. lia.
  - destruct (compute_scores_entries _ _ _ _ _ _ Hc)
      as (id_map & cs & flags & Hb & _ & _ & _ & _ & results & Hids & ->).
    rewrite sort_desc_perm, <- (length_fmap r_id), Hids.
    assert (NoDup (keys id_map)) as Hnd.
    { eapply build_id_map_NoDup; [|exact Hb]. apply NoDup_nil_2. }
    assert (keys id_map ⊆ derived_ids L (validated validate tasks)) as Hsub.
    { intros k Hk. apply (build_id_map_keys L _ _ _ _ Hb k) in Hk as [Hk | Hk]; [|done].
      by apply elem_of_nil in Hk. }
    pose proof (submseteq_length _ _ (NoDup_submseteq _ _ Hnd Hsub)) as Hlen.
    unfold derived_ids, ids_from, validated in Hlen.
    by rewrite length_imap, length_fmap in Hlen.
  - intros g r (t & -> & Ht)%list_elem_of_fmap Hr. cbn [sg_task].
    unfold stored in Ht. rewrite <- fmap_take in Ht.
    apply list_elem_of_fmap in Ht as (a & -> & Ha). cbn [stored_result r_score].
    by eapply sorted_take_drop.
  - apply Forall_fmap, Forall_forall. intros t _. unfold compose. cbn [sg_task sg_reasons].
    unfold reasons_of. rewrite elem_of_app, elem_of_cons.
    destruct (bool_decide_reflect ("circular_dependency" ∈ r_issues t)) as [Hin | Hin].
    + split; [done|]. intros _. right. left.
    + split; [|done]. intros [[Heq | Hnil] | Hnil]; try by apply elem_of_nil in Hnil.
      exfalso. revert Heq. unfold cycle_note. simpl. discriminate.
Qed.

End Suggestions.

Lemma suggestions_are_the_top_three_witness :
  ∃ out sugg,
    analyze (F:=Q) no_text_lib accept_titled titled_batch "smart_balance" 738000 = Some out ∧
    suggest no_text_lib (Some (stored no_text_lib out)) = Ok sugg ∧
    sg_task <$> sugg = stored no_text_lib (take 3 out) ∧
    length sugg = Nat.min 3 (length out) ∧
    (length out ≤ length (titled_batch (F:=Q)))%nat ∧
    (∀ g r, g ∈ sugg → r ∈ drop 3 out → (r_score r <= r_score (sg_task g))%Q) ∧
    Forall (λ g, cycle_note ∈ sg_reasons g ↔
                 "circular_dependency" ∈ r_issues (sg_task g)) sugg.
Proof.
  apply (suggestions_are_the_top_three no_text_lib accept_titled titled_batch).
  repeat (apply Forall_cons_2; [right; eexists; vm_compute; reflexivity|]). apply Forall_nil_2.
Defined.

(** The run behind the witness: five results, of which [D], [A] and [B] are
    suggested and [C] and [E] are left out; [C] ties with [B]; the
    suggestions for [A] and [B] carry the note on circular dependencies. *)
Example suggestion_scenario :
  ∃ out sugg,
    analyze (F:=Q) no_text_lib accept_titled titled_batch "smart_balance" 738000 = Some out ∧
    suggest no_text_lib (Some (stored no_text_lib out)) = Ok sugg ∧
    (λ r, (r_id r, r_score r)) <$> out
    = [ ("D", 157 # 200); ("A", 801 # 2000); ("B", 801 # 2000); ("C", 801 # 2000);
        ("E", 59 # 200) ]%Q ∧
    (λ g, (r_id (sg_task g), bool_decide (cycle_note ∈ sg_reasons g))) <$> sugg
    = [ ("D", false); ("A", true); ("B", true) ].
Proof.
  eexists _, _. split; [vm_compute; reflexivity|]. split; [reflexivity|].
  split; vm_compute; reflexivity.
Qed.

Lemma rejected_scalar_dependencies_raise_witness :
  analyze (F:=Q) no_text_lib (λ _, None)
    [ {[ "title" := VStr "t"; "dependencies" := VInt 5 ]} ] "smart_balance" 738000 = None.
Proof.
  apply (rejected_scalar_dependencies_raise no_text_lib (λ _, None) _ _ _
           {[ "title" := VStr "t"; "dependencies" := VInt 5 ]}).
  - left.
  - reflexivity.
  - intros [Hd | [l Hd]]; vm_compute in Hd; discriminate.
Defined.

Lemma rejected_tasks_share_title_id_witness :
  ∃ r,
    analyze (F:=Q) no_text_lib (λ _, None)
      [ {[ "id" := VStr "a" ]}; {[ "id" := VStr "b"; "importance" := VInt 9 ]} ]
      "smart_balance" 738000 = Some [r] ∧
    r_id r = "Untitled".
Proof.
  apply (rejected_tasks_share_title_id no_text_lib (λ _, None)
           [ {[ "id" := VStr "a" ]}; {[ "id" := VStr "b"; "importance" := VInt 9 ]} ]).
  - discriminate.
  - discriminate.
  - repeat (apply Forall_cons_2;
            [split; [reflexivity | split; [left; reflexivity | reflexivity]]|]).
    apply Forall_nil_2.
Defined.
